(** * Snake game engine and login: a shallow embedding of js/game.js,
      js/storage.js, js/auth.js and the game handlers of js/app.js, with
      the properties of the design document checked against it. *)

From Stdlib Require Import ZArith QArith Qround Qpower Lia Lqa Ascii String
  HexString DecimalString.
From stdpp Require Import base decidable option list gmap strings fin_maps.

Local Open Scope Z_scope.

(** ** Outcomes of a JavaScript call

    A call either returns, raises (a [TypeError] on a property read of
    [undefined] or [null], or [JSON.parse] failing), or is still inside a
    loop when the supply of [Math.random()] samples given to the model runs
    out. *)

Inductive outcome (A : Type) : Type :=
| Done (a : A)
| Throws
| Spins.

Arguments Done {A} a.
Arguments Throws {A}.
Arguments Spins {A}.

Definition bind {A B : Type} (m : outcome A) (k : A -> outcome B) : outcome B :=
  match m with
  | Done a => k a
  | Throws => Throws
  | Spins => Spins
  end.

Notation "'let*' x := m 'in' k" := (bind m (fun x => k))
  (at level 10, x name, m at level 100, k at level 200).

Definition returns {A : Type} (m : outcome A) : Prop := exists a, m = Done a.

(** ** Numbers

    Every JavaScript number is an IEEE 754 double. The finite doubles are
    rationals, and the product or the sum of two of them is the exact
    result rounded to the nearest double, ties going to the one with the
    even last digit. A result of 2^1024 or more in size is [Infinity] in
    JavaScript and is outside this model; the products and the sums taken
    here stay far below. *)

Module Double.

Definition pow2 (k : Z) : Q := (2 ^ k)%Q.

(** The binade of a positive number: the [b] with 2^b <= q < 2^(b+1). *)
Definition binade (q : Q) : Z :=
  let k := Z.log2 (Qnum q) - Z.log2 (Zpos (Qden q)) in
  if Qle_bool (pow2 k) q then k else k - 1.

(** The exponent of the last of the 53 digits; from -1074 down the doubles
    are subnormal and keep that exponent. *)
Definition lastPlace (q : Q) : Z := Z.max (binade q - 52) (-1074).

(** The nearest integer, the even one of two that are as near. *)
Definition nearestEven (q : Q) : Z :=
  let f := Qfloor q in
  match (q - inject_Z f ?= 1 # 2)%Q with
  | Lt => f
  | Gt => f + 1
  | Eq => if Z.even f then f else f + 1
  end.

Definition roundPositive (q : Q) : Q :=
  (inject_Z (nearestEven (q / pow2 (lastPlace q))) * pow2 (lastPlace q))%Q.

(** The nearest double. *)
Definition round (q : Q) : Q :=
  match (q ?= 0)%Q with
  | Eq => 0%Q
  | Gt => roundPositive q
  | Lt => (- roundPositive (- q))%Q
  end.

(** The doubles are the numbers rounding leaves alone. *)
Definition isDouble (q : Q) : bool := Qeq_bool (round q) q.

(** [a * b] on doubles. *)
Definition mul (a b : Q) : Q := round (a * b).

(** [a + b] on doubles that are integers; the rounded sum is one again. *)
Definition add (a b : Z) : Z := Qfloor (round (inject_Z (a + b))).

End Double.

(** ** js/game.js *)

Module SnakeGame.

(** [CONFIG] *)
Module CONFIG.
Definition gridSize : Z := 20.
Definition cellSize : Z := 20.
Definition initialSpeed : Z := 150.
Definition speedIncrement : Z := 2.
Definition minSpeed : Z := 50.
End CONFIG.

(** [DIRECTIONS]: the four shared delta objects; the code compares them by
    identity ([direction !== DIRECTIONS.DOWN]). *)
Inductive Direction : Set := UP | DOWN | LEFT | RIGHT.

Definition dx (d : Direction) : Z :=
  match d with UP => 0 | DOWN => 0 | LEFT => -1 | RIGHT => 1 end.

Definition dy (d : Direction) : Z :=
  match d with UP => -1 | DOWN => 1 | LEFT => 0 | RIGHT => 0 end.

(** The reverse of a direction: the delta negated. *)
Definition opposite (d : Direction) : Direction :=
  match d with UP => DOWN | DOWN => UP | LEFT => RIGHT | RIGHT => LEFT end.

(** [STATES] *)
Inductive GameState : Set := IDLE | PLAYING | PAUSED | GAME_OVER.

#[global] Instance Direction_eq_dec : EqDecision Direction.
Proof. solve_decision. Defined.

#[global] Instance GameState_eq_dec : EqDecision GameState.
Proof. solve_decision. Defined.

(** A cell [{ x, y }]. *)
Record Segment : Set := { x : Z; y : Z }.

#[global] Instance Segment_eq_dec : EqDecision Segment.
Proof. solve_decision. Defined.

(** What the engine does to the outside: a render pass, the two observer
    callbacks and [event.preventDefault()]. The log is newest first. *)
Inductive Event : Set :=
| Rendered
| ScoreUpdated (s : Z)
| GameEnded (s : Z)
| DefaultPrevented.

(** The module variables of the closure, and the part of the host they act
    on. [canvas] and [ctx] are [undefined] until [init] sets them both,
    and are recorded as whether the 2D context is there. Then come the
    live interval timers (handle and delay), the next handle
    [setInterval] hands out, whether the keydown listener is attached, the
    results the coming [Math.random()] calls return, and the log. Timer
    handles are positive in a browser, so that [if (gameLoop)] tests for
    [null]. The callbacks are recorded as registered or [null]; what they
    do when called is outside the engine, and they do not call it back. *)
Record Engine : Type := {
  ctx : bool;
  snake : list Segment;
  food : option Segment;
  direction : Direction;
  nextDirection : Direction;
  score : Z;
  gameState : GameState;
  gameLoop : option nat;
  speed : Z;
  onScoreUpdate : bool;
  onGameOver : bool;
  timers : list (nat * Z);
  nextTimer : nat;
  listening : bool;
  entropy : list Q;
  log : list Event
}.

Definition with_ctx (v : bool) (e : Engine) : Engine :=
  {| ctx := v; snake := snake e; food := food e; direction := direction e;
     nextDirection := nextDirection e; score := score e;
     gameState := gameState e; gameLoop := gameLoop e; speed := speed e;
     onScoreUpdate := onScoreUpdate e; onGameOver := onGameOver e;
     timers := timers e; nextTimer := nextTimer e; listening := listening e;
     entropy := entropy e; log := log e |}.

Definition with_snake (v : list Segment) (e : Engine) : Engine :=
  {| ctx := ctx e; snake := v; food := food e; direction := direction e;
     nextDirection := nextDirection e; score := score e;
     gameState := gameState e; gameLoop := gameLoop e; speed := speed e;
     onScoreUpdate := onScoreUpdate e; onGameOver := onGameOver e;
     timers := timers e; nextTimer := nextTimer e; listening := listening e;
     entropy := entropy e; log := log e |}.

Definition with_food (v : option Segment) (e : Engine) : Engine :=
  {| ctx := ctx e; snake := snake e; food := v; direction := direction e;
     nextDirection := nextDirection e; score := score e;
     gameState := gameState e; gameLoop := gameLoop e; speed := speed e;
     onScoreUpdate := onScoreUpdate e; onGameOver := onGameOver e;
     timers := timers e; nextTimer := nextTimer e; listening := listening e;
     entropy := entropy e; log := log e |}.

Definition with_direction (v : Direction) (e : Engine) : Engine :=
  {| ctx := ctx e; snake := snake e; food := food e; direction := v;
     nextDirection := nextDirection e; score := score e;
     gameState := gameState e; gameLoop := gameLoop e; speed := speed e;
     onScoreUpdate := onScoreUpdate e; onGameOver := onGameOver e;
     timers := timers e; nextTimer := nextTimer e; listening := listening e;
     entropy := entropy e; log := log e |}.

Definition with_nextDirection (v : Direction) (e : Engine) : Engine :=
  {| ctx := ctx e; snake := snake e; food := food e; direction := direction e;
     nextDirection := v; score := score e;
     gameState := gameState e; gameLoop := gameLoop e; speed := speed e;
     onScoreUpdate := onScoreUpdate e; onGameOver := onGameOver e;
     timers := timers e; nextTimer := nextTimer e; listening := listening e;
     entropy := entropy e; log := log e |}.

Definition with_score (v : Z) (e : Engine) : Engine :=
  {| ctx := ctx e; snake := snake e; food := food e; direction := direction e;
     nextDirection := nextDirection e; score := v;
     gameState := gameState e; gameLoop := gameLoop e; speed := speed e;
     onScoreUpdate := onScoreUpdate e; onGameOver := onGameOver e;
     timers := timers e; nextTimer := nextTimer e; listening := listening e;
     entropy := entropy e; log := log e |}.

Definition with_gameState (v : GameState) (e : Engine) : Engine :=
  {| ctx := ctx e; snake := snake e; food := food e; direction := direction e;
     nextDirection := nextDirection e; score := score e;
     gameState := v; gameLoop := gameLoop e; speed := speed e;
     onScoreUpdate := onScoreUpdate e; onGameOver := onGameOver e;
     timers := timers e; nextTimer := nextTimer e; listening := listening e;
     entropy := entropy e; log := log e |}.

Definition with_gameLoop (v : option nat) (e : Engine) : Engine :=
  {| ctx := ctx e; snake := snake e; food := food e; direction := direction e;
     nextDirection := nextDirection e; score := score e;
     gameState := gameState e; gameLoop := v; speed := speed e;
     onScoreUpdate := onScoreUpdate e; onGameOver := onGameOver e;
     timers := timers e; nextTimer := nextTimer e; listening := listening e;
     entropy := entropy e; log := log e |}.

Definition with_speed (v : Z) (e : Engine) : Engine :=
  {| ctx := ctx e; snake := snake e; food := food e; direction := direction e;
     nextDirection := nextDirection e; score := score e;
     gameState := gameState e; gameLoop := gameLoop e; speed := v;
     onScoreUpdate := onScoreUpdate e; onGameOver := onGameOver e;
     timers := timers e; nextTimer := nextTimer e; listening := listening e;
     entropy := entropy e; log := log e |}.

Definition with_callbacks (s o : bool) (e : Engine) : Engine :=
  {| ctx := ctx e; snake := snake e; food := food e; direction := direction e;
     nextDirection := nextDirection e; score := score e;
     gameState := gameState e; gameLoop := gameLoop e; speed := speed e;
     onScoreUpdate := s; onGameOver := o;
     timers := timers e; nextTimer := nextTimer e; listening := listening e;
     entropy := entropy e; log := log e |}.

Definition with_timers (v : list (nat * Z)) (n : nat) (e : Engine) : Engine :=
  {| ctx := ctx e; snake := snake e; food := food e; direction := direction e;
     nextDirection := nextDirection e; score := score e;
     gameState := gameState e; gameLoop := gameLoop e; speed := speed e;
     onScoreUpdate := onScoreUpdate e; onGameOver := onGameOver e;
     timers := v; nextTimer := n; listening := listening e;
     entropy := entropy e; log := log e |}.

Definition with_listening (v : bool) (e : Engine) : Engine :=
  {| ctx := ctx e; snake := snake e; food := food e; direction := direction e;
     nextDirection := nextDirection e; score := score e;
     gameState := gameState e; gameLoop := gameLoop e; speed := speed e;
     onScoreUpdate := onScoreUpdate e; onGameOver := onGameOver e;
     timers := timers e; nextTimer := nextTimer e; listening := v;
     entropy := entropy e; log := log e |}.

Definition with_entropy (v : list Q) (e : Engine) : Engine :=
  {| ctx := ctx e; snake := snake e; food := food e; direction := direction e;
     nextDirection := nextDirection e; score := score e;
     gameState := gameState e; gameLoop := gameLoop e; speed := speed e;
     onScoreUpdate := onScoreUpdate e; onGameOver := onGameOver e;
     timers := timers e; nextTimer := nextTimer e; listening := listening e;
     entropy := v; log := log e |}.

Definition emit (ev : Event) (e : Engine) : Engine :=
  {| ctx := ctx e; snake := snake e; food := food e; direction := direction e;
     nextDirection := nextDirection e; score := score e;
     gameState := gameState e; gameLoop := gameLoop e; speed := speed e;
     onScoreUpdate := onScoreUpdate e; onGameOver := onGameOver e;
     timers := timers e; nextTimer := nextTimer e; listening := listening e;
     entropy := entropy e; log := ev :: log e |}.

(** *** The host's timers *)

(** [gameLoop = setInterval(update, delay)]: a fresh handle, now live. *)
Definition setInterval (delay : Z) (e : Engine) : Engine :=
  with_gameLoop (Some (nextTimer e))
    (with_timers ((nextTimer e, delay) :: timers e) (S (nextTimer e)) e).

(** [clearInterval(gameLoop)]; on [null] it does nothing. *)
Definition clearInterval (h : option nat) (e : Engine) : Engine :=
  match h with
  | Some n =>
      with_timers (filter (fun t => fst t <> n) (timers e)) (nextTimer e) e
  | None => e
  end.

(** *** [render]: draws on the canvas through [ctx] and changes nothing of
    the engine. Its first statement, [ctx.fillStyle = ...], raises while
    [ctx] is [undefined]. *)
Definition render (e : Engine) : outcome Engine :=
  if ctx e then Done (emit Rendered e) else Throws.

(** *** [spawnFood] *)

(** [Math.floor(Math.random() * CONFIG.gridSize)] on the sample [r] that
    [Math.random()] returned: the floor of the product as a double. *)
Definition randomCoord (r : Q) : Z :=
  Qfloor (Double.mul r (inject_Z CONFIG.gridSize)).

(** The [for (const segment of snake)] scan of [spawnFood], and the
    [for (let i = 0; ...)] scan of [checkCollision]: both look for a
    segment with the coordinates of [c]. *)
Definition onSnake (body : list Segment) (c : Segment) : bool :=
  existsb (fun segment => (x segment =? x c) && (y segment =? y c)) body.

(** The [while (!valid)] loop: two samples per round, until the cell is
    free. [Spins] when the samples given run out first. *)
Fixpoint spawnLoop (body : list Segment) (rs : list Q)
  : outcome (Segment * list Q) :=
  match rs with
  | rx :: ry :: rs' =>
      let newFood := {| x := randomCoord rx; y := randomCoord ry |} in
      if onSnake body newFood then spawnLoop body rs'
      else Done (newFood, rs')
  | _ => Spins
  end.

Definition spawnFood (e : Engine) : outcome Engine :=
  let* r := spawnLoop (snake e) (entropy e) in
  Done (with_food (Some (fst r)) (with_entropy (snd r) e)).

(** *** [reset] *)

Definition startX : Z := CONFIG.gridSize / 2.
Definition startY : Z := CONFIG.gridSize / 2.

Definition initialSnake : list Segment :=
  [ {| x := startX; y := startY |};
    {| x := startX - 1; y := startY |};
    {| x := startX - 2; y := startY |} ].

Definition reset (e : Engine) : outcome Engine :=
  let e := match gameLoop e with
           | Some h => with_gameLoop None (clearInterval (Some h) e)
           | None => e
           end in
  let e := with_snake initialSnake e in
  let e := with_direction RIGHT e in
  let e := with_nextDirection RIGHT e in
  let e := with_score 0 e in
  let e := with_speed CONFIG.initialSpeed e in
  let* e := spawnFood e in
  let e := with_gameState IDLE e in
  render e.

(** *** [init], on a canvas element and the callbacks given or not *)
Definition init (cbScore cbOver : bool) (e : Engine) : outcome Engine :=
  let e := with_ctx true e in
  let e := with_callbacks cbScore cbOver e in
  let* e := reset e in
  Done (with_listening true e).

(** *** [start], [togglePause], the accessors *)

Definition start (e : Engine) : outcome Engine :=
  if decide (gameState e = PLAYING) then Done e
  else
    let* e := (if decide (gameState e = GAME_OVER \/ gameState e = IDLE)
               then reset e else Done e) in
    let e := with_gameState PLAYING e in
    Done (setInterval (speed e) e).

Definition togglePause (e : Engine) : Engine :=
  if decide (gameState e = PLAYING) then
    let e := with_gameState PAUSED e in
    let e := clearInterval (gameLoop e) e in
    with_gameLoop None e
  else if decide (gameState e = PAUSED) then
    let e := with_gameState PLAYING e in
    setInterval (speed e) e
  else e.

Definition getState (e : Engine) : GameState := gameState e.
Definition getScore (e : Engine) : Z := score e.

(** *** [handleKeyDown], on [event.code] *)

Definition handleKeyDown (code : string) (e : Engine) : outcome Engine :=
  if String.eqb code "Space" then
    let e := emit DefaultPrevented e in
    if decide (gameState e = IDLE \/ gameState e = GAME_OVER)
    then start e
    else Done (togglePause e)
  else if decide (gameState e <> PLAYING) then Done e
  else
    let newDirection :=
      if String.eqb code "ArrowUp" || String.eqb code "KeyW" then
        if decide (direction e <> DOWN) then Some UP else None
      else if String.eqb code "ArrowDown" || String.eqb code "KeyS" then
        if decide (direction e <> UP) then Some DOWN else None
      else if String.eqb code "ArrowLeft" || String.eqb code "KeyA" then
        if decide (direction e <> RIGHT) then Some LEFT else None
      else if String.eqb code "ArrowRight" || String.eqb code "KeyD" then
        if decide (direction e <> LEFT) then Some RIGHT else None
      else None in
    match newDirection with
    | Some d => Done (with_nextDirection d (emit DefaultPrevented e))
    | None => Done e
    end.

(** *** [checkCollision], [endGame], [update] *)

Definition checkCollision (head : Segment) (e : Engine) : bool :=
  if (x head <? 0) || (x head >=? CONFIG.gridSize) ||
     (y head <? 0) || (y head >=? CONFIG.gridSize)
  then true
  else onSnake (snake e) head.

Definition endGame (e : Engine) : outcome Engine :=
  let e := with_gameState GAME_OVER e in
  let e := clearInterval (gameLoop e) e in
  let e := with_gameLoop None e in
  let e := if onGameOver e then emit (GameEnded (score e)) e else e in
  render e.

Definition update (e : Engine) : outcome Engine :=
  if decide (gameState e <> PLAYING) then Done e
  else
    let e := with_direction (nextDirection e) e in
    match snake e with
    | [] => Throws
    | head :: _ =>
        let newHead := {| x := x head + dx (direction e);
                          y := y head + dy (direction e) |} in
        if checkCollision newHead e then endGame e
        else
          let e := with_snake (newHead :: snake e) e in
          match food e with
          | None => Throws
          | Some f =>
              if (x newHead =? x f) && (y newHead =? y f) then
                let e := with_score (score e + 10) e in
                let e := if onScoreUpdate e
                         then emit (ScoreUpdated (score e)) e else e in
                let e := if speed e >? CONFIG.minSpeed then
                           let e := with_speed
                                      (speed e - CONFIG.speedIncrement) e in
                           let e := clearInterval (gameLoop e) e in
                           setInterval (speed e) e
                         else e in
                let* e := spawnFood e in
                render e
              else
                let e := with_snake (removelast (snake e)) e in
                render e
          end
    end.

(** *** [destroy] *)
Definition destroy (e : Engine) : Engine :=
  let e := with_listening false e in
  match gameLoop e with
  | Some h => with_gameLoop None (clearInterval (Some h) e)
  | None => e
  end.

(** The closure's variables as the module leaves them before [init], on a
    host that will return the samples [rs]. *)
Definition loaded (rs : list Q) : Engine :=
  {| ctx := false; snake := []; food := None; direction := RIGHT;
     nextDirection := RIGHT; score := 0; gameState := IDLE; gameLoop := None;
     speed := CONFIG.initialSpeed; onScoreUpdate := false;
     onGameOver := false; timers := []; nextTimer := 1; listening := false;
     entropy := rs; log := [] |}.

End SnakeGame.

(** *** Runs of the engine

    What the page and the host do to an initialised engine: the calls of
    the public API, a keydown event on the document (it reaches
    [handleKeyDown] while the listener is attached) and the firing of an
    interval timer (it calls [update] when the handle is live). *)

Module Runs.
Import SnakeGame.

Inductive Action : Type :=
| CallInit (cbScore cbOver : bool)
| CallReset
| CallStart
| CallTogglePause
| CallDestroy
| KeyDown (code : string)
| TimerFires (h : nat).

Definition live (h : nat) (e : Engine) : bool :=
  existsb (fun t => Nat.eqb (fst t) h) (timers e).

Definition step (a : Action) (e : Engine) : outcome Engine :=
  match a with
  | CallInit cbScore cbOver => init cbScore cbOver e
  | CallReset => reset e
  | CallStart => start e
  | CallTogglePause => Done (togglePause e)
  | CallDestroy => Done (destroy e)
  | KeyDown code => if listening e then handleKeyDown code e else Done e
  | TimerFires h => if live h e then update e else Done e
  end.

Fixpoint run (acts : list Action) (e : Engine) : outcome Engine :=
  match acts with
  | [] => Done e
  | a :: rest => let* e' := step a e in run rest e'
  end.

(** The states an engine goes through once [init] has returned. *)
Inductive reachable : Engine -> Prop :=
| reachable_init rs cbScore cbOver e :
    init cbScore cbOver (loaded rs) = Done e -> reachable e
| reachable_step a e e' :
    reachable e -> step a e = Done e' -> reachable e'.

(** Key presses handed to [handleKeyDown] one after the other. *)
Fixpoint pressKeys (codes : list string) (e : Engine) : outcome Engine :=
  match codes with
  | [] => Done e
  | code :: rest => let* e' := handleKeyDown code e in pressKeys rest e'
  end.

(** The head [update] would try next: the head plus the delta of the
    direction it commits. *)
Definition candidate (e : Engine) : option Segment :=
  match snake e with
  | [] => None
  | head :: _ => Some {| x := x head + dx (nextDirection e);
                         y := y head + dy (nextDirection e) |}
  end.

Definition inBounds (c : Segment) : Prop :=
  0 <= x c < CONFIG.gridSize /\ 0 <= y c < CONFIG.gridSize.

(** Does the action go through [reset] in state [e]? *)
Definition performsReset (a : Action) (e : Engine) : bool :=
  match a with
  | CallInit _ _ => true
  | CallReset => true
  | CallStart =>
      bool_decide (gameState e = GAME_OVER \/ gameState e = IDLE)
  | KeyDown code =>
      listening e && String.eqb code "Space" &&
      bool_decide (gameState e = IDLE \/ gameState e = GAME_OVER)
  | _ => false
  end.

(** Would [update] eat the food in state [e]: the engine is playing and the
    candidate head is free and on the food. *)
Definition eatsFood (e : Engine) : bool :=
  bool_decide (gameState e = PLAYING) &&
  match candidate e, food e with
  | Some c, Some f =>
      negb (checkCollision c e) && bool_decide (c = f)
  | _, _ => false
  end.

Definition eatingTick (a : Action) (e : Engine) : bool :=
  match a with
  | TimerFires h => live h e && eatsFood e
  | _ => false
  end.

(** The number of food-eating ticks since the last reset, along a run that
    starts in [e] with [n] of them counted so far. *)
Fixpoint eatenSinceReset (acts : list Action) (e : Engine) (n : nat) : nat :=
  match acts with
  | [] => n
  | a :: rest =>
      let n' := if performsReset a e then 0%nat
                else if eatingTick a e then S n else n in
      match step a e with
      | Done e' => eatenSinceReset rest e' n'
      | _ => n'
      end
  end.

(** A run that stays within one game: none of its actions goes through
    [reset]. *)
Fixpoint sameGame (acts : list Action) (e : Engine) : bool :=
  match acts with
  | [] => true
  | a :: rest =>
      negb (performsReset a e) &&
      match step a e with
      | Done e' => sameGame rest e'
      | _ => true
      end
  end.

(** A sample of [Math.random()]: a double in [0, 1). *)
Definition unitSample (r : Q) : Prop :=
  Double.isDouble r = true /\ (0 <= r)%Q /\ (r < 1)%Q.

(** A sample that [randomCoord] sends to the coordinate [c] of the grid:
    the least multiple of 1/64 from [c] / 20 on. *)
Definition sampleFor (c : Z) : Q := (16 * c + 4) / 5 # 64.

(** What [render] leaves when the context is there. *)
Definition painted (e : Engine) : Engine := emit Rendered e.

(** What [endGame] leaves when the context is there. *)
Definition ended (e : Engine) : Engine :=
  let e := with_gameState GAME_OVER e in
  let e := clearInterval (gameLoop e) e in
  let e := with_gameLoop None e in
  let e := if onGameOver e then emit (GameEnded (score e)) e else e in
  painted e.

(** [update] begins by committing the pending direction. *)
Definition commit (e : Engine) : Engine := with_direction (nextDirection e) e.

(** The state an eating tick hands to [spawnFood]: score, callback,
    speed-up with the timer re-created. *)
Definition fed (c : Segment) (e : Engine) : Engine :=
  let e := with_snake (c :: snake e) (commit e) in
  let e := with_score (score e + 10) e in
  let e := if onScoreUpdate e then emit (ScoreUpdated (score e)) e else e in
  if speed e >? CONFIG.minSpeed then
    let e := with_speed (speed e - CONFIG.speedIncrement) e in
    let e := clearInterval (gameLoop e) e in
    setInterval (speed e) e
  else e.

(** The one interval the engine keeps: the handle in [gameLoop], ticking
    at the current speed. *)
Definition ownTimer (e : Engine) : list (nat * Z) :=
  match gameLoop e with
  | Some h => [(h, speed e)]
  | None => []
  end.

(** What holds of every state after [init]. *)
Record Inv (e : Engine) : Prop := {
  inv_timers : timers e = ownTimer e;
  inv_loop : gameLoop e <> None -> gameState e = PLAYING;
  inv_snake : snake e <> [];
  inv_food : food e <> None;
  inv_dir : nextDirection e <> opposite (direction e);
  inv_speed : CONFIG.minSpeed <= speed e <= CONFIG.initialSpeed;
  inv_even : Z.even (speed e) = true
}.

(** The state [start] and the space bar lead to out of [IDLE] and
    [GAME_OVER], when [spawnFood] has put the food on [f] and left the
    samples [rs']: a fresh board, playing, on a new timer. *)
Definition started (e : Engine) (f : Segment) (rs' : list Q) : Engine :=
  {| ctx := ctx e; snake := initialSnake; food := Some f; direction := RIGHT;
     nextDirection := RIGHT; score := 0; gameState := PLAYING;
     gameLoop := Some (nextTimer e); speed := 150;
     onScoreUpdate := onScoreUpdate e; onGameOver := onGameOver e;
     timers := (nextTimer e, 150) ::
               match gameLoop e with
               | Some h => filter (fun t => fst t <> h) (timers e)
               | None => timers e
               end;
     nextTimer := S (nextTimer e); listening := listening e;
     entropy := rs'; log := Rendered :: log e |}.

(** A board as [init] leaves it, with two samples to come. *)
Definition idleBoard : Engine :=
  {| ctx := true; snake := initialSnake; food := Some {| x := 5; y := 5 |};
     direction := RIGHT; nextDirection := RIGHT; score := 0;
     gameState := IDLE; gameLoop := None; speed := 150;
     onScoreUpdate := true; onGameOver := true; timers := [];
     nextTimer := 1; listening := true; entropy := [1 # 2; 3 # 4];
     log := [Rendered] |}.

(** [idleBoard] after [start]: the food re-drawn, the game on timer 1. *)
Definition playingBoard : Engine :=
  started idleBoard {| x := 10; y := 15 |} [].

(** The head on the rightmost column, heading right. *)
Definition wallBoard : Engine :=
  {| ctx := true;
     snake := [ {| x := 19; y := 10 |}; {| x := 18; y := 10 |};
                {| x := 17; y := 10 |} ];
     food := Some {| x := 3; y := 3 |};
     direction := RIGHT; nextDirection := RIGHT; score := 20;
     gameState := PLAYING; gameLoop := Some 1%nat; speed := 146;
     onScoreUpdate := true; onGameOver := true; timers := [(1%nat, 146)];
     nextTimer := 2; listening := true; entropy := []; log := [] |}.

(** The food right ahead of the head; the first pair of samples to come
    names the cell the head moves to, the second a free one. *)
Definition foodAhead : Engine :=
  {| ctx := true;
     snake := [ {| x := 5; y := 5 |}; {| x := 4; y := 5 |};
                {| x := 3; y := 5 |} ];
     food := Some {| x := 6; y := 5 |};
     direction := RIGHT; nextDirection := RIGHT; score := 0;
     gameState := PLAYING; gameLoop := Some 1%nat; speed := 150;
     onScoreUpdate := true; onGameOver := true; timers := [(1%nat, 150)];
     nextTimer := 2; listening := true;
     entropy := [5 # 16; 1 # 4; 1 # 2; 1 # 8]; log := [] |}.

(** [foodAhead] one tick later: the food eaten, the next one drawn on the
    second round of samples. *)
Definition fedBoard : Engine :=
  {| ctx := true;
     snake := [ {| x := 6; y := 5 |}; {| x := 5; y := 5 |};
                {| x := 4; y := 5 |}; {| x := 3; y := 5 |} ];
     food := Some {| x := 10; y := 2 |};
     direction := RIGHT; nextDirection := RIGHT; score := 10;
     gameState := PLAYING; gameLoop := Some 2%nat; speed := 148;
     onScoreUpdate := true; onGameOver := true; timers := [(2%nat, 148)];
     nextTimer := 3; listening := true; entropy := [];
     log := [Rendered; ScoreUpdated 10] |}.

(** The samples of a short game: the food of [init], the food of [start]
    right ahead of the head, the food after it is eaten. *)
Definition shortGameSamples : list Q :=
  [1 # 4; 1 # 4; 9 # 16; 1 # 2; 1 # 2; 1 # 8].

Definition shortGame : list Action := [CallStart; TimerFires 1].

(** The short game after its [start]: the food right ahead of the head,
    and the samples of the next food to come. *)
Definition aheadBoard : Engine :=
  started (with_entropy [9 # 16; 1 # 2; 1 # 2; 1 # 8] idleBoard)
    {| x := 11; y := 10 |} [1 # 2; 1 # 8].

End Runs.

(** *** The board of a running engine *)

Module Board.
Import SnakeGame Runs.

(** Two cells side by side, in a row or in a column. *)
Definition adjacent (a b : Segment) : Prop :=
  Z.abs (x a - x b) + Z.abs (y a - y b) = 1.

(** Every segment lies next to the one after it. *)
Fixpoint connected (body : list Segment) : Prop :=
  match body with
  | [] => True
  | a :: rest =>
      match rest with
      | [] => True
      | b :: _ => adjacent a b
      end /\ connected rest
  end.

(** The second segment is the cell the head came from along the committed
    direction. *)
Definition neckBehind (e : Engine) : Prop :=
  exists head neck rest,
    snake e = head :: neck :: rest /\
    x neck = x head - dx (direction e) /\
    y neck = y head - dy (direction e).

Record Shape (e : Engine) : Prop := {
  shape_bounds : Forall inBounds (snake e);
  shape_nodup : NoDup (snake e);
  shape_connected : connected (snake e);
  shape_food : forall f, food e = Some f -> ~ In f (snake e);
  shape_score : 0 <= score e;
  shape_length : Z.of_nat (length (snake e)) * 10 = 30 + score e;
  shape_speed : speed e = Z.max 50 (150 - score e / 5);
  shape_neck : gameState e <> GAME_OVER -> neckBehind e
}.

(** While the listener is attached, a playing engine holds its timer. *)
Definition ticking (e : Engine) : Prop :=
  listening e = true -> gameState e = PLAYING -> gameLoop e <> None.

(** The samples to come are in [0, 1) and the food is on the grid. *)
Definition sampled (e : Engine) : Prop :=
  Forall unitSample (entropy e) /\
  forall f, food e = Some f -> inBounds f.

(** The direction a key stands for, by the [switch] of [handleKeyDown]. *)
Definition keyDirection (code : string) : option Direction :=
  if String.eqb code "ArrowUp" || String.eqb code "KeyW" then Some UP
  else if String.eqb code "ArrowDown" || String.eqb code "KeyS" then Some DOWN
  else if String.eqb code "ArrowLeft" || String.eqb code "KeyA" then Some LEFT
  else if String.eqb code "ArrowRight" || String.eqb code "KeyD" then Some RIGHT
  else None.

(** The direction a key makes pending when [committed] is the committed
    one: its own, unless that is the reverse. *)
Definition accepted (committed : Direction) (code : string)
  : option Direction :=
  match keyDirection code with
  | Some d => if decide (d = opposite committed) then None else Some d
  | None => None
  end.

(** The pending direction after a row of keys: that of the last key taken. *)
Fixpoint pendingAfter (committed pending : Direction) (codes : list string)
  : Direction :=
  match codes with
  | [] => pending
  | code :: rest =>
      pendingAfter committed
        (match accepted committed code with
         | Some d => d
         | None => pending
         end) rest
  end.

(** The number of keys taken. *)
Fixpoint takenKeys (committed : Direction) (codes : list string) : nat :=
  match codes with
  | [] => 0%nat
  | code :: rest =>
      (match accepted committed code with
       | Some _ => 1%nat
       | None => 0%nat
       end + takenKeys committed rest)%nat
  end.

(** All the cells of the grid, column by column. *)
Definition cells : list Segment :=
  flat_map (fun cx => map (fun cy => {| x := Z.of_nat cx; y := Z.of_nat cy |})
                        (seq 0 (Z.to_nat CONFIG.gridSize)))
           (seq 0 (Z.to_nat CONFIG.gridSize)).

End Board.

(** ** js/storage.js

    A string is modelled by its code units when they are all below 256
    ([charCodeAt] is the code of the character); the messages of js/auth.js
    are kept as the bytes of the source file. *)

Module Storage.

Record User : Type := {
  password : string;
  createdAt : string;
  lastLogin : string;
  highScore : Z;
  gamesPlayed : Z;
  totalScore : Z
}.

(** The object under [STORAGE_KEY]: [users] by its own properties. *)
Record Data : Type := {
  users : gmap string User;
  currentUser : option string
}.

(** The member [currentUser] of a parsed value: missing, so that reading
    it gives [undefined], or [null], or a string. *)
Inductive Member : Type :=
| Missing
| Null
| Text (s : string).

#[global] Instance Member_eq_dec : EqDecision Member.
Proof. solve_decision. Defined.

(** A JSON text that is not the serialisation of a [Data], by the value
    [JSON.parse] makes of it: [null]; a boolean, a number, a string or an
    array, which have no member to read and do not keep, or do not
    serialise, a member written to them; or an object without a [users]
    member, with its member [currentUser] when that is a string or [null].
    An object with a [users] member that is not an object of records as
    [createUser] makes them, or with a [currentUser] member that is
    missing or is neither a string nor [null], is not modelled. *)
Inductive Foreign : Type :=
| JsonNull
| JsonBare
| JsonObject (cu : Member).

(** What [localStorage.getItem(STORAGE_KEY)] holds: nothing (or the empty
    text), a text [JSON.parse] rejects, the serialisation of a [Data],
    which is what [saveData] writes from the default on, or another JSON
    text. *)
Inductive Item : Type :=
| Absent
| Unparseable
| Stored (d : Data)
| Strange (f : Foreign).

(** The host: the item, and what [new Date().toISOString()] returns. The
    storage takes every write. *)
Record Host : Type := {
  item : Item;
  now : string
}.

(** The value [JSON.parse] returns. *)
Inductive Parsed : Type :=
| Shaped (d : Data)
| Unshaped (f : Foreign).

Definition JSON_parse (i : Item) : outcome Parsed :=
  match i with
  | Stored d => Done (Shaped d)
  | Strange f => Done (Unshaped f)
  | _ => Throws
  end.

Definition JSON_stringify (data : Parsed) : Item :=
  match data with
  | Shaped d => Stored d
  | Unshaped f => Strange f
  end.

Definition getDefaultData : Data := {| users := ∅; currentUser := None |}.

(** [getData]: the [try]/[catch] turns a parse error into the default;
    whatever [JSON.parse] returns is returned as it is. *)
Definition getData (h : Host) : outcome Parsed :=
  match item h with
  | Absent => Done (Shaped getDefaultData)
  | i =>
      match JSON_parse i with
      | Done data => Done data
      | _ => Done (Shaped getDefaultData)
      end
  end.

Definition saveData (data : Parsed) (h : Host) : outcome Host :=
  Done {| item := JSON_stringify data; now := now h |}.

(** [x | 0] on an integer: the signed 32-bit value. *)
Definition ToInt32 (z : Z) : Z := (z + 2 ^ 31) mod 2 ^ 32 - 2 ^ 31.

Definition charCode (c : ascii) : Z := Z.of_nat (nat_of_ascii c).

(** [Number.prototype.toString(16)] on an integer. *)
Definition toString16 (z : Z) : string :=
  match z with
  | Z0 => "0"
  | Zpos p => HexString.Raw.of_pos p ""
  | Zneg p => String "-" (HexString.Raw.of_pos p "")
  end.

Fixpoint hashLoop (str : string) (hash : Z) : Z :=
  match str with
  | EmptyString => hash
  | String c rest =>
      let hash := (ToInt32 (Z.shiftl (ToInt32 hash) 5) - hash) + charCode c in
      let hash := Z.land (ToInt32 hash) (ToInt32 hash) in
      hashLoop rest hash
  end.

Definition simpleHash (str : string) : string := toString16 (hashLoop str 0).

(** The properties every object inherits from [Object.prototype] in a
    browser; each holds a function or an object, so each is truthy. *)
Definition Object_prototype : list string :=
  [ "constructor"; "hasOwnProperty"; "isPrototypeOf"; "propertyIsEnumerable";
    "toLocaleString"; "toString"; "valueOf"; "__proto__";
    "__defineGetter__"; "__defineSetter__"; "__lookupGetter__";
    "__lookupSetter__" ].

(** The value of [data.users[username]]: a user record of the object's
    own, a value found on the prototype, or [undefined]. *)
Inductive Property : Type :=
| Own (u : User)
| Inherited
| Undefined.

Definition getProperty (o : gmap string User) (k : string) : Property :=
  match o !! k with
  | Some u => Own u
  | None => if bool_decide (k ∈ Object_prototype) then Inherited else Undefined
  end.

(** [data.users[username] = user]: an own property, except that without an
    own ["__proto__"] the assignment goes to the prototype's setter and
    leaves the own properties as they are. *)
Definition setProperty (o : gmap string User) (k : string) (u : User)
  : gmap string User :=
  match o !! k with
  | None => if String.eqb k "__proto__" then o else <[k := u]> o
  | Some _ => <[k := u]> o
  end.

(** [data.users]: reading a member of [null] raises; a value without the
    member gives [undefined]. *)
Definition usersOf (data : Parsed) : outcome (option (gmap string User)) :=
  match data with
  | Shaped d => Done (Some (users d))
  | Unshaped JsonNull => Throws
  | Unshaped _ => Done None
  end.

(** [data.users[username]]: reading a property of [undefined] raises. *)
Definition usersAt (data : Parsed) (username : string) : outcome Property :=
  let* o := usersOf data in
  match o with
  | Some o => Done (getProperty o username)
  | None => Throws
  end.

(** [getUser]: [data.users[username] || null]; [Undefined] stands for the
    [null]. *)
Definition getUser (username : string) (h : Host) : outcome Property :=
  let* data := getData h in
  usersAt data username.

(** [createUser]; [data.users[username] = user] raises when [data.users]
    cannot be read or is [undefined]. *)
Definition createUser (username pass : string) (h : Host)
  : outcome (User * Host) :=
  let* data := getData h in
  let user := {| password := simpleHash pass; createdAt := now h;
                 lastLogin := now h; highScore := 0; gamesPlayed := 0;
                 totalScore := 0 |} in
  let* o := usersOf data in
  match data, o with
  | Shaped d, Some o =>
      let data := Shaped {| users := setProperty o username user;
                            currentUser := currentUser d |} in
      let* h := saveData data h in
      Done (user, h)
  | _, _ => Throws
  end.

(** [verifyPassword]: on an inherited value [user.password] is
    [undefined], which no hash string equals. *)
Definition verifyPassword (username pass : string) (h : Host) : outcome bool :=
  let* user := getUser username h in
  match user with
  | Undefined => Done false
  | Inherited => Done false
  | Own u => Done (String.eqb (password u) (simpleHash pass))
  end.

Definition updateLoginTime (username : string) (h : Host) : outcome Host :=
  let* data := getData h in
  let* found := usersAt data username in
  match data, found with
  | Shaped d, Own u =>
      let u := {| password := password u; createdAt := createdAt u;
                  lastLogin := now h; highScore := highScore u;
                  gamesPlayed := gamesPlayed u; totalScore := totalScore u |} in
      saveData (Shaped {| users := <[username := u]> (users d);
                          currentUser := currentUser d |}) h
  | _, Inherited => saveData data h
  | _, _ => Done h
  end.

(** The value of [username] as a member: [null] or the string. *)
Definition member (username : option string) : Member :=
  match username with
  | Some name => Text name
  | None => Null
  end.

(** [setCurrentUser]; [data.currentUser = username] raises on [null], is
    lost on a value that is no object (the code is not in strict mode) and
    on an array, whose members of that kind are not serialised. *)
Definition setCurrentUser (username : option string) (h : Host)
  : outcome Host :=
  let* data := getData h in
  match data with
  | Shaped d =>
      saveData (Shaped {| users := users d; currentUser := username |}) h
  | Unshaped JsonNull => Throws
  | Unshaped JsonBare => saveData data h
  | Unshaped (JsonObject _) =>
      saveData (Unshaped (JsonObject (member username))) h
  end.

(** [getCurrentUser]: [data.currentUser], which raises on [null] and is
    [undefined] where the member is missing. *)
Definition getCurrentUser (h : Host) : outcome Member :=
  let* data := getData h in
  match data with
  | Shaped d => Done (member (currentUser d))
  | Unshaped JsonNull => Throws
  | Unshaped JsonBare => Done Missing
  | Unshaped (JsonObject cu) => Done cu
  end.

(** [updateGameStats]: the counters are changed on the record found; on a
    value inherited from the prototype they land on that value, and the
    data is saved as it was. Scores and counters are doubles that are
    integers, and [+=] adds them as doubles. *)
Definition updateGameStats (username : string) (sc : Z) (h : Host)
  : outcome Host :=
  let* data := getData h in
  let* found := usersAt data username in
  match data, found with
  | Shaped d, Own user =>
      let user :=
        {| password := password user; createdAt := createdAt user;
           lastLogin := lastLogin user;
           highScore := if sc >? highScore user then sc else highScore user;
           gamesPlayed := Double.add (gamesPlayed user) 1;
           totalScore := Double.add (totalScore user) sc |} in
      saveData (Shaped {| users := <[username := user]> (users d);
                          currentUser := currentUser d |}) h
  | _, Inherited => saveData data h
  | _, _ => Done h
  end.

(** The object [getUserStats] returns; a field is [None] where reading it
    gives [undefined]. *)
Module Stats.
Record t : Type := {
  highScore : option Z;
  gamesPlayed : option Z;
  totalScore : option Z;
  lastLogin : option string
}.
End Stats.

Definition getUserStats (username : string) (h : Host) : outcome Stats.t :=
  let* user := getUser username h in
  match user with
  | Undefined =>
      Done {| Stats.highScore := Some 0; Stats.gamesPlayed := Some 0;
              Stats.totalScore := Some 0; Stats.lastLogin := None |}
  | Own u =>
      Done {| Stats.highScore := Some (highScore u);
              Stats.gamesPlayed := Some (gamesPlayed u);
              Stats.totalScore := Some (totalScore u);
              Stats.lastLogin := Some (lastLogin u) |}
  | Inherited =>
      Done {| Stats.highScore := None; Stats.gamesPlayed := None;
              Stats.totalScore := None; Stats.lastLogin := None |}
  end.

(** The polynomial of base 31 in the character codes of [str], from [h]
    on, over the integers. *)
Fixpoint horner (str : string) (h : Z) : Z :=
  match str with
  | EmptyString => h
  | String c rest => horner rest (31 * h + charCode c)
  end.

(** Game after game: [updateGameStats] for each score of the list. *)
Fixpoint playGames (username : string) (scores : list Z) (h : Host)
  : outcome Host :=
  match scores with
  | [] => Done h
  | sc :: rest =>
      let* h := updateGameStats username sc h in playGames username rest h
  end.

End Storage.

(** ** js/auth.js *)

Module Auth.
Import Storage.

(** [{ success, message, isNewUser }]; the failures have no [isNewUser]. *)
Record Result : Type := {
  success : bool;
  message : string;
  isNewUser : option bool
}.

(** The white space and line terminators [String.prototype.trim] strips,
    among the code units below 256. *)
Definition isWhiteSpace (c : ascii) : bool :=
  let n := nat_of_ascii c in
  Nat.eqb n 9 || Nat.eqb n 10 || Nat.eqb n 11 || Nat.eqb n 12 ||
  Nat.eqb n 13 || Nat.eqb n 32 || Nat.eqb n 160.

Fixpoint trimStart (s : string) : string :=
  match s with
  | EmptyString => EmptyString
  | String c rest => if isWhiteSpace c then trimStart rest else s
  end.

Fixpoint trimEnd (s : string) : string :=
  match s with
  | EmptyString => EmptyString
  | String c rest =>
      match trimEnd rest with
      | EmptyString => if isWhiteSpace c then EmptyString
                       else String c EmptyString
      | kept => String c kept
      end
  end.

Definition trim (s : string) : string := trimEnd (trimStart s).

Definition msgNoUsername : string := "请输入用户名".
Definition msgShortPassword : string := "密码至少需要3个字符".
Definition msgLoggedIn : string := "登录成功".
Definition msgWrongPassword : string := "密码错误".
Definition msgRegistered : string := "注册成功，欢迎新玩家！".

Definition login (username pass : string) (h : Host) : outcome (Result * Host) :=
  if String.eqb username "" || (String.length (trim username) =? 0)%nat then
    Done ({| success := false; message := msgNoUsername;
             isNewUser := None |}, h)
  else if String.eqb pass "" || (String.length pass <? 3)%nat then
    Done ({| success := false; message := msgShortPassword;
             isNewUser := None |}, h)
  else
    let trimmedUsername := trim username in
    let* existingUser := getUser trimmedUsername h in
    match existingUser with
    | Undefined =>
        let* r := createUser trimmedUsername pass h in
        let* h := setCurrentUser (Some trimmedUsername) (snd r) in
        Done ({| success := true; message := msgRegistered;
                 isNewUser := Some true |}, h)
    | _ =>
        let* ok := verifyPassword trimmedUsername pass h in
        if ok then
          let* h := updateLoginTime trimmedUsername h in
          let* h := setCurrentUser (Some trimmedUsername) h in
          Done ({| success := true; message := msgLoggedIn;
                   isNewUser := Some false |}, h)
        else
          Done ({| success := false; message := msgWrongPassword;
                   isNewUser := None |}, h)
    end.

(** *** What the calls leave in the store *)

(** The data [getData] reads from the host. *)
Definition stored (h : Host) : Data :=
  match item h with
  | Stored d => d
  | _ => getDefaultData
  end.

(** The host once [saveData] has written [d]. *)
Definition saved (d : Data) (h : Host) : Host :=
  {| item := Stored d; now := now h |}.

(** The items [getData] turns into a [Data]: nothing stored, a text that
    is not JSON, or what [saveData] wrote. *)
Definition readable (h : Host) : Prop :=
  match item h with
  | Strange _ => False
  | _ => True
  end.

(** A host whose item is the JSON text of [f]. *)
Definition strangeHost (f : Foreign) : Host :=
  {| item := Strange f; now := "2024-05-03T09:00:00.000Z" |}.

(** The record [createUser] makes. *)
Definition newUser (pass : string) (h : Host) : User :=
  {| password := simpleHash pass; createdAt := now h; lastLogin := now h;
     highScore := 0; gamesPlayed := 0; totalScore := 0 |}.

(** The record after [updateLoginTime]. *)
Definition touched (u : User) (h : Host) : User :=
  {| password := password u; createdAt := createdAt u; lastLogin := now h;
     highScore := highScore u; gamesPlayed := gamesPlayed u;
     totalScore := totalScore u |}.

Definition failure (m : string) : Result :=
  {| success := false; message := m; isNewUser := None |}.

Definition registered : Result :=
  {| success := true; message := msgRegistered; isNewUser := Some true |}.

Definition loggedIn : Result :=
  {| success := true; message := msgLoggedIn; isNewUser := Some false |}.

(** A browser with nothing stored yet. *)
Definition emptyHost : Host :=
  {| item := Absent; now := "2024-05-01T10:00:00.000Z" |}.

(** The host after ["alice"] has registered with the secret [pass]. *)
Definition aliceHost (pass : string) : Host :=
  saved {| users := {[ "alice" := newUser pass emptyHost ]};
           currentUser := Some "alice" |} emptyHost.

(** A host whose item is not JSON. *)
Definition brokenHost : Host :=
  {| item := Unparseable; now := "2024-05-02T08:00:00.000Z" |}.

(** *** The session *)


Definition isLoggedIn (h : Host) : outcome bool :=
  let* user := getCurrentUser h in
  Done (bool_decide (user <> Null)).

Definition getCurrentUsername (h : Host) : outcome Member :=
  getCurrentUser h.

Definition guestStats : Stats.t :=
  {| Stats.highScore := Some 0; Stats.gamesPlayed := Some 0;
     Stats.totalScore := Some 0; Stats.lastLogin := None |}.

(** [getCurrentUserStats]: [null] without a user name ([!username] holds
    of [undefined], of [null] and of the empty string). *)
Definition getCurrentUserStats (h : Host) : outcome (option Stats.t) :=
  let* username := getCurrentUser h in
  match username with
  | Missing => Done None
  | Null => Done None
  | Text name =>
      if String.eqb name "" then Done None
      else if String.eqb name "__guest__" then Done (Some guestStats)
      else let* stats := getUserStats name h in Done (Some stats)
  end.

(** [{ success, message, isGuest }] *)
Module Guest.
Record Result : Type := {
  success : bool;
  message : string;
  isGuest : bool
}.
End Guest.


Definition isGuest (h : Host) : outcome bool :=
  let* user := getCurrentUser h in
  Done (bool_decide (user = Text "__guest__")).

End Auth.

(** ** js/app.js: what the page does with the engine and the store *)

Module App.
Import Storage Auth.

(** The text of the elements the handlers write and whether the overlay
    carries the class [hidden]. *)
Record Page : Type := {
  currentScoreText : string;
  highScoreText : string;
  gamesPlayedText : string;
  overlayTitle : string;
  overlayMessage : string;
  overlayHidden : bool
}.

(** [String(n)] on a double that is an integer below 10^21 in size, where
    JavaScript prints all the digits. *)
Definition toDecimal (n : Z) : string :=
  DecimalString.NilZero.string_of_int (Z.to_int n).

(** [String(v)] on a number or [undefined]. *)
Definition String_ (v : option Z) : string :=
  match v with
  | Some n => toDecimal n
  | None => "undefined"
  end.

(** [textContent = v]: a number is written as [String(v)], [undefined]
    as the empty text. *)
Definition textOf (v : option Z) : string :=
  match v with
  | Some n => toDecimal n
  | None => ""
  end.

(** [s.padStart(3, '0')] *)
Definition padStart3 (s : string) : string :=
  String.append (string_of_list_ascii
                   (repeat "0"%char (3 - String.length s))) s.

Definition showOverlay (title message : string) (p : Page) : Page :=
  {| currentScoreText := currentScoreText p;
     highScoreText := highScoreText p; gamesPlayedText := gamesPlayedText p;
     overlayTitle := title; overlayMessage := message;
     overlayHidden := false |}.

Definition hideOverlay (p : Page) : Page :=
  {| currentScoreText := currentScoreText p;
     highScoreText := highScoreText p; gamesPlayedText := gamesPlayedText p;
     overlayTitle := overlayTitle p; overlayMessage := overlayMessage p;
     overlayHidden := true |}.

Definition updateStats (h : Host) (p : Page) : outcome Page :=
  let* stats := getCurrentUserStats h in
  match stats with
  | Some st =>
      Done {| currentScoreText := currentScoreText p;
              highScoreText := padStart3 (String_ (Stats.highScore st));
              gamesPlayedText := textOf (Stats.gamesPlayed st);
              overlayTitle := overlayTitle p;
              overlayMessage := overlayMessage p;
              overlayHidden := overlayHidden p |}
  | None => Done p
  end.

Definition handleScoreUpdate (sc : Z) (p : Page) : Page :=
  {| currentScoreText := padStart3 (toDecimal sc);
     highScoreText := highScoreText p; gamesPlayedText := gamesPlayedText p;
     overlayTitle := overlayTitle p; overlayMessage := overlayMessage p;
     overlayHidden := overlayHidden p |}.

(** The property name [data.users[username]] reads when [username] is
    [null] or [undefined]. *)
Definition propertyKey (username : Member) : string :=
  match username with
  | Text name => name
  | Null => "null"
  | Missing => "undefined"
  end.

Definition titleRecord : string := "🎉 新纪录！".
Definition titleOver : string := "游戏结束".

Definition scoreLine (finalScore : Z) : string :=
  String.append "得分: "
    (String.append (toDecimal finalScore) " | 按空格键重新开始").

(** [handleGameOver]; reading [stats.highScore] of [null] raises. *)
Definition handleGameOver (finalScore : Z) (h : Host) (p : Page)
  : outcome (Host * Page) :=
  let* guest := isGuest h in
  let* hp := (if negb guest then
                let* username := getCurrentUsername h in
                let* h := updateGameStats (propertyKey username)
                            finalScore h in
                let* p := updateStats h p in
                Done (h, p)
              else Done (h, p)) in
  let* stats := getCurrentUserStats (fst hp) in
  match stats with
  | None => Throws
  | Some st =>
      let isNewHighScore :=
        match Stats.highScore st with
        | Some v => finalScore =? v
        | None => false
        end && (finalScore >? 0) in
      if isNewHighScore
      then Done (fst hp, showOverlay titleRecord (scoreLine finalScore)
                           (snd hp))
      else Done (fst hp, showOverlay titleOver (scoreLine finalScore)
                           (snd hp))
  end.

(** [handleRestart] *)
Definition handleRestart (e : SnakeGame.Engine) (p : Page)
  : outcome (SnakeGame.Engine * Page) :=
  let* e := SnakeGame.reset e in
  let* e := SnakeGame.start e in
  Done (e, hideOverlay p).

(** A page as the game screen shows it at first. *)
Definition firstPage : Page :=
  {| currentScoreText := "000"; highScoreText := "000";
     gamesPlayedText := "0"; overlayTitle := "准备开始";
     overlayMessage := "按空格键开始游戏"; overlayHidden := false |}.

End App.

(** ** Properties of the rounding *)

Module DoubleFacts.
Import Double.

Lemma pow2_pos (k : Z) : (0 < pow2 k)%Q.
Proof. apply Qpower_0_lt. reflexivity. Qed.

Lemma pow2_Z (k : Z) : 0 <= k -> (pow2 k == inject_Z (2 ^ k))%Q.
Proof. intros Hk. unfold pow2. now rewrite Zpower_Qpower. Qed.

Lemma pow2_lt_inv (a b : Z) : (pow2 a < pow2 b)%Q -> a < b.
Proof. intros H. now apply (Qpower_lt_compat_l_inv 2). Qed.

Lemma pow2_le (a b : Z) : a <= b -> (pow2 a <= pow2 b)%Q.
Proof. intros H. apply Qpower_le_compat_l; [exact H|discriminate]. Qed.

Lemma pow2_add (a b : Z) : (pow2 (a + b) == pow2 a * pow2 b)%Q.
Proof. apply Qpower_plus. discriminate. Qed.

Lemma pow2_sub (a b : Z) : (pow2 (a - b) == pow2 a / pow2 b)%Q.
Proof. apply Qpower_minus. discriminate. Qed.

Lemma pow2_cancel (e : Z) : (pow2 (- e) * pow2 e == 1)%Q.
Proof. rewrite <- pow2_add. now replace (- e + e) with 0 by lia. Qed.

Lemma div_pow2 (q : Q) (e : Z) : (q / pow2 e == q * pow2 (- e))%Q.
Proof.
  unfold Qdiv. apply Qmult_comp; [reflexivity|].
  unfold pow2. now rewrite Qpower_opp.
Qed.

Lemma binade_spec (q : Q) :
  (0 < q)%Q -> (pow2 (binade q) <= q)%Q /\ (q < pow2 (binade q + 1))%Q.
Proof.
  intros Hq. destruct q as [n d].
  assert (Hn : 0 < n) by (unfold Qlt in Hq; simpl in Hq; lia).
  pose proof (Z.log2_spec n Hn) as [Hn1 Hn2].
  pose proof (Z.log2_spec (Z.pos d) ltac:(lia)) as [Hd1 Hd2].
  pose proof (Z.log2_nonneg n) as Ha.
  pose proof (Z.log2_nonneg (Z.pos d)) as Hc.
  set (a := Z.log2 n) in *. set (c := Z.log2 (Z.pos d)) in *.
  assert (Hup : (n # d < pow2 (a - c + 1))%Q).
  { replace (a - c + 1) with ((a + 1) - c) by lia.
    rewrite pow2_sub, (pow2_Z (a + 1)), (pow2_Z c) by lia.
    apply Qlt_shift_div_l.
    - replace 0%Q with (inject_Z 0) by reflexivity. rewrite <- Zlt_Qlt. lia.
    - unfold Qlt, Qmult, inject_Z. simpl. nia. }
  assert (Hlow : (pow2 (a - c - 1) <= n # d)%Q).
  { replace (a - c - 1) with (a - (c + 1)) by lia.
    rewrite pow2_sub, (pow2_Z a), (pow2_Z (c + 1)) by lia.
    apply Qle_shift_div_r.
    - replace 0%Q with (inject_Z 0) by reflexivity. rewrite <- Zlt_Qlt. lia.
    - unfold Qle, Qmult, inject_Z. simpl. nia. }
  unfold binade. cbn [Qnum Qden]. fold a c.
  destruct (Qle_bool (pow2 (a - c)) (n # d)) eqn:Hcmp.
  - apply Qle_bool_iff in Hcmp. split; assumption.
  - split; [exact Hlow|].
    replace (a - c - 1 + 1) with (a - c) by lia.
    apply Qnot_le_lt. intros Habs. apply Qle_bool_iff in Habs. congruence.
Qed.

Lemma binade_unique (q : Q) (b : Z) :
  (pow2 b <= q)%Q -> (q < pow2 (b + 1))%Q -> binade q = b.
Proof.
  intros Hlo Hhi.
  assert (Hq : (0 < q)%Q) by (eapply Qlt_le_trans; [apply (pow2_pos b)|exact Hlo]).
  destruct (binade_spec q Hq) as [Blo Bhi].
  assert (binade q < b + 1).
  { apply pow2_lt_inv. eapply Qle_lt_trans; eassumption. }
  assert (b < binade q + 1).
  { apply pow2_lt_inv. eapply Qle_lt_trans; eassumption. }
  lia.
Qed.

(** *** Rounding to the nearest integer *)

Lemma nearestEven_cases (x : Q) :
  (nearestEven x = Qfloor x /\ (x - inject_Z (Qfloor x) <= 1 # 2)%Q) \/
  (nearestEven x = Qfloor x + 1 /\ (1 # 2 <= x - inject_Z (Qfloor x))%Q).
Proof.
  unfold nearestEven.
  destruct (Qcompare_spec (x - inject_Z (Qfloor x)) (1 # 2)) as [H|H|H].
  - destruct (Z.even (Qfloor x)); [left|right]; split; try reflexivity;
      rewrite H; apply Qle_refl.
  - left. split; [reflexivity|now apply Qlt_le_weak].
  - right. split; [reflexivity|now apply Qlt_le_weak].
Qed.

Lemma nearestEven_le (x : Q) (K : Z) :
  (x <= inject_Z K)%Q -> nearestEven x <= K.
Proof.
  intros Hx. pose proof (Qfloor_le x) as Hf.
  destruct (nearestEven_cases x) as [[-> _]|[-> Hhalf]].
  - rewrite Zle_Qle. now apply Qle_trans with x.
  - assert (Hlt : (inject_Z (Qfloor x) < inject_Z K)%Q).
    { apply Qlt_le_trans with x; [|exact Hx].
      apply Qlt_minus_iff. eapply Qlt_le_trans; [|exact Hhalf]. reflexivity. }
    rewrite <- Zlt_Qlt in Hlt. lia.
Qed.

Lemma nearestEven_below_half (x : Q) (K : Z) :
  (x < inject_Z K - (1 # 2))%Q -> nearestEven x <= K - 1.
Proof.
  intros Hx. pose proof (Qfloor_le x) as Hf.
  assert (Hk : (inject_Z (Qfloor x) < inject_Z K)%Q) by lra.
  rewrite <- Zlt_Qlt in Hk.
  destruct (nearestEven_cases x) as [[-> _]|[-> Hhalf]]; [lia|].
  assert (Hlt : (inject_Z (Qfloor x + 1) < inject_Z K)%Q).
  { rewrite inject_Z_plus. change (inject_Z 1) with 1%Q. lra. }
  rewrite <- Zlt_Qlt in Hlt. lia.
Qed.

Lemma nearestEven_nonneg (x : Q) : (0 <= x)%Q -> 0 <= nearestEven x.
Proof.
  intros Hx. assert (0 <= Qfloor x).
  { change 0 with (Qfloor 0). now apply Qfloor_resp_le. }
  destruct (nearestEven_cases x) as [[-> _]|[-> _]]; lia.
Qed.

Lemma nearestEven_integer (x : Q) (n : Z) :
  (x == inject_Z n)%Q -> nearestEven x = n.
Proof.
  intros Hx. assert (Hf : Qfloor x = n) by (rewrite Hx; apply Qfloor_Z).
  unfold nearestEven. rewrite Hf.
  assert (Hc : (x - inject_Z n ?= 1 # 2)%Q = Lt).
  { apply (proj1 (Qlt_alt _ _)). rewrite Hx. lra. }
  now rewrite Hc.
Qed.

(** *** Integers below 2^53 are doubles *)

Lemma roundPositive_integer (z : Z) :
  0 < z < 2 ^ 53 -> (roundPositive (inject_Z z) == inject_Z z)%Q.
Proof.
  intros Hz.
  assert (Hq : (0 < inject_Z z)%Q).
  { replace 0%Q with (inject_Z 0) by reflexivity. rewrite <- Zlt_Qlt. lia. }
  destruct (binade_spec _ Hq) as [Blo Bhi].
  set (b := binade (inject_Z z)) in *.
  assert (Hb0 : 0 <= b).
  { assert (0 < b + 1); [|lia]. apply pow2_lt_inv.
    eapply Qle_lt_trans; [|exact Bhi].
    change (pow2 0) with (inject_Z 1). rewrite <- Zle_Qle. lia. }
  assert (Hb1 : b < 53).
  { apply pow2_lt_inv. eapply Qle_lt_trans; [exact Blo|].
    rewrite (pow2_Z 53) by lia. rewrite <- Zlt_Qlt. lia. }
  unfold roundPositive, lastPlace. fold b.
  rewrite Z.max_l by lia.
  assert (Hx : (inject_Z z / pow2 (b - 52) == inject_Z (z * 2 ^ (52 - b)))%Q).
  { rewrite div_pow2. replace (- (b - 52)) with (52 - b) by lia.
    rewrite (pow2_Z (52 - b)) by lia. now rewrite inject_Z_mult. }
  rewrite (nearestEven_integer _ _ Hx), inject_Z_mult.
  rewrite <- (pow2_Z (52 - b)) by lia.
  rewrite <- Qmult_assoc. replace (52 - b) with (- (b - 52)) by lia.
  rewrite pow2_cancel. apply Qmult_1_r.
Qed.

Lemma round_integer (z : Z) :
  - 2 ^ 53 < z < 2 ^ 53 -> (round (inject_Z z) == inject_Z z)%Q.
Proof.
  intros Hz. unfold round.
  destruct (Qcompare_spec (inject_Z z) 0) as [H|H|H].
  - now rewrite H.
  - replace 0%Q with (inject_Z 0) in H by reflexivity.
    rewrite <- Zlt_Qlt in H.
    rewrite <- inject_Z_opp, roundPositive_integer by lia.
    rewrite inject_Z_opp. apply Qopp_involutive.
  - replace 0%Q with (inject_Z 0) in H by reflexivity.
    rewrite <- Zlt_Qlt in H. apply roundPositive_integer. lia.
Qed.

Lemma add_exact (a b : Z) : - 2 ^ 53 < a + b < 2 ^ 53 -> add a b = a + b.
Proof.
  intros H. unfold add. rewrite (round_integer _ H). apply Qfloor_Z.
Qed.

(** *** The doubles of [0, 1) *)

Lemma unit_double_bound (r : Q) :
  isDouble r = true -> (0 <= r)%Q -> (r < 1)%Q ->
  (r <= 1 - (1 # 2 ^ 53))%Q.
Proof.
  intros Hd Hlo Hhi.
  destruct (Qlt_le_dec r (1 # 2)) as [Hsmall|Hbig].
  { apply Qlt_le_weak. eapply Qlt_le_trans; [exact Hsmall|]. discriminate. }
  unfold isDouble in Hd. apply Qeq_bool_iff in Hd. unfold round in Hd.
  assert (Hpos : (0 < r)%Q) by (eapply Qlt_le_trans; [|exact Hbig]; reflexivity).
  rewrite (proj1 (Qgt_alt r 0) Hpos) in Hd.
  assert (Hb : binade r = -1).
  { apply binade_unique; [exact Hbig|exact Hhi]. }
  unfold roundPositive, lastPlace in Hd. rewrite Hb in Hd.
  change (Z.max (-1 - 52) (-1074)) with (-53) in Hd.
  set (n := nearestEven (r / pow2 (-53))) in *.
  assert (Hn : n < 2 ^ 53).
  { rewrite Zlt_Qlt.
    assert (Heq : (inject_Z n == r * pow2 53)%Q).
    { transitivity (inject_Z n * pow2 (-53) * pow2 53)%Q; [|now rewrite Hd].
      rewrite <- Qmult_assoc.
      assert (Hc : (pow2 (-53) * pow2 53 == 1)%Q) by (vm_compute; reflexivity).
      now rewrite Hc, Qmult_1_r. }
    rewrite Heq. rewrite <- (pow2_Z 53) by lia.
    rewrite <- (Qmult_1_l (pow2 53)) at 2.
    apply Qmult_lt_compat_r; [apply pow2_pos|exact Hhi]. }
  rewrite <- Hd.
  apply Qle_trans with (inject_Z (2 ^ 53 - 1) * pow2 (-53))%Q.
  - apply Qmult_le_compat_r; [|apply Qlt_le_weak, pow2_pos].
    rewrite <- Zle_Qle. lia.
  - vm_compute. discriminate.
Qed.

(** *** [Math.floor(r * 20)] on the doubles of [0, 1) *)

Lemma Qfloor_below (q : Q) (K : Z) : (q < inject_Z K)%Q -> Qfloor q < K.
Proof.
  intros H. rewrite Zlt_Qlt. eapply Qle_lt_trans; [apply Qfloor_le|exact H].
Qed.

Lemma roundPositive_nonneg (q : Q) : (0 <= q)%Q -> (0 <= roundPositive q)%Q.
Proof.
  intros Hq. unfold roundPositive. apply Qmult_le_0_compat.
  - replace 0%Q with (inject_Z 0) by reflexivity. rewrite <- Zle_Qle.
    apply nearestEven_nonneg. apply Qle_shift_div_l; [apply pow2_pos|].
    now rewrite Qmult_0_l.
  - apply Qlt_le_weak, pow2_pos.
Qed.

Lemma mul_unit_range (r : Q) :
  (0 <= r)%Q -> (r <= 1 - (1 # 2 ^ 53))%Q ->
  0 <= Qfloor (mul r 20) < 20.
Proof.
  intros Hlo Hhi. unfold mul, round.
  assert (Hq0 : (0 <= r * 20)%Q) by (apply Qmult_le_0_compat; [exact Hlo|discriminate]).
  assert (Hq1 : (r * 20 <= 20 - (20 # 2 ^ 53))%Q).
  { eapply Qle_trans; [apply Qmult_le_compat_r; [exact Hhi|discriminate]|].
    vm_compute. discriminate. }
  destruct (Qcompare_spec (r * 20) 0) as [H|H|H].
  - vm_compute. split; [discriminate|reflexivity].
  - exfalso. apply (Qlt_not_le _ _ H), Hq0.
  - split.
    + change 0 with (Qfloor 0). apply Qfloor_resp_le.
      now apply roundPositive_nonneg.
    + apply Qfloor_below.
      destruct (binade_spec _ H) as [Blo Bhi].
      set (q := (r * 20)%Q) in *. set (b := binade q) in *.
      assert (Hb : b < 5).
      { apply pow2_lt_inv. eapply Qle_lt_trans; [exact Blo|].
        eapply Qle_lt_trans; [exact Hq1|]. vm_compute. reflexivity. }
      unfold roundPositive, lastPlace. fold b.
      destruct (Z.eq_dec b 4) as [Hb4|Hb4].
      * rewrite Hb4. change (Z.max (4 - 52) (-1074)) with (-48).
        eapply Qle_lt_trans.
        { apply Qmult_le_compat_r; [|apply Qlt_le_weak, pow2_pos].
          rewrite <- Zle_Qle.
          apply (nearestEven_below_half _ (20 * 2 ^ 48)).
          rewrite div_pow2. change (- -48) with 48.
          eapply Qle_lt_trans.
          - apply Qmult_le_compat_r; [exact Hq1|apply Qlt_le_weak, pow2_pos].
          - vm_compute. reflexivity. }
        vm_compute. reflexivity.
      * assert (Hq16 : (q < pow2 4)%Q).
        { eapply Qlt_le_trans; [exact Bhi|]. apply pow2_le. lia. }
        set (e := Z.max (b - 52) (-1074)).
        assert (He : e <= -49) by (unfold e; lia).
        apply Qle_lt_trans with (inject_Z (2 ^ (4 - e)) * pow2 e)%Q.
        { apply Qmult_le_compat_r; [|apply Qlt_le_weak, pow2_pos].
          rewrite <- Zle_Qle. apply nearestEven_le.
          rewrite <- (pow2_Z (4 - e)) by lia. rewrite pow2_sub.
          apply Qlt_le_weak. apply Qmult_lt_compat_r; [|exact Hq16].
          apply Qinv_lt_0_compat, pow2_pos. }
        rewrite <- (pow2_Z (4 - e)) by lia. rewrite <- pow2_add.
        replace (4 - e + e) with 4 by lia. vm_compute. reflexivity.
Qed.

End DoubleFacts.

(** ** Properties of the engine *)

Module EngineFacts.
Import SnakeGame Runs.

(** *** Cells, samples and the food loop *)

Lemma onSnake_In (body : list Segment) (c : Segment) :
  onSnake body c = true <-> In c body.
Proof.
  unfold onSnake. rewrite existsb_exists. split.
  - intros [s [Hin Heq]]. apply andb_prop in Heq as [Hx Hy].
    apply Z.eqb_eq in Hx. apply Z.eqb_eq in Hy.
    destruct s as [sx sy], c as [cx cy]. simpl in *. now subst.
  - intros Hin. exists c. split; [assumption|].
    now rewrite !Z.eqb_refl.
Qed.

Lemma onSnake_not_In (body : list Segment) (c : Segment) :
  onSnake body c = false <-> ~ In c body.
Proof.
  rewrite <- onSnake_In. destruct (onSnake body c); split; congruence.
Qed.

Lemma randomCoord_range (r : Q) :
  unitSample r -> 0 <= randomCoord r < CONFIG.gridSize.
Proof.
  intros (Hd & Hlo & Hhi). unfold randomCoord, CONFIG.gridSize.
  apply DoubleFacts.mul_unit_range; [exact Hlo|].
  now apply DoubleFacts.unit_double_bound.
Qed.

(** A sample that lands on the coordinate [c]. *)
Lemma randomCoord_hit (c : Z) :
  0 <= c < CONFIG.gridSize ->
  unitSample (sampleFor c) /\ randomCoord (sampleFor c) = c.
Proof.
  unfold CONFIG.gridSize. intros Hc.
  assert (Hn : exists n, (n < 20)%nat /\ c = Z.of_nat n)
    by (exists (Z.to_nat c); lia).
  destruct Hn as (n & Hn & ->). clear Hc.
  do 20 (destruct n as [|n];
         [vm_compute; repeat split; first [reflexivity|discriminate]|]).
  lia.
Qed.

Lemma spawnLoop_sound (body : list Segment) (rs rs' : list Q) (f : Segment) :
  Forall unitSample rs ->
  spawnLoop body rs = Done (f, rs') ->
  inBounds f /\ ~ In f body /\ Forall unitSample rs'.
Proof.
  revert rs' f.
  induction rs as [rs IH] using (induction_ltof1 _ (@List.length Q)).
  unfold ltof in IH. intros rs' f Hall Hrun.
  destruct rs as [|rx [|ry rest]]; simpl in Hrun; try discriminate.
  inversion Hall as [|? ? Hrx Htl]; subst.
  inversion Htl as [|? ? Hry Hrest]; subst.
  destruct (onSnake body _) eqn:Hocc.
  - eapply (IH rest); [simpl; lia | assumption | exact Hrun].
  - inversion Hrun; subst. repeat split.
    + apply (randomCoord_range rx Hrx).
    + apply (randomCoord_range rx Hrx).
    + apply (randomCoord_range ry Hry).
    + apply (randomCoord_range ry Hry).
    + now apply onSnake_not_In.
    + assumption.
Qed.

(** The loop returns as soon as some round of samples names a free cell,
    and then never raises. *)
Lemma spawnLoop_returns (body : list Segment) (k : nat) :
  forall (rs : list Q) (rx ry : Q),
    rs !! (2 * k)%nat = Some rx ->
    rs !! (2 * k + 1)%nat = Some ry ->
    onSnake body {| x := randomCoord rx; y := randomCoord ry |} = false ->
    returns (spawnLoop body rs).
Proof.
  induction k as [|k IH]; intros rs rx ry Hx Hy Hfree.
  - destruct rs as [|r0 [|r1 rest]]; try discriminate.
    simpl in Hx, Hy. inversion Hx; inversion Hy; subst.
    simpl. rewrite Hfree. now eexists.
  - replace (2 * S k)%nat with (S (S (2 * k))) in Hx by lia.
    replace (2 * S k + 1)%nat with (S (S (2 * k + 1))) in Hy by lia.
    destruct rs as [|r0 [|r1 rest]]; try discriminate.
    simpl in Hx, Hy. simpl.
    destruct (onSnake body {| x := randomCoord r0; y := randomCoord r1 |});
      [|unfold returns; eauto].
    now apply (IH rest rx ry).
Qed.

Lemma spawnLoop_never_throws (body : list Segment) (rs : list Q) :
  spawnLoop body rs <> Throws.
Proof.
  induction rs as [rs IH] using (induction_ltof1 _ (@List.length Q)).
  unfold ltof in IH.
  destruct rs as [|rx [|ry rest]]; simpl; try discriminate.
  destruct (onSnake body _); [|discriminate].
  apply IH. simpl. lia.
Qed.

(** When a cell of the grid is free, there are samples on which the loop
    returns at once with that cell. *)
Lemma spawnLoop_can_return (body : list Segment) (c : Segment) (rs : list Q) :
  inBounds c -> ~ In c body ->
  spawnLoop body (sampleFor (x c) :: sampleFor (y c) :: rs) = Done (c, rs).
Proof.
  intros [Hx Hy] Hfree. simpl.
  destruct (randomCoord_hit _ Hx) as [_ ->].
  destruct (randomCoord_hit _ Hy) as [_ ->].
  destruct c as [cx cy]. simpl.
  apply onSnake_not_In in Hfree. now rewrite Hfree.
Qed.

(** [spawnFood] touches the food and the samples, nothing else. *)
Lemma spawnFood_Done (e e' : Engine) :
  spawnFood e = Done e' <->
  exists f rs', spawnLoop (snake e) (entropy e) = Done (f, rs') /\
                e' = with_food (Some f) (with_entropy rs' e).
Proof.
  unfold spawnFood. destruct (spawnLoop (snake e) (entropy e)) as [[f rs']| |];
    simpl; split.
  - intros H. inversion H. now exists f, rs'.
  - intros [f' [rs'' [H ->]]]. now inversion H.
  - discriminate.
  - intros [? [? [H _]]]. discriminate.
  - discriminate.
  - intros [? [? [H _]]]. discriminate.
Qed.

(** *** One tick, case by case *)

Lemma removelast_length (a : Segment) (l : list Segment) :
  length (removelast (a :: l)) = length l.
Proof.
  revert a. induction l as [|b l IH]; intros a; [reflexivity|].
  change (removelast (a :: b :: l)) with (a :: removelast (b :: l)).
  cbn [length]. now rewrite IH.
Qed.

Lemma same_cell_decide (c f : Segment) :
  (x c =? x f) && (y c =? y f) = bool_decide (c = f).
Proof.
  destruct c as [cx cy], f as [fx fy]. simpl.
  destruct (bool_decide_reflect ({| x := cx; y := cy |} = {| x := fx; y := fy |}))
    as [Heq|Hne].
  - inversion Heq; subst. now rewrite !Z.eqb_refl.
  - destruct (Z.eqb_spec cx fx); [|reflexivity].
    destruct (Z.eqb_spec cy fy); [|reflexivity].
    subst. now contradiction Hne.
Qed.

Lemma update_idle (e : Engine) :
  gameState e <> PLAYING -> update e = Done e.
Proof.
  intros H. unfold update. now destruct (decide (gameState e <> PLAYING)).
Qed.

Ltac reduce_setters :=
  cbv [with_ctx with_snake with_food with_direction with_nextDirection
       with_score with_gameState with_gameLoop with_speed with_callbacks
       with_timers with_listening with_entropy clearInterval setInterval
       painted emit commit bind fst snd
       ctx snake food direction nextDirection score gameState gameLoop speed
       onScoreUpdate onGameOver timers nextTimer listening entropy log].

Ltac reduce_fields :=
  cbn [with_ctx with_snake with_food with_direction with_nextDirection
       with_score with_gameState with_gameLoop with_speed with_callbacks
       with_timers with_listening with_entropy painted emit commit
       ctx snake food direction nextDirection score gameState gameLoop speed
       onScoreUpdate onGameOver timers nextTimer listening entropy log].

Ltac reduce_setters_everywhere :=
  cbv [with_ctx with_snake with_food with_direction with_nextDirection
       with_score with_gameState with_gameLoop with_speed with_callbacks
       with_timers with_listening with_entropy clearInterval setInterval
       painted emit commit bind fst snd
       ctx snake food direction nextDirection score gameState gameLoop speed
       onScoreUpdate onGameOver timers nextTimer listening entropy log] in *.

Ltac open_engine e :=
  destruct e as [ct sn fo di nd sc gs gl sp cs co ti nt li en lg];
  cbv [ownTimer] in *; reduce_setters_everywhere.

(** [render] and [endGame] with and without the context. *)
Lemma render_ctx (e : Engine) : ctx e = true -> render e = Done (painted e).
Proof. intros H. unfold render. now rewrite H. Qed.

Lemma render_Done (e e' : Engine) :
  render e = Done e' <-> ctx e = true /\ e' = painted e.
Proof.
  unfold render, painted. destruct (ctx e); split.
  - intros H. inversion H. now split.
  - intros [_ ->]. reflexivity.
  - discriminate.
  - intros [H _]. discriminate.
Qed.

Lemma render_unready (e : Engine) : ctx e = false -> render e = Throws.
Proof. intros H. unfold render. now rewrite H. Qed.

Lemma endGame_render (e : Engine) :
  endGame e = if ctx e then Done (ended e) else Throws.
Proof.
  unfold endGame, ended, render. open_engine e.
  destruct co, gl, ct; reflexivity.
Qed.

Lemma endGame_ctx (e : Engine) : ctx e = true -> endGame e = Done (ended e).
Proof. intros H. now rewrite endGame_render, H. Qed.

Lemma endGame_Done (e e' : Engine) :
  endGame e = Done e' <-> ctx e = true /\ e' = ended e.
Proof.
  rewrite endGame_render. destruct (ctx e); split.
  - intros H. inversion H. now split.
  - intros [_ ->]. reflexivity.
  - discriminate.
  - intros [H _]. discriminate.
Qed.

Lemma fed_ctx (c : Segment) (e : Engine) : ctx (fed c e) = ctx e.
Proof.
  unfold fed. open_engine e.
  destruct cs; reduce_setters; destruct (sp >? CONFIG.minSpeed);
    reduce_setters; destruct gl; reflexivity.
Qed.

(** [update], with the calls of [endGame] and [render] as they stand. *)
Lemma update_steps (e : Engine) :
  update e =
    if bool_decide (gameState e = PLAYING) then
      match candidate e with
      | None => Throws
      | Some c =>
          if checkCollision c e then endGame (commit e)
          else match food e with
               | None => Throws
               | Some f =>
                   if bool_decide (c = f)
                   then let* e' := spawnFood (fed c e) in render e'
                   else render (with_snake (removelast (c :: snake e))
                                  (commit e))
               end
      end
    else Done e.
Proof.
  destruct (bool_decide_reflect (gameState e = PLAYING)) as [Hp|Hp];
    [|now apply update_idle].
  unfold update, candidate.
  destruct (decide (gameState e <> PLAYING)) as [Hn|_]; [contradiction|].
  change (snake (with_direction (nextDirection e) e)) with (snake e).
  destruct (snake e) as [|head rest] eqn:Hs; [reflexivity|].
  change (direction (with_direction (nextDirection e) e))
    with (nextDirection e).
  change (checkCollision ?a (with_direction ?d e)) with (checkCollision a e).
  change (with_direction (nextDirection e) e) with (commit e).
  destruct (checkCollision _ e); [reflexivity|].
  change (food (with_snake ?v (commit e))) with (food e).
  destruct (food e) as [f|]; [|reflexivity].
  rewrite <- same_cell_decide. cbn [x y].
  match goal with |- (if ?b then _ else _) = _ => destruct b end.
  - unfold fed. rewrite Hs. reflexivity.
  - reflexivity.
Qed.

(** A tick that goes through needs the context. *)
Lemma update_shape (e e' : Engine) :
  update e = Done e' ->
  (if bool_decide (gameState e = PLAYING) then
     match candidate e with
     | None => Throws
     | Some c =>
         if checkCollision c e then Done (ended (commit e))
         else match food e with
              | None => Throws
              | Some f =>
                  if bool_decide (c = f)
                  then let* e' := spawnFood (fed c e) in Done (painted e')
                  else Done (painted (with_snake (removelast (c :: snake e))
                                        (commit e)))
              end
     end
   else Done e) = Done e'.
Proof.
  rewrite update_steps.
  destruct (bool_decide (gameState e = PLAYING)); [|intros H; exact H].
  destruct (candidate e) as [c|]; [|discriminate].
  destruct (checkCollision c e).
  { intros H. apply endGame_Done in H as [_ ->]. reflexivity. }
  destruct (food e) as [f|]; [|discriminate].
  destruct (bool_decide (c = f)).
  - destruct (spawnFood (fed c e)) as [e1| |]; try discriminate.
    cbv [bind]. intros H. apply render_Done in H as [_ ->]. reflexivity.
  - intros H. apply render_Done in H as [_ ->]. reflexivity.
Qed.

Lemma update_ready (e e' : Engine) :
  update e = Done e' -> gameState e = PLAYING -> ctx e = true.
Proof.
  rewrite update_steps. intros H Hp.
  rewrite bool_decide_eq_true_2 in H by exact Hp.
  destruct (candidate e) as [c|]; [|discriminate].
  destruct (checkCollision c e).
  { now apply endGame_Done in H as [H _]. }
  destruct (food e) as [f|]; [|discriminate].
  destruct (bool_decide (c = f)).
  - destruct (spawnFood (fed c e)) as [e1| |] eqn:Hspawn; try discriminate.
    cbv [bind] in H. apply render_Done in H as [H _].
    unfold spawnFood in Hspawn.
    destruct (spawnLoop (snake (fed c e)) (entropy (fed c e))) as [r| |];
      try discriminate.
    cbv [bind] in Hspawn. inversion Hspawn; subst e1.
    cbn [ctx with_food with_entropy] in H. now rewrite fed_ctx in H.
  - now apply render_Done in H as [H _].
Qed.

Lemma update_cases (e : Engine) :
  ctx e = true ->
  update e =
    if bool_decide (gameState e = PLAYING) then
      match candidate e with
      | None => Throws
      | Some c =>
          if checkCollision c e then Done (ended (commit e))
          else match food e with
               | None => Throws
               | Some f =>
                   if bool_decide (c = f)
                   then let* e' := spawnFood (fed c e) in Done (painted e')
                   else Done (painted (with_snake (removelast (c :: snake e))
                                         (commit e)))
               end
      end
    else Done e.
Proof.
  intros Hctx. rewrite update_steps.
  destruct (bool_decide (gameState e = PLAYING)); [|reflexivity].
  destruct (candidate e) as [c|]; [|reflexivity].
  destruct (checkCollision c e); [now apply endGame_ctx|].
  destruct (food e) as [f|]; [|reflexivity].
  destruct (bool_decide (c = f)); [|now apply render_ctx].
  unfold spawnFood.
  destruct (spawnLoop (snake (fed c e)) (entropy (fed c e))) as [r| |];
    try reflexivity.
  cbv [bind]. apply render_ctx. cbn [ctx with_food with_entropy].
  now rewrite fed_ctx.
Qed.

Lemma update_playing (e : Engine) (c f : Segment) :
  ctx e = true ->
  gameState e = PLAYING -> candidate e = Some c -> food e = Some f ->
  update e =
    if checkCollision c e then Done (ended (commit e))
    else if bool_decide (c = f)
         then let* e' := spawnFood (fed c e) in Done (painted e')
         else Done (painted (with_snake (removelast (c :: snake e))
                               (commit e))).
Proof.
  intros Hctx Hplay Hc Hf. rewrite (update_cases e Hctx), Hc, Hf.
  now rewrite bool_decide_eq_true_2 by exact Hplay.
Qed.

Lemma update_collision_throwless (e : Engine) (c : Segment) :
  ctx e = true ->
  gameState e = PLAYING -> candidate e = Some c ->
  checkCollision c e = true -> update e = Done (ended (commit e)).
Proof.
  intros Hctx Hplay Hc Hhit. rewrite (update_cases e Hctx), Hc, Hhit.
  now rewrite bool_decide_eq_true_2 by exact Hplay.
Qed.

Lemma checkCollision_spec (c : Segment) (e : Engine) :
  checkCollision c e = true <-> ~ inBounds c \/ In c (snake e).
Proof.
  unfold checkCollision, inBounds, CONFIG.gridSize.
  destruct (x c <? 0) eqn:H1; [split; [intros _; left|reflexivity]; lia|].
  destruct (x c >=? 20) eqn:H2; [split; [intros _; left|reflexivity]; lia|].
  destruct (y c <? 0) eqn:H3; [split; [intros _; left|reflexivity]; lia|].
  destruct (y c >=? 20) eqn:H4; [split; [intros _; left|reflexivity]; lia|].
  simpl. rewrite onSnake_In. split; [now right|].
  intros [Hout|Hin]; [lia|assumption].
Qed.

(** *** What holds of every state after [init] *)

Lemma clear_own (h : nat) (d : Z) :
  filter (fun t : nat * Z => fst t <> h) [(h, d)] = [].
Proof.
  rewrite filter_cons. simpl. destruct (decide (h <> h)); [congruence|].
  apply filter_nil.
Qed.

Lemma reset_Done (e e' : Engine) :
  reset e = Done e' <->
  ctx e = true /\
  exists f rs', spawnLoop initialSnake (entropy e) = Done (f, rs') /\
    e' = {| ctx := true;
            snake := initialSnake; food := Some f; direction := RIGHT;
            nextDirection := RIGHT; score := 0; gameState := IDLE;
            gameLoop := None; speed := CONFIG.initialSpeed;
            onScoreUpdate := onScoreUpdate e; onGameOver := onGameOver e;
            timers := match gameLoop e with
                      | Some h => filter (fun t => fst t <> h) (timers e)
                      | None => timers e
                      end;
            nextTimer := nextTimer e; listening := listening e;
            entropy := rs'; log := Rendered :: log e |}.
Proof.
  destruct e as [ct sn fo di nd sc gs gl sp cs co ti nt li en lg].
  unfold reset, spawnFood, render. cbn [gameLoop].
  destruct gl as [h|]; reduce_setters;
    destruct (spawnLoop initialSnake en) as [[f rs']| |];
    reduce_setters; destruct ct; split; try discriminate;
    try (intros [_ [? [? [? _]]]]; discriminate);
    try (intros [? _]; discriminate).
  - intros H. inversion H. split; [reflexivity|].
    exists f, rs'. split; reflexivity.
  - intros [_ [f' [rs'' [H ->]]]]. now inversion H.
  - intros H. inversion H. split; [reflexivity|].
    exists f, rs'. split; reflexivity.
  - intros [_ [f' [rs'' [H ->]]]]. now inversion H.
Qed.

Lemma init_Done (s o : bool) (e e' : Engine) :
  init s o e = Done e' ->
  exists f rs', spawnLoop initialSnake (entropy e) = Done (f, rs') /\
    e' = {| ctx := true;
            snake := initialSnake; food := Some f; direction := RIGHT;
            nextDirection := RIGHT; score := 0; gameState := IDLE;
            gameLoop := None; speed := CONFIG.initialSpeed;
            onScoreUpdate := s; onGameOver := o;
            timers := match gameLoop e with
                      | Some h => filter (fun t => fst t <> h) (timers e)
                      | None => timers e
                      end;
            nextTimer := nextTimer e; listening := true;
            entropy := rs'; log := Rendered :: log e |}.
Proof.
  unfold init.
  destruct (reset (with_callbacks s o (with_ctx true e))) as [e1| |] eqn:Hr;
    try discriminate.
  cbv [bind]. intros H. inversion H; subst. clear H.
  apply reset_Done in Hr as [_ [f [rs' [Hl ->]]]].
  exists f, rs'. split; [exact Hl|reflexivity].
Qed.

(** [reset] never raises once the context is set: it returns when the
    food loop does. *)
Lemma reset_returns (e : Engine) :
  ctx e = true ->
  reset e <> Throws /\
  (returns (reset e) <-> returns (spawnLoop initialSnake (entropy e))).
Proof.
  intros Hctx.
  destruct (spawnLoop initialSnake (entropy e)) as [[f rs']| |] eqn:Hloop.
  - assert (Hr : returns (reset e)).
    { eexists. apply reset_Done. split; [exact Hctx|].
      exists f, rs'. split; [exact Hloop|reflexivity]. }
    split; [destruct Hr as [e' ->]; discriminate|].
    split; intros _; [now eexists|exact Hr].
  - now apply spawnLoop_never_throws in Hloop.
  - assert (Hn : forall e', reset e <> Done e').
    { intros e' Hr. apply reset_Done in Hr as [_ [f [rs' [Hl _]]]].
      rewrite Hloop in Hl. discriminate Hl. }
    split.
    + unfold reset, spawnFood.
      change (snake (with_speed ?a (with_score ?b (with_nextDirection ?c
                (with_direction ?d (with_snake ?v ?x)))))) with v.
      destruct (gameLoop e); cbn [entropy with_speed with_score
        with_nextDirection with_direction with_snake with_gameLoop
        clearInterval with_timers]; rewrite Hloop; discriminate.
    + split; intros [x Hx]; [now apply Hn in Hx|discriminate Hx].
Qed.

Lemma reset_Inv (e e' : Engine) :
  timers e = ownTimer e -> reset e = Done e' -> Inv e'.
Proof.
  intros Ht Hr. apply reset_Done in Hr as [_ [f [rs' [_ ->]]]].
  unfold ownTimer in Ht.
  split; simpl; try discriminate; try congruence.
  - rewrite Ht. destruct (gameLoop e); [apply clear_own|reflexivity].
  - unfold CONFIG.minSpeed, CONFIG.initialSpeed. lia.
Qed.

Lemma init_Inv (rs : list Q) (s o : bool) (e : Engine) :
  init s o (loaded rs) = Done e -> Inv e.
Proof.
  unfold init. intros H.
  destruct (reset (with_callbacks s o (with_ctx true (loaded rs)))) as [e1| |] eqn:Hr;
    try discriminate.
  simpl in H. inversion H; subst.
  apply reset_Inv in Hr; [|reflexivity].
  destruct Hr. split; simpl; assumption.
Qed.

Ltac close_inv :=
  split; cbv [ownTimer]; reduce_setters;
  first [ assumption | discriminate | congruence | reflexivity
        | subst; rewrite ?clear_own; reflexivity
        | subst; rewrite ?clear_own; congruence ].

Lemma togglePause_Inv (e : Engine) : Inv e -> Inv (togglePause e).
Proof.
  intros [Ht Hl Hs Hf Hd Hsp He]. unfold togglePause. open_engine e.
  destruct (decide (gs = PLAYING)) as [Hp|Hp];
    [|destruct (decide (gs = PAUSED)) as [Hq|Hq]];
    reduce_setters; destruct gl as [h|]; try close_inv.
  exfalso. apply Hp, Hl. discriminate.
Qed.

Lemma destroy_Inv (e : Engine) : Inv e -> Inv (destroy e).
Proof.
  intros [Ht Hl Hs Hf Hd Hsp He]. unfold destroy. open_engine e.
  destruct gl as [h|]; close_inv.
Qed.

Lemma start_Inv (e e' : Engine) : Inv e -> start e = Done e' -> Inv e'.
Proof.
  intros HI. unfold start.
  destruct (decide (gameState e = PLAYING)) as [Hp|Hp].
  { intros H. now inversion H; subst. }
  destruct (decide (gameState e = GAME_OVER \/ gameState e = IDLE)) as [Hr|Hr].
  - destruct (reset e) as [e1| |] eqn:Hreset; try discriminate.
    cbv [bind]. intros H. inversion H; subst. clear H.
    apply reset_Done in Hreset as [_ [f [rs' [_ ->]]]].
    destruct HI as [Ht Hl Hs Hf Hd Hsp He]. open_engine e.
    destruct gl as [h|]; split; cbv [ownTimer]; reduce_setters;
      try discriminate; try reflexivity;
      try (subst; rewrite ?clear_own; reflexivity);
      unfold CONFIG.minSpeed, CONFIG.initialSpeed; lia.
  - cbv [bind]. intros H. inversion H; subst. clear H.
    destruct HI as [Ht Hl Hs Hf Hd Hsp He]. open_engine e.
    destruct gl as [h|]; [|close_inv].
    exfalso. apply Hp, Hl. discriminate.
Qed.

Lemma ended_Inv (e : Engine) : Inv e -> Inv (ended e).
Proof.
  intros [Ht Hl Hs Hf Hd Hsp He]. unfold ended. open_engine e.
  destruct co, gl as [h|]; close_inv.
Qed.

Lemma fed_frame (c : Segment) (e : Engine) :
  snake (fed c e) = c :: snake e /\ food (fed c e) = food e /\
  direction (fed c e) = nextDirection e /\
  nextDirection (fed c e) = nextDirection e /\
  score (fed c e) = score e + 10 /\ gameState (fed c e) = gameState e /\
  entropy (fed c e) = entropy e /\
  speed (fed c e) = (if speed e >? CONFIG.minSpeed
                     then speed e - CONFIG.speedIncrement else speed e) /\
  log (fed c e) = (if onScoreUpdate e then [ScoreUpdated (score e + 10)]
                   else []) ++ log e /\
  onScoreUpdate (fed c e) = onScoreUpdate e /\
  onGameOver (fed c e) = onGameOver e /\ listening (fed c e) = listening e.
Proof.
  unfold fed. open_engine e.
  destruct cs; reduce_setters; destruct (sp >? CONFIG.minSpeed);
    reduce_setters; destruct gl; repeat split; reflexivity.
Qed.

Lemma fed_timers (c : Segment) (e : Engine) :
  timers e = ownTimer e -> timers (fed c e) = ownTimer (fed c e).
Proof.
  intros Ht. unfold fed. open_engine e.
  destruct cs; reduce_setters; destruct (sp >? CONFIG.minSpeed);
    reduce_setters; destruct gl; subst; rewrite ?clear_own; reflexivity.
Qed.

Lemma speedup_bounds (v : Z) :
  CONFIG.minSpeed <= v <= CONFIG.initialSpeed -> Z.even v = true ->
  let v' := if v >? CONFIG.minSpeed then v - CONFIG.speedIncrement else v in
  CONFIG.minSpeed <= v' <= CONFIG.initialSpeed /\ Z.even v' = true /\ v' <= v.
Proof.
  unfold CONFIG.minSpeed, CONFIG.initialSpeed, CONFIG.speedIncrement.
  intros Hb He. simpl. destruct (v >? 50) eqn:Hgt.
  - apply Z.gtb_lt in Hgt.
    assert (v <> 51) by (intros ->; discriminate).
    repeat split; try lia.
    rewrite Z.even_sub, He. reflexivity.
  - repeat split; try lia. assumption.
Qed.

Lemma update_Inv (e e' : Engine) : Inv e -> update e = Done e' -> Inv e'.
Proof.
  intros HI Hu.
  destruct (decide (gameState e = PLAYING)) as [Hp|Hp];
    [|rewrite update_idle in Hu by assumption; now inversion Hu; subst].
  pose proof HI as [Ht Hl Hs Hf Hd Hsp He].
  destruct (candidate e) as [c|] eqn:Hc;
    [|unfold candidate in Hc; destruct (snake e); [contradiction|discriminate]].
  destruct (food e) as [f|] eqn:Hfood; [|contradiction].
  rewrite (update_playing e c f (update_ready e e' Hu Hp) Hp Hc Hfood) in Hu.
  destruct (checkCollision c e).
  { inversion Hu; subst. apply ended_Inv.
    split; simpl; try assumption; try congruence.
    destruct (nextDirection e); discriminate. }
  destruct (bool_decide (c = f)).
  - destruct (spawnFood (fed c e)) as [e1| |] eqn:Hspawn; try discriminate.
    simpl in Hu. inversion Hu; subst. clear Hu.
    apply spawnFood_Done in Hspawn as [g [rs' [_ ->]]].
    destruct (fed_frame c e) as (F1 & F2 & F3 & F4 & F5 & F6 & F7 & F8 & _).
    pose proof (fed_timers c e Ht) as Ft.
    pose proof (speedup_bounds (speed e) Hsp He) as (B1 & B2 & _).
    split; simpl; try discriminate.
    + exact Ft.
    + intros _. now rewrite F6.
    + rewrite F1. discriminate.
    + rewrite F3, F4. destruct (nextDirection e); discriminate.
    + now rewrite F8.
    + now rewrite F8.
  - inversion Hu; subst. clear Hu.
    split; simpl; try assumption; try congruence.
    + unfold candidate in Hc. destruct (snake e) as [|hd tl]; [contradiction|].
      simpl. destruct tl; discriminate.
    + destruct (nextDirection e); discriminate.
Qed.

Lemma movement_key (code : string) (e : Engine) :
  code <> "Space" ->
  exists e', handleKeyDown code e = Done e' /\
    direction e' = direction e /\
    (nextDirection e' = nextDirection e \/
     nextDirection e' <> opposite (direction e)) /\
    gameState e' = gameState e /\ score e' = score e /\ speed e' = speed e /\
    snake e' = snake e /\ food e' = food e /\ timers e' = timers e /\
    gameLoop e' = gameLoop e /\ entropy e' = entropy e /\ ctx e' = ctx e.
Proof.
  intros Hne. apply String.eqb_neq in Hne. unfold handleKeyDown. rewrite Hne.
  open_engine e.
  destruct (decide (gs <> PLAYING)).
  { eexists. split; [reflexivity|]. repeat split. now left. }
  destruct di;
    repeat match goal with
           | |- context [orb ?a ?b] => destruct (orb a b)
           end;
    repeat match goal with
           | |- context [decide ?P] => destruct (decide P)
           end;
    try congruence;
    (eexists; split; [reflexivity|]); reduce_setters; repeat split;
    first [ now left | right; discriminate ].
Qed.

Lemma handleKeyDown_Inv (code : string) (e e' : Engine) :
  Inv e -> handleKeyDown code e = Done e' -> Inv e'.
Proof.
  intros HI. destruct (String.eqb code "Space") eqn:Hcode.
  - unfold handleKeyDown. rewrite Hcode.
    assert (HI' : Inv (emit DefaultPrevented e)) by (destruct HI; now split).
    change (gameState (emit DefaultPrevented e)) with (gameState e).
    destruct (decide (gameState e = IDLE \/ gameState e = GAME_OVER)).
    + apply start_Inv. exact HI'.
    + intros H. inversion H; subst. now apply togglePause_Inv.
  - apply String.eqb_neq in Hcode.
    destruct (movement_key code e Hcode)
      as (e1 & -> & K1 & K2 & K3 & _ & K4 & K5 & K6 & K7 & K8 & _).
    intros H. inversion H; subst. clear H.
    destruct HI as [Ht Hl Hs Hf Hd Hsp He].
    split; rewrite ?K1, ?K3, ?K4, ?K5, ?K6, ?K7, ?K8; try assumption.
    + unfold ownTimer. now rewrite K8, K4.
    + destruct K2 as [->| ]; assumption.
Qed.

Lemma step_Inv (a : Action) (e e' : Engine) :
  Inv e -> step a e = Done e' -> Inv e'.
Proof.
  intros HI. destruct a as [s o| | | | |code|h]; simpl.
  - unfold init. destruct (reset (with_callbacks s o (with_ctx true e))) as [e1| |] eqn:Hr;
      try discriminate.
    simpl. intros H. inversion H; subst.
    apply reset_Inv in Hr; [|apply HI].
    destruct Hr. now split.
  - apply reset_Inv, HI.
  - now apply start_Inv.
  - intros H. inversion H; subst. now apply togglePause_Inv.
  - intros H. inversion H; subst. now apply destroy_Inv.
  - destruct (listening e); [now apply handleKeyDown_Inv|].
    intros H. now inversion H; subst.
  - destruct (live h e); [now apply update_Inv|].
    intros H. now inversion H; subst.
Qed.

Lemma reachable_Inv (e : Engine) : reachable e -> Inv e.
Proof.
  induction 1 as [rs s o e Hinit|a e e' _ IH Hstep].
  - eapply init_Inv, Hinit.
  - eapply step_Inv; eassumption.
Qed.

(** *** The context stays once [init] has set it *)

Lemma ended_ctx (e : Engine) : ctx (ended e) = ctx e.
Proof. unfold ended. open_engine e. destruct co, gl; reflexivity. Qed.

Lemma update_ctx (e e' : Engine) : update e = Done e' -> ctx e' = ctx e.
Proof.
  intros Hu. apply update_shape in Hu. revert Hu.
  destruct (bool_decide (gameState e = PLAYING));
    [|intros H; now inversion H].
  destruct (candidate e) as [c|]; [|discriminate].
  destruct (checkCollision c e).
  { intros H. inversion H; subst. apply (ended_ctx (commit e)). }
  destruct (food e) as [f|]; [|discriminate].
  destruct (bool_decide (c = f)).
  - destruct (spawnFood (fed c e)) as [e1| |] eqn:Hspawn; try discriminate.
    cbv [bind]. intros H. inversion H; subst.
    apply spawnFood_Done in Hspawn as [g [rs' [_ ->]]].
    cbn [painted emit ctx with_food with_entropy]. apply fed_ctx.
  - intros H. inversion H; subst. reflexivity.
Qed.

Lemma togglePause_ctx (e : Engine) : ctx (togglePause e) = ctx e.
Proof.
  unfold togglePause. open_engine e.
  destruct (decide (gs = PLAYING)); [|destruct (decide (gs = PAUSED))];
    reduce_setters; destruct gl; reflexivity.
Qed.

Lemma destroy_ctx (e : Engine) : ctx (destroy e) = ctx e.
Proof. unfold destroy. open_engine e. now destruct gl. Qed.

Lemma start_ctx (e e' : Engine) : start e = Done e' -> ctx e' = ctx e.
Proof.
  unfold start. destruct (decide (gameState e = PLAYING)).
  { intros H. now inversion H. }
  destruct (decide (gameState e = GAME_OVER \/ gameState e = IDLE)).
  - destruct (reset e) as [e1| |] eqn:Hr; try discriminate.
    cbv [bind]. intros H. inversion H; subst.
    apply reset_Done in Hr as [Hc [f [rs' [_ ->]]]]. now rewrite Hc.
  - cbv [bind]. intros H. inversion H; subst. reflexivity.
Qed.

Lemma handleKeyDown_ctx (code : string) (e e' : Engine) :
  handleKeyDown code e = Done e' -> ctx e' = ctx e.
Proof.
  destruct (String.eqb code "Space") eqn:Hcode.
  - unfold handleKeyDown. rewrite Hcode.
    change (gameState (emit DefaultPrevented e)) with (gameState e).
    destruct (decide (gameState e = IDLE \/ gameState e = GAME_OVER)).
    + intros H. now apply start_ctx in H.
    + intros H. inversion H; subst.
      apply (togglePause_ctx (emit DefaultPrevented e)).
  - apply String.eqb_neq in Hcode.
    destruct (movement_key code e Hcode)
      as (e1 & -> & _ & _ & _ & _ & _ & _ & _ & _ & _ & _ & K).
    intros H. inversion H; subst. exact K.
Qed.

Lemma init_ctx (s o : bool) (e e' : Engine) :
  init s o e = Done e' -> ctx e' = true.
Proof.
  unfold init.
  destruct (reset (with_callbacks s o (with_ctx true e))) as [e1| |] eqn:Hr;
    try discriminate.
  cbv [bind]. intros H. inversion H; subst.
  apply reset_Done in Hr as [_ [f [rs' [_ ->]]]]. reflexivity.
Qed.

Lemma step_ctx (a : Action) (e e' : Engine) :
  ctx e = true -> step a e = Done e' -> ctx e' = true.
Proof.
  intros Hc. destruct a as [s o| | | | |code|h]; cbn [step].
  - apply init_ctx.
  - intros Hr. now apply reset_Done in Hr as [_ [f [rs' [_ ->]]]].
  - intros H. apply start_ctx in H. congruence.
  - intros H. inversion H; subst. now rewrite togglePause_ctx.
  - intros H. inversion H; subst. now rewrite destroy_ctx.
  - destruct (listening e); [|intros H; now inversion H; subst].
    intros H. apply handleKeyDown_ctx in H. congruence.
  - destruct (live h e); [|intros H; now inversion H; subst].
    intros H. apply update_ctx in H. congruence.
Qed.

Lemma reachable_ctx (e : Engine) : reachable e -> ctx e = true.
Proof.
  induction 1 as [rs s o e Hinit|a e e' _ IH Hstep].
  - exact (init_ctx s o (loaded rs) e Hinit).
  - now apply (step_ctx a e e').
Qed.

(** *** The tick *)

(** C10. When [update] runs while the engine is not playing (a stray timer
    callback after a pause, a game over or a reset), it returns at once:
    the snake, the food, the directions, the score, the speed, the state,
    the timers and the log of callbacks and renders are all as before. The
    same holds of a timer that fires in such a state. *)
Theorem update_outside_play_changes_nothing (e : Engine) :
  gameState e <> PLAYING ->
  update e = Done e /\ forall h, step (TimerFires h) e = Done e.
Proof.
  intros Hidle. split; [now apply update_idle|].
  intros h. simpl. destruct (live h e); [now apply update_idle|reflexivity].
Qed.

Lemma update_outside_play_changes_nothing_paused :
  update (with_gameState PAUSED idleBoard) = Done (with_gameState PAUSED idleBoard)
  /\ forall h, step (TimerFires h) (with_gameState PAUSED idleBoard)
               = Done (with_gameState PAUSED idleBoard).
Proof.
  apply (update_outside_play_changes_nothing (with_gameState PAUSED idleBoard)).
  simpl. discriminate.
Defined.

(** C3. On a tick whose candidate head (the head plus the delta of the
    direction the tick commits) is outside the grid or on a segment of the
    snake, the tail included, and with the canvas context that [init] sets
    (without it the render of [endGame] raises), the engine goes from
    playing to game over, clears its timer (after which no timer of a
    reachable engine is live, and a firing timer would do nothing), calls
    the game-over callback, when one is registered, with the current
    score, renders, and leaves the snake, the score, the speed and the
    food as they were. *)
Theorem update_collision_ends_game (e : Engine) (c : Segment) :
  gameState e = PLAYING ->
  candidate e = Some c ->
  ~ inBounds c \/ In c (snake e) ->
  (ctx e = true ->
   exists e',
     update e = Done e' /\
     gameState e' = GAME_OVER /\
     gameLoop e' = None /\
     timers e' = match gameLoop e with
                 | Some h => filter (fun t => fst t <> h) (timers e)
                 | None => timers e
                 end /\
     (reachable e -> timers e' = []) /\
     (forall h, step (TimerFires h) e' = Done e') /\
     log e' = Rendered ::
              (if onGameOver e then [GameEnded (score e)] else []) ++ log e /\
     snake e' = snake e /\ score e' = score e /\ speed e' = speed e /\
     food e' = food e /\ direction e' = nextDirection e) /\
  (ctx e = false -> update e = Throws).
Proof.
  intros Hplay Hc Hhit. apply checkCollision_spec in Hhit. split.
  2:{ intros Hctx.
      rewrite update_steps, Hc, Hhit, bool_decide_eq_true_2 by exact Hplay.
      rewrite endGame_render. unfold commit. cbn [ctx with_direction].
      now rewrite Hctx. }
  intros Hctx.
  exists (ended (commit e)). split.
  { now apply update_collision_throwless with c. }
  assert (Hfacts :
    gameState (ended (commit e)) = GAME_OVER /\
    gameLoop (ended (commit e)) = None /\
    timers (ended (commit e)) =
      match gameLoop e with
      | Some h => filter (fun t => fst t <> h) (timers e)
      | None => timers e
      end /\
    log (ended (commit e)) =
      Rendered :: (if onGameOver e then [GameEnded (score e)] else [])
        ++ log e /\
    snake (ended (commit e)) = snake e /\
    score (ended (commit e)) = score e /\
    speed (ended (commit e)) = speed e /\
    food (ended (commit e)) = food e /\
    direction (ended (commit e)) = nextDirection e).
  { clear Hctx Hplay Hc Hhit. unfold ended. open_engine e.
    destruct co, gl; repeat split; reflexivity. }
  destruct Hfacts as (F1 & F2 & F3 & F4 & F5 & F6 & F7 & F8 & F9).
  split; [exact F1|]. split; [exact F2|]. split; [exact F3|]. split.
  { intros Hreach. rewrite F3.
    destruct (reachable_Inv e Hreach) as [Ht _ _ _ _ _ _].
    rewrite Ht. unfold ownTimer.
    destruct (gameLoop e); [apply clear_own|reflexivity]. }
  split.
  { intros h. unfold step. destruct (live h _); [|reflexivity].
    apply update_idle. rewrite F1. discriminate. }
  repeat split; assumption.
Qed.

(** C5. On a tick of a playing engine whose candidate head is inside the
    grid and off the snake, and with the canvas context that [init] sets
    (without it the tick does not return, as its render raises): the
    candidate, which is the old head plus the delta of the committed
    direction, becomes the new head. When it is on the food, the rest of
    the snake is kept and the length grows by one (the tick returns
    exactly when the food loop does, and never raises); otherwise the last
    segment is dropped and the length is unchanged. *)
Theorem update_moves_snake (e : Engine) (head : Segment) (rest : list Segment)
    (f : Segment) :
  gameState e = PLAYING ->
  snake e = head :: rest ->
  food e = Some f ->
  let c := {| x := x head + dx (nextDirection e);
              y := y head + dy (nextDirection e) |} in
  inBounds c -> ~ In c (snake e) ->
  (ctx e = true ->
     (c = f ->
        (forall e', update e = Done e' ->
           direction e' = nextDirection e /\
           snake e' = c :: head :: rest /\
           length (snake e') = S (length (snake e))) /\
        update e <> Throws /\
        (returns (update e) <->
         returns (spawnLoop (c :: head :: rest) (entropy e)))) /\
     (c <> f ->
        exists e', update e = Done e' /\
          direction e' = nextDirection e /\
          snake e' = c :: removelast (head :: rest) /\
          length (snake e') = length (snake e))) /\
  (ctx e = false -> ~ returns (update e)).
Proof.
  intros Hplay Hs Hf c Hin Hoff. split.
  2:{ intros Hctx [e' Hu]. apply update_ready in Hu; [congruence|exact Hplay]. }
  intros Hctx.
  assert (Hc : candidate e = Some c) by (unfold candidate; now rewrite Hs).
  assert (Hfree : checkCollision c e = false).
  { destruct (checkCollision c e) eqn:Hcol; [|reflexivity].
    apply checkCollision_spec in Hcol as [Hout|Hon]; contradiction. }
  pose proof (update_playing e c f Hctx Hplay Hc Hf) as Hu.
  rewrite Hfree in Hu. split.
  - intros Heq. rewrite bool_decide_eq_true_2 in Hu by assumption.
    destruct (fed_frame c e) as (F1 & _ & F3 & _ & _ & _ & F7 & _).
    unfold spawnFood in Hu. rewrite F1, F7, Hs in Hu. rewrite Hs.
    destruct (spawnLoop (c :: head :: rest) (entropy e)) as [[g rs']| |] eqn:Hl;
      simpl in Hu; rewrite Hu.
    + split; [|split; [discriminate|]].
      * intros e' He'. inversion He'; subst. simpl.
        rewrite F1, F3, Hs. repeat split; reflexivity.
      * split; intros _; unfold returns; eauto.
    + exfalso. now apply (spawnLoop_never_throws _ _ Hl).
    + split; [discriminate|split; [discriminate|]].
      split; intros [? ?]; discriminate.
  - intros Hne. rewrite bool_decide_eq_false_2 in Hu by assumption.
    eexists. split; [exact Hu|]. unfold commit. reduce_fields. rewrite Hs.
    split; [reflexivity|]. split; [reflexivity|].
    change (removelast (c :: head :: rest)) with (c :: removelast (head :: rest)).
    cbn [length]. now rewrite removelast_length.
Qed.

Lemma update_collision_ends_game_at_wall :
  exists e',
    update wallBoard = Done e' /\
    gameState e' = GAME_OVER /\
    gameLoop e' = None /\
    timers e' = match gameLoop wallBoard with
                | Some h => filter (fun t => fst t <> h) (timers wallBoard)
                | None => timers wallBoard
                end /\
    (reachable wallBoard -> timers e' = []) /\
    (forall h, step (TimerFires h) e' = Done e') /\
    log e' = Rendered ::
             (if onGameOver wallBoard then [GameEnded (score wallBoard)]
              else []) ++ log wallBoard /\
    snake e' = snake wallBoard /\ score e' = score wallBoard /\
    speed e' = speed wallBoard /\ food e' = food wallBoard /\
    direction e' = nextDirection wallBoard.
Proof.
  refine (proj1 (update_collision_ends_game wallBoard {| x := 20; y := 10 |}
                   _ _ _) _).
  - reflexivity.
  - reflexivity.
  - left. unfold inBounds, CONFIG.gridSize. simpl. lia.
  - reflexivity.
Defined.

Lemma update_moves_snake_first_tick :
  update playingBoard <> Throws /\
  exists e', update playingBoard = Done e' /\
    direction e' = RIGHT /\
    snake e' = [ {| x := 11; y := 10 |}; {| x := 10; y := 10 |};
                 {| x := 9; y := 10 |} ] /\
    length (snake e') = 3%nat.
Proof.
  split; [discriminate|].
  refine (proj2 (proj1 (update_moves_snake playingBoard {| x := 10; y := 10 |}
                          [ {| x := 9; y := 10 |}; {| x := 8; y := 10 |} ]
                          {| x := 10; y := 15 |} _ _ _ _ _) _) _).
  - reflexivity.
  - reflexivity.
  - reflexivity.
  - unfold inBounds, CONFIG.gridSize. simpl. lia.
  - simpl. intros [H|[H|[H|[]]]]; discriminate.
  - reflexivity.
  - discriminate.
Defined.

(** *** Food *)

(** C6. At every food spawn, with [Math.random()] returning doubles in
    [0, 1) and [Math.floor(r * 20)] taken of the rounded product: when the
    loop of [spawnFood] returns, the food it has set is a cell of the grid
    and on no segment of the snake; so it is after [reset] and after a
    tick that eats. The loop never raises; it returns once a round of
    samples names a free cell, which some doubles of [0, 1) do for every
    free cell of the grid; and it cannot return when the snake covers the
    grid. *)
Theorem food_spawns_on_free_cell (e : Engine) :
  Forall unitSample (entropy e) ->
  (forall e', spawnFood e = Done e' ->
     snake e' = snake e /\
     exists f, food e' = Some f /\ inBounds f /\ ~ In f (snake e)) /\
  (forall e', reset e = Done e' ->
     exists f, food e' = Some f /\ inBounds f /\ ~ In f (snake e')) /\
  (forall e', eatsFood e = true -> update e = Done e' ->
     exists f, food e' = Some f /\ inBounds f /\ ~ In f (snake e')) /\
  spawnFood e <> Throws /\
  (forall (k : nat) (rx ry : Q),
     entropy e !! (2 * k)%nat = Some rx ->
     entropy e !! (2 * k + 1)%nat = Some ry ->
     ~ In {| x := randomCoord rx; y := randomCoord ry |} (snake e) ->
     returns (spawnFood e)) /\
  (forall (c : Segment) (rs : list Q),
     inBounds c -> ~ In c (snake e) ->
     unitSample (sampleFor (x c)) /\ unitSample (sampleFor (y c)) /\
     spawnFood (with_entropy (sampleFor (x c) :: sampleFor (y c) :: rs) e)
       = Done (with_food (Some c) (with_entropy rs e))) /\
  ((forall c, inBounds c -> In c (snake e)) -> ~ returns (spawnFood e)).
Proof.
  intros Hunit. split; [|split; [|split; [|split; [|split; [|split]]]]].
  - intros e' Hspawn.
    apply spawnFood_Done in Hspawn as [f [rs' [Hloop ->]]].
    split; [reflexivity|]. exists f. split; [reflexivity|].
    destruct (spawnLoop_sound _ _ _ _ Hunit Hloop) as [Hb [Hfree _]].
    now split.
  - intros e' Hreset.
    apply reset_Done in Hreset as [_ [f [rs' [Hloop ->]]]].
    exists f. split; [reflexivity|].
    destruct (spawnLoop_sound _ _ _ _ Hunit Hloop) as [Hb [Hfree _]].
    now split.
  - intros e' Heats Hupd. unfold eatsFood in Heats.
    apply andb_prop in Heats as [Hplay Heats].
    apply bool_decide_eq_true in Hplay.
    destruct (candidate e) as [c|] eqn:Hc; [|discriminate].
    destruct (food e) as [f0|] eqn:Hf; [|discriminate].
    apply andb_prop in Heats as [Hfree Hon].
    apply negb_true_iff in Hfree.
    rewrite (update_playing e c f0 (update_ready e e' Hupd Hplay) Hplay Hc Hf),
      Hfree, Hon in Hupd.
    destruct (spawnFood (fed c e)) as [e1| |] eqn:Hspawn; try discriminate.
    simpl in Hupd. inversion Hupd; subst. clear Hupd.
    apply spawnFood_Done in Hspawn as [f [rs' [Hloop ->]]].
    destruct (fed_frame c e) as (F1 & _ & _ & _ & _ & _ & F7 & _).
    rewrite F7 in Hloop.
    destruct (spawnLoop_sound _ _ _ _ Hunit Hloop) as [Hb [Hoff _]].
    exists f. split; [reflexivity|]. now split.
  - unfold spawnFood.
    destruct (spawnLoop (snake e) (entropy e)) as [r| |] eqn:Hloop;
      try discriminate.
    now apply spawnLoop_never_throws in Hloop.
  - intros k rx ry Hx Hy Hfree. apply onSnake_not_In in Hfree.
    destruct (spawnLoop_returns _ k _ rx ry Hx Hy Hfree) as [[f rs'] Hloop].
    unfold spawnFood. rewrite Hloop. unfold returns. cbv [bind]. eauto.
  - intros c rs Hc Hfree.
    split; [exact (proj1 (randomCoord_hit _ (proj1 Hc)))|].
    split; [exact (proj1 (randomCoord_hit _ (proj2 Hc)))|].
    unfold spawnFood.
    change (entropy (with_entropy ?v e)) with v.
    change (snake (with_entropy ?v e)) with (snake e).
    rewrite (spawnLoop_can_return _ c rs Hc Hfree). reflexivity.
  - intros Hfull [e' Hspawn].
    apply spawnFood_Done in Hspawn as [f [rs' [Hloop _]]].
    destruct (spawnLoop_sound _ _ _ _ Hunit Hloop) as [Hb [Hfree _]].
    apply Hfree, Hfull, Hb.
Qed.

Lemma food_spawns_on_free_cell_after_eating :
  update foodAhead = Done fedBoard /\
  exists f, food fedBoard = Some f /\ inBounds f /\ ~ In f (snake fedBoard).
Proof.
  assert (Hunit : Forall unitSample (entropy foodAhead)).
  { repeat (apply List.Forall_cons;
            [vm_compute; repeat split; first [reflexivity|discriminate]|]).
    apply List.Forall_nil. }
  assert (Heats : eatsFood foodAhead = true) by (vm_compute; reflexivity).
  assert (Hupd : update foodAhead = Done fedBoard) by (vm_compute; reflexivity).
  split; [exact Hupd|].
  exact (proj1 (proj2 (proj2 (food_spawns_on_free_cell foodAhead Hunit)))
           fedBoard Heats Hupd).
Defined.

(** *** Score and speed along a run *)

Lemma ended_frame (e : Engine) :
  score (ended e) = score e /\ speed (ended e) = speed e.
Proof.
  unfold ended. open_engine e. destruct co, gl; split; reflexivity.
Qed.

(** What a tick does to the score, the speed and the log. *)
Lemma update_effect (e e' : Engine) :
  update e = Done e' ->
  score e' = (if eatsFood e then score e + 10 else score e) /\
  speed e' = (if eatsFood e && (speed e >? 50) then speed e - 2
              else speed e) /\
  (eatsFood e = true ->
   log e' = Rendered :: (if onScoreUpdate e
                         then [ScoreUpdated (score e + 10)] else []) ++ log e).
Proof.
  intros Hu. apply update_shape in Hu. revert Hu. unfold eatsFood.
  destruct (bool_decide (gameState e = PLAYING)); simpl;
    [|intros H; inversion H; subst; repeat split; discriminate].
  destruct (candidate e) as [c|]; [|discriminate].
  destruct (checkCollision c e).
  { intros H. inversion H; subst. destruct (ended_frame (commit e)) as [-> ->].
    destruct (food e); simpl; repeat split; discriminate. }
  destruct (food e) as [f|]; [|discriminate]. simpl.
  destruct (bool_decide (c = f)).
  - destruct (spawnFood (fed c e)) as [e1| |] eqn:Hspawn; try discriminate.
    simpl. intros H. inversion H; subst. clear H.
    apply spawnFood_Done in Hspawn as [g [rs' [_ ->]]]. simpl.
    destruct (fed_frame c e) as (_ & _ & _ & _ & F5 & _ & _ & F8 & F9 & _).
    rewrite F5, F8, F9. repeat split.
  - intros H. inversion H; subst. simpl. repeat split; discriminate.
Qed.

Lemma start_effect (e e' : Engine) :
  start e = Done e' ->
  if bool_decide (gameState e = GAME_OVER \/ gameState e = IDLE)
  then score e' = 0 /\ speed e' = 150
  else score e' = score e /\ speed e' = speed e.
Proof.
  unfold start. destruct (decide (gameState e = PLAYING)) as [Hp|Hp].
  - intros H. inversion H; subst.
    rewrite bool_decide_eq_false_2; [now split|].
    intros [Hq|Hq]; congruence.
  - destruct (decide (gameState e = GAME_OVER \/ gameState e = IDLE)) as [Hr|Hr].
    + rewrite bool_decide_eq_true_2 by assumption.
      destruct (reset e) as [e1| |] eqn:Hreset; try discriminate. simpl.
      intros H. inversion H; subst.
      apply reset_Done in Hreset as [_ [f [rs' [_ ->]]]]. now split.
    + rewrite bool_decide_eq_false_2 by assumption. simpl.
      intros H. inversion H; subst. now split.
Qed.

Lemma togglePause_frame (e : Engine) :
  score (togglePause e) = score e /\ speed (togglePause e) = speed e.
Proof.
  unfold togglePause. open_engine e.
  destruct (decide (gs = PLAYING)); [|destruct (decide (gs = PAUSED))];
    reduce_setters; destruct gl; split; reflexivity.
Qed.

(** The score and the speed after one action. *)
Lemma step_effect (a : Action) (e e' : Engine) :
  step a e = Done e' ->
  score e' = (if performsReset a e then 0
              else if eatingTick a e then score e + 10 else score e) /\
  speed e' = (if performsReset a e then 150
              else if eatingTick a e && (speed e >? 50) then speed e - 2
              else speed e).
Proof.
  destruct a as [s o| | | | |code|h]; simpl.
  - unfold init. destruct (reset (with_callbacks s o (with_ctx true e))) as [e1| |] eqn:Hr;
      try discriminate.
    simpl. intros H. inversion H; subst.
    apply reset_Done in Hr as [_ [f [rs' [_ ->]]]]. now split.
  - intros Hr. apply reset_Done in Hr as [_ [f [rs' [_ ->]]]]. now split.
  - intros H. apply start_effect in H.
    now destruct (bool_decide (gameState e = GAME_OVER \/ gameState e = IDLE)).
  - intros H. inversion H; subst. apply togglePause_frame.
  - intros H. inversion H; subst. unfold destroy. simpl.
    now destruct (gameLoop e).
  - destruct (listening e); simpl;
      [|intros H; inversion H; subst; now split].
    destruct (String.eqb code "Space") eqn:Hcode; simpl.
    + unfold handleKeyDown. rewrite Hcode.
      change (gameState (emit DefaultPrevented e)) with (gameState e).
      destruct (decide (gameState e = IDLE \/ gameState e = GAME_OVER)) as [Hr|Hr].
      * rewrite bool_decide_eq_true_2 by assumption.
        intros H. apply start_effect in H.
        rewrite bool_decide_eq_true_2 in H; [exact H|].
        change (gameState (emit DefaultPrevented e)) with (gameState e).
        destruct Hr; [now right|now left].
      * rewrite bool_decide_eq_false_2 by assumption.
        intros H. inversion H; subst.
        apply (togglePause_frame (emit DefaultPrevented e)).
    + apply String.eqb_neq in Hcode.
      destruct (movement_key code e Hcode) as (e1 & -> & _ & _ & _ & H1 & H2 & _).
      intros H. inversion H; subst. now split.
  - destruct (live h e); simpl;
      [|intros H; inversion H; subst; now split].
    intros H. apply update_effect in H as (H1 & H2 & _). now split.
Qed.

Lemma run_score (acts : list Action) :
  forall (e e' : Engine) (n : nat),
    score e = 10 * Z.of_nat n ->
    run acts e = Done e' ->
    score e' = 10 * Z.of_nat (eatenSinceReset acts e n).
Proof.
  induction acts as [|a rest IH]; intros e e' n Hn Hrun; simpl in *.
  - inversion Hrun; subst. assumption.
  - destruct (step a e) as [e1| |] eqn:Hstep; try discriminate.
    simpl in Hrun. apply (IH e1 e'); [|assumption].
    apply step_effect in Hstep as [Hs _]. rewrite Hs.
    destruct (performsReset a e); [reflexivity|].
    destruct (eatingTick a e); lia.
Qed.

Lemma run_speed (acts : list Action) :
  forall (e e' : Engine),
    sameGame acts e = true -> run acts e = Done e' -> speed e' <= speed e.
Proof.
  induction acts as [|a rest IH]; intros e e' Hsame Hrun; simpl in *.
  - inversion Hrun; subst. lia.
  - destruct (step a e) as [e1| |] eqn:Hstep; try discriminate.
    simpl in Hrun. apply andb_prop in Hsame as [Hnr Hsame].
    apply negb_true_iff in Hnr.
    apply step_effect in Hstep as [_ Hs]. rewrite Hnr in Hs.
    specialize (IH e1 e' Hsame Hrun).
    destruct (eatingTick a e && (speed e >? 50)); lia.
Qed.

(** *** Directions *)

Lemma opposite_differs (d : Direction) : d <> opposite d.
Proof. destruct d; discriminate. Qed.

Lemma update_direction (e e' : Engine) :
  update e = Done e' ->
  direction e' = if bool_decide (gameState e = PLAYING)
                 then nextDirection e else direction e.
Proof.
  intros Hu. apply update_shape in Hu. revert Hu.
  destruct (bool_decide (gameState e = PLAYING));
    [|intros H; now inversion H; subst].
  destruct (candidate e) as [c|]; [|discriminate].
  destruct (checkCollision c e).
  { intros H. inversion H; subst. unfold ended. open_engine e.
    destruct co, gl; reflexivity. }
  destruct (food e) as [f|]; [|discriminate].
  destruct (bool_decide (c = f)).
  - destruct (spawnFood (fed c e)) as [e1| |] eqn:Hspawn; try discriminate.
    cbv [bind]. intros H. inversion H; subst. clear H.
    apply spawnFood_Done in Hspawn as [g [rs' [_ ->]]]. reduce_fields.
    apply (fed_frame c e).
  - intros H. inversion H; subst. reflexivity.
Qed.

Lemma pressKeys_movement (codes : list string) :
  forall e : Engine,
    Forall (fun code => code <> "Space") codes ->
    exists e1, pressKeys codes e = Done e1 /\
      direction e1 = direction e /\
      (nextDirection e1 = nextDirection e \/
       nextDirection e1 <> opposite (direction e)) /\
      gameState e1 = gameState e.
Proof.
  induction codes as [|code rest IH]; intros e Hcodes.
  - exists e. repeat split. now left.
  - inversion Hcodes as [|? ? Hcode Hrest]; subst.
    destruct (movement_key code e Hcode) as (e0 & Hkey & K1 & K2 & K3 & _).
    destruct (IH e0 Hrest) as (e1 & Hkeys & R1 & R2 & R3).
    exists e1. cbn [pressKeys]. rewrite Hkey. cbv [bind].
    split; [exact Hkeys|]. split; [congruence|]. split; [|congruence].
    rewrite K1 in R2. destruct R2 as [R2|R2]; [|now right].
    rewrite R2. exact K2.
Qed.

(** C4. In a reachable state with committed direction [d], whatever keys
    other than the space bar are pressed before the next tick (the arrow
    and letter keys among them), they are all taken, the committed
    direction stays [d] until the tick, the pending direction is not the
    reverse of [d], and the direction the tick commits is the pending one,
    so never the reverse of [d]: after [RIGHT], never [LEFT]. *)
Theorem reverse_is_never_committed (e : Engine) (codes : list string) :
  reachable e ->
  Forall (fun code => code <> "Space") codes ->
  exists e1,
    pressKeys codes e = Done e1 /\
    direction e1 = direction e /\
    nextDirection e1 <> opposite (direction e) /\
    (forall e2, update e1 = Done e2 ->
       direction e2 <> opposite (direction e) /\
       (gameState e1 = PLAYING -> direction e2 = nextDirection e1) /\
       (direction e = RIGHT -> direction e2 <> LEFT)).
Proof.
  intros Hreach Hcodes.
  destruct (pressKeys_movement codes e Hcodes) as (e1 & Hkeys & R1 & R2 & R3).
  destruct (reachable_Inv e Hreach) as [_ _ _ _ Hd _ _].
  assert (Hpending : nextDirection e1 <> opposite (direction e)).
  { destruct R2 as [R2|R2]; [now rewrite R2|assumption]. }
  exists e1. split; [exact Hkeys|]. split; [exact R1|].
  split; [exact Hpending|].
  intros e2 Hupd. apply update_direction in Hupd.
  assert (Hrev : direction e2 <> opposite (direction e)).
  { rewrite Hupd. destruct (bool_decide (gameState e1 = PLAYING));
      [exact Hpending|]. rewrite R1. apply opposite_differs. }
  split; [exact Hrev|]. split.
  - intros Hplay. now rewrite Hupd, bool_decide_eq_true_2.
  - intros Hright. rewrite Hright in Hrev. exact Hrev.
Qed.

Lemma reverse_is_never_committed_after_up_then_left :
  exists e1,
    pressKeys ["ArrowUp"; "KeyA"] playingBoard = Done e1 /\
    direction e1 = direction playingBoard /\
    nextDirection e1 <> opposite (direction playingBoard) /\
    (forall e2, update e1 = Done e2 ->
       direction e2 <> opposite (direction playingBoard) /\
       (gameState e1 = PLAYING -> direction e2 = nextDirection e1) /\
       (direction playingBoard = RIGHT -> direction e2 <> LEFT)).
Proof.
  apply (reverse_is_never_committed playingBoard ["ArrowUp"; "KeyA"]).
  - apply (reachable_step CallStart idleBoard playingBoard);
      [|vm_compute; reflexivity].
    apply (reachable_init [1 # 4; 1 # 4; 1 # 2; 3 # 4] true true).
    vm_compute. reflexivity.
  - repeat constructor; discriminate.
Defined.

(** Each key is checked against the committed direction, not the pending
    one: with [RIGHT] committed and [UP] pending, [DOWN] is taken and
    [LEFT] is not. *)
Lemma keys_checked_against_committed :
  (let* e := pressKeys ["ArrowUp"; "ArrowDown"] playingBoard in
   Done (direction e, nextDirection e)) = Done (RIGHT, DOWN) /\
  (let* e := pressKeys ["ArrowUp"; "ArrowLeft"] playingBoard in
   Done (direction e, nextDirection e)) = Done (RIGHT, UP).
Proof. split; vm_compute; reflexivity. Qed.

Lemma playingBoard_reachable : reachable playingBoard.
Proof.
  apply (reachable_step CallStart idleBoard playingBoard);
    [|vm_compute; reflexivity].
  apply (reachable_init [1 # 4; 1 # 4; 1 # 2; 3 # 4] true true).
  vm_compute. reflexivity.
Qed.

Lemma run_app (acts1 acts2 : list Action) (e : Engine) :
  run (acts1 ++ acts2) e = let* e1 := run acts1 e in run acts2 e1.
Proof.
  revert e. induction acts1 as [|a rest IH]; intros e; [reflexivity|].
  cbn [app run]. destruct (step a e) as [e1| |]; cbv [bind]; [|reflexivity..].
  apply IH.
Qed.

Lemma run_reachable (acts : list Action) :
  forall e e' : Engine, reachable e -> run acts e = Done e' -> reachable e'.
Proof.
  induction acts as [|a rest IH]; intros e e' Hreach Hrun; cbn [run] in Hrun.
  - now inversion Hrun; subst.
  - destruct (step a e) as [e1| |] eqn:Hstep; try discriminate.
    apply (IH e1); [|exact Hrun]. now apply reachable_step with a e.
Qed.

(** The reachable states are the ends of the runs that follow [init]. *)
Lemma reachable_run (e : Engine) :
  reachable e <->
  exists rs cbScore cbOver acts e0,
    init cbScore cbOver (loaded rs) = Done e0 /\ run acts e0 = Done e.
Proof.
  split.
  - induction 1 as [rs s o e Hinit|a e e' _ IH Hstep].
    + now exists rs, s, o, [], e.
    + destruct IH as (rs & s & o & acts & e0 & Hinit & Hrun).
      exists rs, s, o, (acts ++ [a]), e0. split; [exact Hinit|].
      rewrite run_app, Hrun. cbv [bind]. cbn [run]. rewrite Hstep.
      reflexivity.
  - intros (rs & s & o & acts & e0 & Hinit & Hrun).
    apply (run_reachable acts e0); [|exact Hrun].
    now apply reachable_init with rs s o.
Qed.

(** *** Speed and score *)

(** C7. In every reachable state the speed lies between the floor of 50 ms
    and the initial 150 ms, which is what [reset] sets. An action that does
    not go through [reset] never raises the speed: a tick that eats lowers
    it by 2 ms while it is above the floor, and everything else leaves it
    alone; so along a run within one game the speed does not increase. And
    a tick that eats does return, with the speed lowered so, as soon as
    the first two samples name a cell off the snake it has grown to. *)
Theorem speed_falls_to_the_floor (e : Engine) :
  reachable e ->
  50 <= speed e <= 150 /\
  (forall e', reset e = Done e' -> speed e' = 150) /\
  (forall a e', step a e = Done e' -> performsReset a e = false ->
     speed e' <= speed e /\ 50 <= speed e' /\
     speed e' = if eatingTick a e && (speed e >? 50)
                then speed e - 2 else speed e) /\
  (forall acts e', sameGame acts e = true -> run acts e = Done e' ->
     speed e' <= speed e /\ 50 <= speed e') /\
  (forall (h : nat) (c : Segment) (rx ry : Q) (rs : list Q),
     eatingTick (TimerFires h) e = true ->
     candidate e = Some c ->
     entropy e = rx :: ry :: rs ->
     ~ In {| x := randomCoord rx; y := randomCoord ry |} (c :: snake e) ->
     exists e',
       step (TimerFires h) e = Done e' /\
       speed e' = (if speed e >? 50 then speed e - 2 else speed e) /\
       snake e' = c :: snake e /\
       food e' = Some {| x := randomCoord rx; y := randomCoord ry |}).
Proof.
  intros Hreach.
  assert (Hfloor : forall e0, reachable e0 -> 50 <= speed e0 <= 150).
  { intros e0 H0. destruct (reachable_Inv e0 H0) as [_ _ _ _ _ Hsp _].
    exact Hsp. }
  split; [now apply Hfloor|]. split; [|split; [|split]].
  - intros e' Hreset. now apply reset_Done in Hreset as [_ [f [rs' [_ ->]]]].
  - intros a e' Hstep Hno.
    pose proof (Hfloor e' (reachable_step a e e' Hreach Hstep)) as Hb.
    apply step_effect in Hstep as [_ Hs]. rewrite Hno in Hs.
    split; [|split; [lia|exact Hs]].
    destruct (eatingTick a e && (speed e >? 50)); lia.
  - intros acts e' Hsame Hrun. split; [now apply run_speed with acts|].
    apply Hfloor. now apply (run_reachable acts e).
  - intros h c rx ry rs Htick Hc Hrs Hfree.
    cbn [eatingTick] in Htick. apply andb_prop in Htick as [Hlive Heats].
    cbn [step]. rewrite Hlive.
    unfold eatsFood in Heats. apply andb_prop in Heats as [Hplay Heats].
    apply bool_decide_eq_true in Hplay. rewrite Hc in Heats.
    destruct (food e) as [f|] eqn:Hf; [|discriminate].
    apply andb_prop in Heats as [Hcol Hon].
    apply negb_true_iff in Hcol.
    rewrite (update_playing e c f (reachable_ctx e Hreach) Hplay Hc Hf),
      Hcol, Hon.
    destruct (fed_frame c e) as (F1 & _ & _ & _ & _ & _ & F7 & F8 & _).
    unfold spawnFood. rewrite F1, F7, Hrs. cbn [spawnLoop].
    apply onSnake_not_In in Hfree. rewrite Hfree. cbv [bind].
    eexists. split; [reflexivity|].
    reduce_fields. cbn [fst snd]. rewrite F1, F8.
    unfold CONFIG.minSpeed, CONFIG.speedIncrement. repeat split.
Qed.

Lemma speed_falls_to_the_floor_on_eating_tick :
  exists e',
    step (TimerFires 1) aheadBoard = Done e' /\
    speed e' = (if speed aheadBoard >? 50 then speed aheadBoard - 2
                else speed aheadBoard) /\
    snake e' = {| x := 11; y := 10 |} :: snake aheadBoard /\
    food e' = Some {| x := randomCoord (1 # 2); y := randomCoord (1 # 8) |}.
Proof.
  assert (Hreach : reachable aheadBoard).
  { apply (reachable_step CallStart
             (with_entropy [9 # 16; 1 # 2; 1 # 2; 1 # 8] idleBoard));
      [|vm_compute; reflexivity].
    apply (reachable_init shortGameSamples true true).
    vm_compute. reflexivity. }
  apply (proj2 (proj2 (proj2 (proj2
           (speed_falls_to_the_floor aheadBoard Hreach))))
           1%nat {| x := 11; y := 10 |} (1 # 2)%Q (1 # 8)%Q []).
  - vm_compute. reflexivity.
  - reflexivity.
  - reflexivity.
  - vm_compute. intros [H|[H|[H|[H|[]]]]]; discriminate H.
Defined.

(** The step of the invariant that needs the parity of the speed: from 52
    the speed goes to 50 and stays there. *)
Lemma speed_stops_at_floor :
  speed fedBoard = 148 /\
  (let* e := update (with_speed 52 foodAhead) in Done (speed e)) = Done 50 /\
  (let* e := update (with_speed 50 foodAhead) in Done (speed e)) = Done 50.
Proof. repeat split; vm_compute; reflexivity. Qed.

(** C8. After [init] and any run of actions, [getScore] is 10 times the
    number of food-eating ticks since the last reset, so a non-negative
    multiple of 10; it is 0 right after [reset]; and a tick that eats
    raises it by exactly 10 and calls the score callback, when one is
    registered, with the new score, before the render. *)
Theorem score_is_ten_per_food (rs : list Q) (cbScore cbOver : bool)
    (acts : list Action) (e0 e : Engine) :
  init cbScore cbOver (loaded rs) = Done e0 ->
  run acts e0 = Done e ->
  getScore e = 10 * Z.of_nat (eatenSinceReset acts e0 0) /\
  (forall e', reset e = Done e' -> getScore e' = 0) /\
  (forall e', eatsFood e = true -> update e = Done e' ->
     getScore e' = getScore e + 10 /\
     log e' = Rendered ::
              (if onScoreUpdate e then [ScoreUpdated (getScore e + 10)]
               else []) ++ log e).
Proof.
  intros Hinit Hrun. unfold getScore. split; [|split].
  - apply run_score; [|exact Hrun].
    apply init_Done in Hinit as (f & rs' & _ & ->). reflexivity.
  - intros e' Hreset. now apply reset_Done in Hreset as [_ [f [rs' [_ ->]]]].
  - intros e' Heats Hupd. apply update_effect in Hupd as (Hs & _ & Hl).
    rewrite Heats in Hs. split; [exact Hs|now apply Hl].
Qed.

Lemma score_is_ten_per_food_in_short_game :
  exists e0 e,
    init true true (loaded shortGameSamples) = Done e0 /\
    run shortGame e0 = Done e /\
    eatenSinceReset shortGame e0 0 = 1%nat /\
    getScore e = 10 * Z.of_nat (eatenSinceReset shortGame e0 0).
Proof.
  eexists. eexists.
  split; [vm_compute; reflexivity|].
  split; [vm_compute; reflexivity|].
  split; [vm_compute; reflexivity|].
  refine (proj1 (score_is_ten_per_food shortGameSamples true true shortGame
                   _ _ _ _)); vm_compute; reflexivity.
Defined.

(** *** Starting and the space bar *)

Lemma start_fresh (e : Engine) :
  gameState e = IDLE \/ gameState e = GAME_OVER ->
  start e = let* r := spawnLoop initialSnake (entropy e) in
            if ctx e then Done (started e (fst r) (snd r)) else Throws.
Proof.
  intros Hfresh. unfold start, reset, spawnFood, started, render.
  open_engine e.
  destruct (decide (gs = PLAYING)) as [Hp|_];
    [destruct Hfresh; congruence|].
  destruct (decide (gs = GAME_OVER \/ gs = IDLE)) as [_|Hn];
    [|exfalso; apply Hn; destruct Hfresh; [now right|now left]].
  destruct gl as [h|]; reduce_setters;
    destruct (spawnLoop initialSnake en) as [[f rs']| |];
    try reflexivity; destruct ct; reflexivity.
Qed.

Lemma start_paused (e : Engine) :
  gameState e = PAUSED ->
  start e = Done (setInterval (speed e) (with_gameState PLAYING e)).
Proof.
  intros Hp. unfold start.
  destruct (decide (gameState e = PLAYING)); [congruence|].
  destruct (decide (gameState e = GAME_OVER \/ gameState e = IDLE))
    as [[Hg|Hg]|_]; [congruence|congruence|reflexivity].
Qed.

(** C1, as the code has it. [start] from [IDLE] goes through [reset] just
    as it does from [GAME_OVER]: the snake is re-created, the food is
    drawn again from new samples, the score and the speed are set back, a
    render is made; then the state is playing and a new timer ticks at the
    initial speed. It returns exactly when the food loop does and [init]
    has set the canvas context; before [init] the render of [reset]
    raises and [start] does not return. From [PAUSED] there is no reset: the
    snake, the food, the score, the speed, the directions and the samples
    are kept, the state is playing and a new timer ticks at the current
    speed. From [PLAYING] it changes nothing. *)
Theorem start_resets_from_idle_too (e : Engine) :
  (gameState e = PLAYING -> start e = Done e) /\
  (gameState e = IDLE \/ gameState e = GAME_OVER ->
     start e = (let* r := spawnLoop initialSnake (entropy e) in
                if ctx e then Done (started e (fst r) (snd r)) else Throws) /\
     forall e', start e = Done e' ->
       ctx e = true /\
       snake e' = initialSnake /\ score e' = 0 /\ speed e' = 150 /\
       direction e' = RIGHT /\ nextDirection e' = RIGHT /\
       gameState e' = PLAYING /\
       gameLoop e' = Some (nextTimer e) /\
       In (nextTimer e, 150) (timers e') /\
       log e' = Rendered :: log e /\
       exists f rs',
         spawnLoop initialSnake (entropy e) = Done (f, rs') /\
         food e' = Some f /\ entropy e' = rs') /\
  (gameState e = PAUSED ->
     exists e', start e = Done e' /\
       snake e' = snake e /\ food e' = food e /\ score e' = score e /\
       speed e' = speed e /\ direction e' = direction e /\
       nextDirection e' = nextDirection e /\ entropy e' = entropy e /\
       log e' = log e /\
       gameState e' = PLAYING /\
       gameLoop e' = Some (nextTimer e) /\
       timers e' = (nextTimer e, speed e) :: timers e).
Proof.
  split; [|split].
  - intros Hp. unfold start. now destruct (decide (gameState e = PLAYING)).
  - intros Hfresh. split; [now apply start_fresh|].
    intros e'. rewrite (start_fresh e Hfresh).
    destruct (spawnLoop initialSnake (entropy e)) as [[f rs']| |];
      try discriminate.
    cbv [bind fst snd]. destruct (ctx e); [|discriminate].
    intros H. inversion H; subst. clear H.
    unfold started. cbn.
    repeat split; try reflexivity; [now left|].
    exists f, rs'. repeat split.
  - intros Hp. rewrite (start_paused e Hp). eexists. split; [reflexivity|].
    repeat split.
Qed.

Lemma start_resets_from_idle_too_on_first_board :
  start idleBoard = (let* r := spawnLoop initialSnake (entropy idleBoard) in
                     if ctx idleBoard
                     then Done (started idleBoard (fst r) (snd r))
                     else Throws) /\
  forall e', start idleBoard = Done e' ->
    ctx idleBoard = true /\
    snake e' = initialSnake /\ score e' = 0 /\ speed e' = 150 /\
    direction e' = RIGHT /\ nextDirection e' = RIGHT /\
    gameState e' = PLAYING /\
    gameLoop e' = Some (nextTimer idleBoard) /\
    In (nextTimer idleBoard, 150) (timers e') /\
    log e' = Rendered :: log idleBoard /\
    exists f rs',
      spawnLoop initialSnake (entropy idleBoard) = Done (f, rs') /\
      food e' = Some f /\ entropy e' = rs'.
Proof.
  apply (proj1 (proj2 (start_resets_from_idle_too idleBoard))).
  left. reflexivity.
Defined.

(** Before [init] there is no canvas context: [start] goes into [reset],
    whose render raises, so that it never returns; and out of a pause it
    keeps the board that a reset from idle would replace. *)
Lemma start_before_init_and_from_pause :
  start (loaded [1 # 4; 1 # 4]) = Throws /\
  start (with_gameState PAUSED fedBoard)
    = Done (with_gameLoop (Some 3%nat)
              (with_timers [(3%nat, 148); (2%nat, 148)] 4
                 (with_gameState PLAYING fedBoard))).
Proof. split; vm_compute; reflexivity. Qed.

(** C1 as stated fails: [idleBoard] is the state [init] leaves, idle with
    the food on (5, 5); [start] draws the food again and puts it on
    (10, 15), using up the two samples and rendering once more. *)
Lemma start_from_idle_draws_the_food_again :
  init true true (loaded [1 # 4; 1 # 4; 1 # 2; 3 # 4]) = Done idleBoard /\
  gameState idleBoard = IDLE /\
  start idleBoard = Done playingBoard /\
  food idleBoard = Some {| x := 5; y := 5 |} /\
  food playingBoard = Some {| x := 10; y := 15 |} /\
  food playingBoard <> food idleBoard /\
  entropy playingBoard <> entropy idleBoard /\
  log playingBoard = Rendered :: log idleBoard.
Proof.
  repeat split; try (vm_compute; reflexivity); discriminate.
Qed.

(** C2, as the code has it. [handleKeyDown] takes the space bar itself: it
    prevents the default action and then, from [IDLE] and [GAME_OVER],
    does what [start] does, reset included (with its render, which needs
    the canvas context that [init] sets); from [PLAYING] it pauses and
    clears the timer; from [PAUSED] it resumes on a new timer at the
    current speed. Pausing and resuming leave the snake, the food, the
    score, the speed and both directions alone. Any other key changes at
    most the pending direction. *)
Theorem space_bar_is_handled_by_the_engine (e : Engine) :
  (gameState e = IDLE \/ gameState e = GAME_OVER ->
     handleKeyDown "Space" e =
       let* r := spawnLoop initialSnake (entropy e) in
       if ctx e then Done (started (emit DefaultPrevented e) (fst r) (snd r))
       else Throws) /\
  (gameState e = PLAYING \/ gameState e = PAUSED ->
     exists e', handleKeyDown "Space" e = Done e' /\
       gameState e' = (if decide (gameState e = PLAYING)
                       then PAUSED else PLAYING) /\
       gameLoop e' = (if decide (gameState e = PLAYING)
                      then None else Some (nextTimer e)) /\
       timers e' = (if decide (gameState e = PLAYING)
                    then match gameLoop e with
                         | Some h => filter (fun t => fst t <> h) (timers e)
                         | None => timers e
                         end
                    else (nextTimer e, speed e) :: timers e) /\
       snake e' = snake e /\ food e' = food e /\ score e' = score e /\
       speed e' = speed e /\ direction e' = direction e /\
       nextDirection e' = nextDirection e /\ entropy e' = entropy e /\
       log e' = DefaultPrevented :: log e) /\
  (forall code, code <> "Space" ->
     exists e', handleKeyDown code e = Done e' /\
       gameState e' = gameState e /\ snake e' = snake e /\
       food e' = food e /\ score e' = score e /\ speed e' = speed e /\
       direction e' = direction e /\ timers e' = timers e /\
       gameLoop e' = gameLoop e).
Proof.
  split; [|split].
  - intros Hfresh.
    transitivity (start (emit DefaultPrevented e));
      [|exact (start_fresh (emit DefaultPrevented e) Hfresh)].
    unfold handleKeyDown. cbn [String.eqb Ascii.eqb Bool.eqb].
    change (gameState (emit DefaultPrevented e)) with (gameState e).
    now destruct (decide (gameState e = IDLE \/ gameState e = GAME_OVER)).
  - intros Hrun. unfold handleKeyDown. cbn [String.eqb Ascii.eqb Bool.eqb].
    change (gameState (emit DefaultPrevented e)) with (gameState e).
    destruct (decide (gameState e = IDLE \/ gameState e = GAME_OVER))
      as [[Hi|Hi]|_]; [destruct Hrun; congruence|destruct Hrun; congruence|].
    eexists. split; [reflexivity|]. unfold togglePause. open_engine e.
    destruct (decide (gs = PLAYING)) as [Hp|Hp].
    + reduce_setters. destruct gl; repeat split; reflexivity.
    + destruct (decide (gs = PAUSED)) as [Hq|Hq];
        [|destruct Hrun; congruence].
      repeat split; reflexivity.
  - intros code Hcode.
    destruct (movement_key code e Hcode)
      as (e' & Hk & K1 & _ & K3 & K4 & K5 & K6 & K7 & K8 & K9 & _).
    exists e'. repeat split; assumption.
Qed.

Lemma space_bar_is_handled_by_the_engine_when_idle :
  handleKeyDown "Space" idleBoard =
    let* r := spawnLoop initialSnake (entropy idleBoard) in
    if ctx idleBoard
    then Done (started (emit DefaultPrevented idleBoard) (fst r) (snd r))
    else Throws.
Proof.
  apply (proj1 (space_bar_is_handled_by_the_engine idleBoard)).
  left. reflexivity.
Defined.

(** C2 as stated fails: the space bar takes the idle engine to playing,
    with the food drawn again and a timer running, and pauses a playing
    one. *)
Lemma space_bar_starts_the_idle_engine :
  gameState idleBoard = IDLE /\
  handleKeyDown "Space" idleBoard
    = Done (started (emit DefaultPrevented idleBoard)
              {| x := 10; y := 15 |} []) /\
  gameState (started (emit DefaultPrevented idleBoard)
               {| x := 10; y := 15 |} []) = PLAYING /\
  timers (started (emit DefaultPrevented idleBoard)
            {| x := 10; y := 15 |} []) = [(1%nat, 150)] /\
  (let* e := handleKeyDown "Space" playingBoard in
   Done (gameState e, gameLoop e, timers e)) = Done (PAUSED, None, []).
Proof.
  repeat split; vm_compute; reflexivity.
Qed.

End EngineFacts.

(** ** Properties of the login *)

Module AuthFacts.
Import Storage Auth.

Lemma getData_stored (h : Host) :
  readable h -> getData h = Done (Shaped (stored h)).
Proof. unfold readable, getData, stored. now destruct (item h). Qed.

Lemma getData_strange (h : Host) (f : Foreign) :
  item h = Strange f -> getData h = Done (Unshaped f).
Proof. intros H. unfold getData. now rewrite H. Qed.

Lemma stored_saved (d : Data) (h : Host) : stored (saved d h) = d.
Proof. reflexivity. Qed.

Lemma readable_saved (d : Data) (h : Host) : readable (saved d h).
Proof. exact I. Qed.

(** A host holding a record or a current user holds data with them. *)
Lemma readable_lookup (h : Host) (name : string) (u : User) :
  users (stored h) !! name = Some u -> readable h.
Proof.
  unfold readable, stored. destruct (item h); try (intros _; exact I).
  cbn [getDefaultData users]. now rewrite lookup_empty.
Qed.

Lemma readable_current (h : Host) (name : string) :
  currentUser (stored h) = Some name -> readable h.
Proof.
  unfold readable, stored. destruct (item h); try (intros _; exact I).
  discriminate.
Qed.

Ltac solve_readable :=
  first [ assumption | exact I | apply readable_saved
        | eapply readable_lookup; eassumption
        | eapply readable_current; eassumption ].

Lemma getUser_stored (username : string) (h : Host) :
  readable h ->
  getUser username h = Done (getProperty (users (stored h)) username).
Proof. intros Hr. unfold getUser. now rewrite getData_stored. Qed.

Lemma verifyPassword_stored (username pass : string) (h : Host) :
  readable h ->
  verifyPassword username pass h =
    Done match getProperty (users (stored h)) username with
         | Own u => String.eqb (password u) (simpleHash pass)
         | _ => false
         end.
Proof.
  intros Hr. unfold verifyPassword. rewrite getUser_stored by exact Hr.
  cbv [bind]. now destruct (getProperty (users (stored h)) username).
Qed.

Lemma createUser_stored (username pass : string) (h : Host) :
  readable h ->
  createUser username pass h =
    Done (newUser pass h,
          saved {| users := setProperty (users (stored h)) username
                              (newUser pass h);
                   currentUser := currentUser (stored h) |} h).
Proof. intros Hr. unfold createUser. now rewrite getData_stored. Qed.

Lemma setCurrentUser_stored (username : option string) (h : Host) :
  readable h ->
  setCurrentUser username h =
    Done (saved {| users := users (stored h); currentUser := username |} h).
Proof. intros Hr. unfold setCurrentUser. now rewrite getData_stored. Qed.

Lemma updateLoginTime_own (username : string) (u : User) (h : Host) :
  readable h ->
  getProperty (users (stored h)) username = Own u ->
  updateLoginTime username h =
    Done (saved {| users := <[username := touched u h]> (users (stored h));
                   currentUser := currentUser (stored h) |} h).
Proof.
  intros Hr Hown. unfold updateLoginTime. rewrite getData_stored by exact Hr.
  cbv [bind usersAt usersOf]. now rewrite Hown.
Qed.

(** On a JSON text of another shape every read of [data.users] raises. *)
Lemma getUser_strange (username : string) (h : Host) (f : Foreign) :
  item h = Strange f -> getUser username h = Throws.
Proof.
  intros H. unfold getUser. rewrite (getData_strange h f H).
  now destruct f.
Qed.

Lemma length_zero (s : string) : String.length s = 0%nat <-> s = "".
Proof. destruct s; split; intros H; try reflexivity; discriminate. Qed.

(** The guard on the user name: [!username || username.trim().length === 0]. *)
Lemma username_guard (username : string) :
  String.eqb username "" || (String.length (trim username) =? 0)%nat = true
  <-> trim username = "".
Proof.
  rewrite orb_true_iff, String.eqb_eq, Nat.eqb_eq, length_zero.
  split; [|now right]. intros [->|H]; [reflexivity|exact H].
Qed.

(** The guard on the secret: [!password || password.length < 3]. *)
Lemma password_guard (pass : string) :
  String.eqb pass "" || (String.length pass <? 3)%nat = true
  <-> (String.length pass < 3)%nat.
Proof.
  rewrite orb_true_iff, String.eqb_eq, Nat.ltb_lt.
  split; [|now right]. intros [->|H]; [cbn; lia|exact H].
Qed.

(** [login] past its two guards, by what [data.users[name]] holds. *)
Lemma login_known (username pass : string) (h : Host) :
  readable h ->
  trim username <> "" -> (3 <= String.length pass)%nat ->
  login username pass h =
    match getProperty (users (stored h)) (trim username) with
    | Own u =>
        if String.eqb (password u) (simpleHash pass)
        then Done (loggedIn,
                   saved {| users := <[trim username := touched u h]>
                                       (users (stored h));
                            currentUser := Some (trim username) |} h)
        else Done (failure msgWrongPassword, h)
    | Inherited => Done (failure msgWrongPassword, h)
    | Undefined =>
        Done (registered,
              saved {| users := setProperty (users (stored h))
                                  (trim username) (newUser pass h);
                       currentUser := Some (trim username) |} h)
    end.
Proof.
  intros Hr Hname Hpass. unfold login.
  destruct (String.eqb username "" || (String.length (trim username) =? 0)%nat)
    eqn:Hg1; [now apply username_guard in Hg1|].
  destruct (String.eqb pass "" || (String.length pass <? 3)%nat)
    eqn:Hg2; [apply password_guard in Hg2; lia|].
  rewrite getUser_stored, verifyPassword_stored by exact Hr. cbv [bind].
  destruct (getProperty (users (stored h)) (trim username)) as [u| |] eqn:Hp.
  - destruct (String.eqb (password u) (simpleHash pass)); [|reflexivity].
    rewrite (updateLoginTime_own _ u _ Hr Hp).
    rewrite setCurrentUser_stored by solve_readable.
    reflexivity.
  - reflexivity.
  - rewrite createUser_stored by exact Hr. cbv [snd].
    rewrite setCurrentUser_stored by solve_readable.
    reflexivity.
Qed.

(** [login] on a JSON text of another shape: past its two guards it
    raises. *)
Lemma login_strange (username pass : string) (h : Host) (f : Foreign) :
  item h = Strange f ->
  login username pass h =
    if String.eqb (trim username) "" then Done (failure msgNoUsername, h)
    else if (String.length pass <? 3)%nat
         then Done (failure msgShortPassword, h)
         else Throws.
Proof.
  intros Hf. unfold login.
  destruct (String.eqb_spec (trim username) "") as [Hblank|Hname].
  - apply username_guard in Hblank. now rewrite Hblank.
  - destruct (String.eqb username ""
              || (String.length (trim username) =? 0)%nat) eqn:Hg1;
      [now apply username_guard in Hg1|].
    destruct (String.eqb pass "" || (String.length pass <? 3)%nat) eqn:Hg2.
    + apply password_guard in Hg2. apply Nat.ltb_lt in Hg2. now rewrite Hg2.
    + destruct (Nat.ltb_spec (String.length pass) 3) as [Hshort|Hlong].
      * rewrite orb_true_r in Hg2. discriminate Hg2.
      * now rewrite (getUser_strange _ h f Hf).
Qed.

Lemma getProperty_own (o : gmap string User) (k : string) (u : User) :
  o !! k = Some u -> getProperty o k = Own u.
Proof. intros H. unfold getProperty. now rewrite H. Qed.

Lemma getProperty_absent (o : gmap string User) (k : string) :
  o !! k = None -> k ∉ Object_prototype -> getProperty o k = Undefined.
Proof.
  intros H Hk. unfold getProperty. rewrite H.
  now rewrite bool_decide_eq_false_2.
Qed.

Lemma setProperty_absent (o : gmap string User) (k : string) (u : User) :
  o !! k = None -> k ∉ Object_prototype -> setProperty o k u = <[k := u]> o.
Proof.
  intros H Hk. unfold setProperty. rewrite H.
  destruct (String.eqb k "__proto__") eqn:Heq; [|reflexivity].
  apply String.eqb_eq in Heq. subst k. exfalso. apply Hk.
  unfold Object_prototype. set_solver.
Qed.

(** C9, as the code has it. When the item is missing, is not JSON or is
    what the module wrote, [login] returns a result and does not raise.
    An empty or all-blank user name gives a failure with the
    message asking for a name, and, failing that, a secret of fewer than 3
    characters gives a failure with the message on its length; the store
    is untouched by both. Otherwise, with [name] the trimmed user name: a
    name that is neither stored nor a property name of [Object.prototype]
    is registered, with success and [isNewUser] true; a stored name logs
    in, with [isNewUser] false and only [lastLogin] of its record changed,
    when the hash of the secret is the stored one, and gets the
    wrong-password failure with the store untouched when the hash differs.
    Every failure carries a message that is not empty. *)
Theorem login_reports_and_never_throws (username pass : string) (h : Host) :
  readable h ->
  exists r h',
    login username pass h = Done (r, h') /\
    (success r = false -> message r <> "" /\ h' = h) /\
    (trim username = "" -> r = failure msgNoUsername) /\
    (trim username <> "" -> (String.length pass < 3)%nat ->
       r = failure msgShortPassword) /\
    (trim username <> "" -> (3 <= String.length pass)%nat ->
       match users (stored h) !! trim username with
       | Some u =>
           if String.eqb (password u) (simpleHash pass)
           then r = loggedIn /\
                stored h' =
                  {| users := <[trim username := touched u h]>
                                (users (stored h));
                     currentUser := Some (trim username) |}
           else r = failure msgWrongPassword /\ h' = h
       | None =>
           trim username ∉ Object_prototype ->
           r = registered /\
           stored h' =
             {| users := <[trim username := newUser pass h]>
                           (users (stored h));
                currentUser := Some (trim username) |}
       end).
Proof.
  intros Hr.
  destruct (String.eqb username "" || (String.length (trim username) =? 0)%nat)
    eqn:Hg1.
  { exists (failure msgNoUsername), h. unfold login. rewrite Hg1.
    apply username_guard in Hg1.
    repeat split; try reflexivity; try discriminate; intros; congruence. }
  assert (Hname : trim username <> "").
  { intros Habs. apply username_guard in Habs. congruence. }
  destruct (String.eqb pass "" || (String.length pass <? 3)%nat) eqn:Hg2.
  { exists (failure msgShortPassword), h. unfold login. rewrite Hg1, Hg2.
    apply password_guard in Hg2.
    repeat split; try reflexivity; try discriminate; try congruence.
    intros _ Hlong. lia. }
  assert (Hpass : (3 <= String.length pass)%nat).
  { destruct (le_lt_dec 3 (String.length pass)) as [Hle|Hlt]; [exact Hle|].
    apply password_guard in Hlt. congruence. }
  rewrite (login_known username pass h Hr Hname Hpass).
  destruct (users (stored h) !! trim username) as [u|] eqn:Hlook.
  - rewrite (getProperty_own _ _ u Hlook).
    destruct (String.eqb (password u) (simpleHash pass)).
    + eexists. eexists. split; [reflexivity|].
      repeat split; try discriminate; try congruence; intros; lia.
    + eexists. eexists. split; [reflexivity|].
      repeat split; try discriminate; try congruence; intros; lia.
  - unfold getProperty. rewrite Hlook.
    destruct (bool_decide_reflect (trim username ∈ Object_prototype))
      as [Hin|Hout].
    + eexists. eexists. split; [reflexivity|].
      repeat split; try discriminate; try congruence; try (intros; lia).
    + eexists. eexists. split; [reflexivity|].
      repeat split; try discriminate; try congruence; try (intros; lia).
      rewrite stored_saved.
      now rewrite (setProperty_absent _ _ _ Hlook Hout).
Qed.

Lemma login_reports_and_never_throws_for_alice :
  exists r h',
    login " alice " "abc" emptyHost = Done (r, h') /\
    (success r = false -> message r <> "" /\ h' = emptyHost) /\
    (trim " alice " = "" -> r = failure msgNoUsername) /\
    (trim " alice " <> "" -> (String.length "abc" < 3)%nat ->
       r = failure msgShortPassword) /\
    (trim " alice " <> "" -> (3 <= String.length "abc")%nat ->
       match users (stored emptyHost) !! trim " alice " with
       | Some u =>
           if String.eqb (password u) (simpleHash "abc")
           then r = loggedIn /\
                stored h' =
                  {| users := <[trim " alice " := touched u emptyHost]>
                                (users (stored emptyHost));
                     currentUser := Some (trim " alice ") |}
           else r = failure msgWrongPassword /\ h' = emptyHost
       | None =>
           trim " alice " ∉ Object_prototype ->
           r = registered /\
           stored h' =
             {| users := <[trim " alice " := newUser "abc" emptyHost]>
                           (users (stored emptyHost));
                currentUser := Some (trim " alice ") |}
       end).
Proof.
  exact (login_reports_and_never_throws " alice " "abc" emptyHost I).
Defined.

(** The scenario of the design document: ["alice"] registers with
    ["abc"]; a second call with ["abc"] logs in and keeps the record, but
    for its login time; a call with ["abd"] is refused. *)
Lemma alice_registers_then_logs_in :
  login "alice" "abc" emptyHost = Done (registered, aliceHost "abc") /\
  (let* r := login "alice" "abc" (aliceHost "abc") in Done (fst r))
    = Done loggedIn /\
  login "alice" "abd" (aliceHost "abc")
    = Done (failure msgWrongPassword, aliceHost "abc") /\
  login "" "abc" emptyHost = Done (failure msgNoUsername, emptyHost) /\
  login "   " "abc" emptyHost = Done (failure msgNoUsername, emptyHost) /\
  login "alice" "ab" emptyHost = Done (failure msgShortPassword, emptyHost).
Proof.
  repeat split; vm_compute; reflexivity.
Qed.

(** C9 as stated fails three times. [login] raises when the item is a
    JSON text of another shape: on [null], on a number or an array, on an
    object without [users], the read of [data.users[name]] in [getUser]
    is not caught. An unknown name that [Object.prototype] defines is not
    registered but refused as a wrong secret. And it fails on the secret:
    [simpleHash] sends ["Aaa"] and ["BBa"] to the same hash, so after
    ["alice"] has registered with ["Aaa"] the wrong secret ["BBa"] logs
    in. *)
Lemma login_raises_on_null_and_takes_a_colliding_secret :
  login "alice" "abc" (strangeHost JsonNull) = Throws /\
  login "alice" "abc" (strangeHost JsonBare) = Throws /\
  login "alice" "abc" (strangeHost (JsonObject Missing)) = Throws /\
  users (stored emptyHost) !! "constructor" = None /\
  login "constructor" "abc" emptyHost
    = Done (failure msgWrongPassword, emptyHost) /\
  "BBa" <> "Aaa" /\
  simpleHash "BBa" = simpleHash "Aaa" /\
  login "alice" "Aaa" emptyHost = Done (registered, aliceHost "Aaa") /\
  (let* r := login "alice" "BBa" (aliceHost "Aaa") in Done (fst r))
    = Done loggedIn.
Proof.
  repeat split; try discriminate; vm_compute; reflexivity.
Qed.

(** A name that [Object.prototype] defines is taken for a stored user
    although nobody registered it: the first login with it is refused as
    a wrong password, and nothing is stored. *)
Lemma inherited_name_is_never_registered :
  users (stored emptyHost) !! "constructor" = None /\
  login "constructor" "abc" emptyHost
    = Done (failure msgWrongPassword, emptyHost) /\
  login "toString" "secret" emptyHost
    = Done (failure msgWrongPassword, emptyHost).
Proof.
  repeat split; vm_compute; reflexivity.
Qed.

End AuthFacts.

(** ** The board along a run *)

Module BoardFacts.
Import SnakeGame Runs Board EngineFacts.

Lemma Done_inj {A : Type} (a b : A) : Done a = Done b -> a = b.
Proof. intros H. now inversion H. Qed.

(** *** Lists without their last element *)

Lemma removelast_In {A : Type} (a : A) (l : list A) :
  In a (removelast l) -> In a l.
Proof.
  induction l as [|b l IH]; [intros []|].
  destruct l as [|c l]; [intros []|].
  change (removelast (b :: c :: l)) with (b :: removelast (c :: l)).
  intros [Heq|Hin]; [now left|right; now apply IH].
Qed.

Lemma removelast_NoDup {A : Type} (l : list A) :
  NoDup l -> NoDup (removelast l).
Proof.
  induction l as [|b l IH]; [intros H; exact H|].
  destruct l as [|c l]; [intros _; constructor|].
  change (removelast (b :: c :: l)) with (b :: removelast (c :: l)).
  intros H. apply NoDup_cons in H as [Hb Hl].
  apply NoDup_cons. split; [|now apply IH].
  rewrite list_elem_of_In in *.
  intros Hin. apply Hb. now apply removelast_In.
Qed.

Lemma removelast_Forall {A : Type} (P : A -> Prop) (l : list A) :
  Forall P l -> Forall P (removelast l).
Proof.
  intros H. rewrite List.Forall_forall in *.
  intros a Ha. apply H. now apply removelast_In.
Qed.

Lemma removelast_connected (body : list Segment) :
  connected body -> connected (removelast body).
Proof.
  induction body as [|a body IH]; [intros H; exact H|].
  destruct body as [|b body]; [intros _; exact I|].
  change (removelast (a :: b :: body)) with (a :: removelast (b :: body)).
  intros [Hab Hrest]. split; [|now apply IH].
  destruct body as [|c body]; [exact I|exact Hab].
Qed.

(** *** The food loop, whatever the samples *)

Lemma spawnLoop_free (body : list Segment) (rs rs' : list Q) (f : Segment) :
  spawnLoop body rs = Done (f, rs') -> ~ In f body.
Proof.
  revert rs' f.
  induction rs as [rs IH] using (induction_ltof1 _ (@List.length Q)).
  unfold ltof in IH. intros rs' f Hrun.
  destruct rs as [|rx [|ry rest]]; cbn [spawnLoop] in Hrun; try discriminate.
  destruct (onSnake body {| x := randomCoord rx; y := randomCoord ry |})
    eqn:Hocc.
  - apply (IH rest) with rs'; [cbn; lia|exact Hrun].
  - inversion Hrun; subst. now apply onSnake_not_In.
Qed.

(** *** The shape of the board is kept *)

Lemma Shape_frame (e e' : Engine) :
  snake e' = snake e -> food e' = food e -> score e' = score e ->
  speed e' = speed e -> direction e' = direction e ->
  (gameState e' <> GAME_OVER -> gameState e <> GAME_OVER) ->
  Shape e -> Shape e'.
Proof.
  intros Hs Hf Hsc Hsp Hd Hg [B N C F S L V K].
  split; rewrite ?Hs, ?Hf, ?Hsc, ?Hsp; try assumption.
  intros Hlive. destruct (K (Hg Hlive)) as (head & neck & rest & K1 & K2 & K3).
  exists head, neck, rest. now rewrite Hs, Hd.
Qed.

Lemma initialSnake_free (f : Segment) :
  ~ In f initialSnake ->
  forall e : Engine,
    snake e = initialSnake -> food e = Some f -> score e = 0 ->
    speed e = 150 -> direction e = RIGHT -> Shape e.
Proof.
  intros Hfree e Hs Hf Hsc Hsp Hd. split; rewrite ?Hs, ?Hsc, ?Hsp.
  - unfold initialSnake, inBounds, startX, startY, CONFIG.gridSize.
    change (20 `div` 2) with 10.
    repeat (apply List.Forall_cons; [cbn [x y]; lia|]). apply List.Forall_nil.
  - unfold initialSnake, startX, startY, CONFIG.gridSize.
    repeat (apply NoDup_cons; split); try apply NoDup_nil_2;
      rewrite list_elem_of_In; cbn; intros H;
      repeat (destruct H as [H|H]; [discriminate H|]); exact H.
  - unfold initialSnake, startX, startY, CONFIG.gridSize, adjacent.
    cbn. repeat split; lia.
  - intros g Hg. rewrite Hf in Hg. now inversion Hg; subst.
  - lia.
  - reflexivity.
  - reflexivity.
  - intros _. eexists _, _, _. rewrite Hs, Hd. split; [reflexivity|].
    unfold startX, startY, CONFIG.gridSize. cbn. split; reflexivity.
Qed.

Lemma reset_Shape (e e' : Engine) : reset e = Done e' -> Shape e'.
Proof.
  intros Hr. apply reset_Done in Hr as [_ [f [rs' [Hloop ->]]]].
  apply (initialSnake_free f); try reflexivity.
  now apply spawnLoop_free in Hloop.
Qed.

Lemma togglePause_board (e : Engine) :
  snake (togglePause e) = snake e /\ food (togglePause e) = food e /\
  score (togglePause e) = score e /\ speed (togglePause e) = speed e /\
  direction (togglePause e) = direction e /\
  nextDirection (togglePause e) = nextDirection e /\
  entropy (togglePause e) = entropy e /\ log (togglePause e) = log e /\
  listening (togglePause e) = listening e /\
  (gameState (togglePause e) <> GAME_OVER -> gameState e <> GAME_OVER).
Proof.
  unfold togglePause. open_engine e.
  destruct (decide (gs = PLAYING)); [|destruct (decide (gs = PAUSED))];
    reduce_setters; destruct gl; repeat split; congruence.
Qed.

Lemma togglePause_Shape (e : Engine) : Shape e -> Shape (togglePause e).
Proof.
  destruct (togglePause_board e) as (T1 & T2 & T3 & T4 & T5 & _ & _ & _ & _ & T6).
  now apply Shape_frame.
Qed.

Lemma destroy_Shape (e : Engine) : Shape e -> Shape (destroy e).
Proof.
  apply Shape_frame; unfold destroy; open_engine e; destruct gl;
    try reflexivity; intros H; exact H.
Qed.

Lemma start_Shape (e e' : Engine) : Shape e -> start e = Done e' -> Shape e'.
Proof.
  intros HS.
  destruct (decide (gameState e = IDLE \/ gameState e = GAME_OVER)) as [Hf|Hf].
  - rewrite (start_fresh e Hf).
    destruct (spawnLoop initialSnake (entropy e)) as [[f rs']| |] eqn:Hloop;
      try discriminate.
    cbv [bind fst snd]. destruct (ctx e); [|discriminate]. intros H. inversion H; subst.
    apply (initialSnake_free f); try reflexivity.
    now apply spawnLoop_free in Hloop.
  - unfold start. destruct (decide (gameState e = PLAYING)) as [Hp|Hp].
    { intros H. now inversion H; subst. }
    destruct (decide (gameState e = GAME_OVER \/ gameState e = IDLE))
      as [[Hg|Hg]|_]; [exfalso; apply Hf; now right|
                        exfalso; apply Hf; now left|].
    cbv [bind]. intros H. inversion H; subst.
    revert HS. apply Shape_frame; try reflexivity.
    intros _ Hover. apply Hf. now right.
Qed.

Lemma handleKeyDown_Shape (code : string) (e e' : Engine) :
  Shape e -> handleKeyDown code e = Done e' -> Shape e'.
Proof.
  intros HS. destruct (String.eqb code "Space") eqn:Hcode.
  - unfold handleKeyDown. rewrite Hcode.
    assert (HS' : Shape (emit DefaultPrevented e)).
    { revert HS. apply Shape_frame; try reflexivity. intros H; exact H. }
    change (gameState (emit DefaultPrevented e)) with (gameState e).
    destruct (decide (gameState e = IDLE \/ gameState e = GAME_OVER)).
    + now apply start_Shape.
    + intros H. inversion H; subst. now apply togglePause_Shape.
  - apply String.eqb_neq in Hcode.
    destruct (movement_key code e Hcode)
      as (e1 & -> & K1 & _ & K3 & K4 & K5 & K6 & K7 & _).
    intros H. inversion H; subst. revert HS.
    apply Shape_frame; try assumption. now rewrite K3.
Qed.

Lemma Shape_board (e e' : Engine) :
  snake e' = snake e -> food e' = food e -> score e' = score e ->
  speed e' = speed e ->
  (gameState e' <> GAME_OVER -> neckBehind e') ->
  Shape e -> Shape e'.
Proof.
  intros Hs Hf Hsc Hsp Hn [B N C F S L V K].
  split; rewrite ?Hs, ?Hf, ?Hsc, ?Hsp; assumption.
Qed.

Lemma checkCollision_false (c : Segment) (e : Engine) :
  checkCollision c e = false <-> inBounds c /\ ~ In c (snake e).
Proof.
  unfold checkCollision, inBounds, CONFIG.gridSize.
  destruct (x c <? 0) eqn:H1; [split; [discriminate|lia]|].
  destruct (x c >=? 20) eqn:H2; [split; [discriminate|lia]|].
  destruct (y c <? 0) eqn:H3; [split; [discriminate|lia]|].
  destruct (y c >=? 20) eqn:H4; [split; [discriminate|lia]|].
  cbn [orb]. rewrite onSnake_not_In. split; [intros H; split; [lia|exact H]|].
  now intros [_ H].
Qed.

Lemma ended_board (e : Engine) :
  snake (ended e) = snake e /\ food (ended e) = food e /\
  score (ended e) = score e /\ speed (ended e) = speed e /\
  gameState (ended e) = GAME_OVER /\ entropy (ended e) = entropy e /\
  listening (ended e) = listening e /\ gameLoop (ended e) = None.
Proof.
  unfold ended. open_engine e. destruct co, gl; repeat split; reflexivity.
Qed.

Lemma candidate_step (e : Engine) (c head : Segment) (rest : list Segment) :
  snake e = head :: rest -> candidate e = Some c ->
  x c = x head + dx (nextDirection e) /\
  y c = y head + dy (nextDirection e) /\ adjacent c head.
Proof.
  intros Hs Hc. unfold candidate in Hc. rewrite Hs in Hc.
  inversion Hc; subst. unfold adjacent. cbn [x y].
  destruct (nextDirection e); cbn [dx dy]; repeat split; lia.
Qed.

Lemma update_Shape (e e' : Engine) :
  Inv e -> Shape e -> update e = Done e' -> Shape e'.
Proof.
  intros [_ _ _ _ _ Hsp He] HS. pose proof HS as [B N C F S L V K].
  intros Hu. apply update_shape in Hu. revert Hu.
  destruct (bool_decide_reflect (gameState e = PLAYING)) as [Hp|Hp];
    [|intros H; now inversion H; subst].
  destruct (candidate e) as [c|] eqn:Hc; [|discriminate].
  destruct K as (head & neck & rest & Ks & Kx & Ky); [congruence|].
  destruct (candidate_step e c head (neck :: rest) Ks Hc) as (Cx & Cy & Cadj).
  destruct (checkCollision c e) eqn:Hcol.
  { intros H. inversion H; subst. clear H.
    destruct (ended_board (commit e)) as (E1 & E2 & E3 & E4 & E5 & _).
    revert HS. apply Shape_board; try assumption.
    intros Hlive. congruence. }
  apply checkCollision_false in Hcol as [Hin Hoff].
  destruct (food e) as [f|] eqn:Hf; [|discriminate].
  destruct (bool_decide_reflect (c = f)) as [Heq|Hne].
  - destruct (spawnFood (fed c e)) as [e1| |] eqn:Hspawn; try discriminate.
    cbv [bind]. intros H. inversion H; subst e'. clear H.
    apply spawnFood_Done in Hspawn as [g [rs' [Hloop ->]]].
    destruct (fed_frame c e) as (F1 & _ & F3 & _ & F5 & F6 & _ & F8 & _).
    rewrite F1 in Hloop. apply spawnLoop_free in Hloop.
    split; reduce_fields; rewrite ?F1, ?F3, ?F5, ?F8.
    + now apply List.Forall_cons.
    + apply NoDup_cons. rewrite list_elem_of_In. now split.
    + rewrite Ks in *. split; [exact Cadj|exact C].
    + intros g' Hg'. now inversion Hg'; subst.
    + lia.
    + cbn [length]. lia.
    + unfold CONFIG.minSpeed, CONFIG.speedIncrement, CONFIG.initialSpeed in *.
      replace (score e + 10) with (score e + 2 * 5) by lia.
      rewrite Z.div_add by lia.
      destruct (speed e >? 50) eqn:Hgt.
      * apply Z.gtb_lt in Hgt.
        assert (speed e <> 51) by (intros Habs; rewrite Habs in He; discriminate).
        lia.
      * rewrite Z.gtb_ltb in Hgt. apply Z.ltb_ge in Hgt. lia.
    + intros _. unfold neckBehind. reduce_fields. rewrite F1, F3, Ks.
      exists c, head, (neck :: rest). split; [reflexivity|]. split; lia.
  - intros H. apply Done_inj in H. subst e'. unfold commit.
    remember (removelast (c :: snake e)) as moved eqn:Hmoved.
    split; reduce_fields; try assumption; subst moved.
    + apply removelast_Forall. now apply List.Forall_cons.
    + apply removelast_NoDup, NoDup_cons. rewrite list_elem_of_In. now split.
    + apply removelast_connected. rewrite Ks in *. split; [exact Cadj|exact C].
    + intros g Hg Hon. apply removelast_In in Hon as [Hon|Hon].
      * apply Hne. congruence.
      * apply (F g); [congruence|exact Hon].
    + now rewrite removelast_length.
    + intros _. unfold neckBehind. reduce_fields. rewrite Ks.
      change (removelast (c :: head :: neck :: rest))
        with (c :: head :: removelast (neck :: rest)).
      eexists _, _, _. split; [reflexivity|]. split; lia.
Qed.

Lemma step_Shape (a : Action) (e e' : Engine) :
  Inv e -> Shape e -> step a e = Done e' -> Shape e'.
Proof.
  intros HI HS. destruct a as [s o| | | | |code|h]; cbn [step].
  - unfold init. destruct (reset (with_callbacks s o (with_ctx true e))) as [e1| |] eqn:Hr;
      try discriminate.
    cbv [bind]. intros H. inversion H; subst.
    apply reset_Shape in Hr. revert Hr.
    apply Shape_frame; try reflexivity. intros K; exact K.
  - apply reset_Shape.
  - now apply start_Shape.
  - intros H. inversion H; subst. now apply togglePause_Shape.
  - intros H. inversion H; subst. now apply destroy_Shape.
  - destruct (listening e); [now apply handleKeyDown_Shape|].
    intros H. now inversion H; subst.
  - destruct (live h e); [now apply update_Shape|].
    intros H. now inversion H; subst.
Qed.

Lemma init_Shape (rs : list Q) (s o : bool) (e : Engine) :
  init s o (loaded rs) = Done e -> Shape e.
Proof.
  intros H. apply init_Done in H as (f & rs' & Hloop & ->).
  apply (initialSnake_free f); try reflexivity.
  now apply spawnLoop_free in Hloop.
Qed.

Lemma reachable_Shape (e : Engine) : reachable e -> Shape e.
Proof.
  induction 1 as [rs s o e Hinit|a e e' Hreach IH Hstep].
  - eapply init_Shape, Hinit.
  - apply (step_Shape a e e'); [apply reachable_Inv, Hreach|exact IH|exact Hstep].
Qed.

(** *** The samples and the food stay in range *)

Lemma sampled_frame (e e' : Engine) :
  entropy e' = entropy e -> food e' = food e -> sampled e -> sampled e'.
Proof. intros He Hf [H1 H2]. split; rewrite ?He, ?Hf; assumption. Qed.

Lemma sampled_spawn (body : list Segment) (rs rs' : list Q) (f : Segment)
    (e' : Engine) :
  Forall unitSample rs -> spawnLoop body rs = Done (f, rs') ->
  entropy e' = rs' -> food e' = Some f -> sampled e'.
Proof.
  intros Hunit Hloop He Hf.
  destruct (spawnLoop_sound _ _ _ _ Hunit Hloop) as (Hb & _ & Hrest).
  split; [now rewrite He|]. intros g Hg. rewrite Hf in Hg.
  now inversion Hg; subst.
Qed.

Lemma reset_sampled (e e' : Engine) :
  sampled e -> reset e = Done e' -> sampled e'.
Proof.
  intros [Hunit _] Hr. apply reset_Done in Hr as [_ [f [rs' [Hloop ->]]]].
  now apply (sampled_spawn initialSnake (entropy e) rs' f).
Qed.

Lemma start_sampled (e e' : Engine) :
  sampled e -> start e = Done e' -> sampled e'.
Proof.
  intros HS.
  destruct (decide (gameState e = IDLE \/ gameState e = GAME_OVER)) as [Hf|Hf].
  - rewrite (start_fresh e Hf).
    destruct (spawnLoop initialSnake (entropy e)) as [[f rs']| |] eqn:Hloop;
      try discriminate.
    cbv [bind fst snd]. destruct (ctx e); [|discriminate]. intros H. apply Done_inj in H. subst e'.
    destruct HS as [Hunit _].
    now apply (sampled_spawn initialSnake (entropy e) rs' f).
  - unfold start. destruct (decide (gameState e = PLAYING)) as [Hp|Hp].
    { intros H. now inversion H; subst. }
    destruct (decide (gameState e = GAME_OVER \/ gameState e = IDLE))
      as [[Hg|Hg]|_]; [exfalso; apply Hf; now right|
                        exfalso; apply Hf; now left|].
    cbv [bind]. intros H. apply Done_inj in H. subst e'.
    revert HS. now apply sampled_frame.
Qed.

Lemma update_sampled (e e' : Engine) :
  sampled e -> update e = Done e' -> sampled e'.
Proof.
  intros HS. intros Hu. apply update_shape in Hu. revert Hu.
  destruct (bool_decide (gameState e = PLAYING));
    [|intros H; now inversion H; subst].
  destruct (candidate e) as [c|]; [|discriminate].
  destruct (checkCollision c e).
  { intros H. apply Done_inj in H. subst e'.
    destruct (ended_board (commit e)) as (_ & E2 & _ & _ & _ & E6 & _).
    revert HS. now apply sampled_frame. }
  destruct (food e) as [f|] eqn:Hf; [|discriminate].
  destruct (bool_decide (c = f)).
  - destruct (spawnFood (fed c e)) as [e1| |] eqn:Hspawn; try discriminate.
    cbv [bind]. intros H. apply Done_inj in H. subst e'.
    apply spawnFood_Done in Hspawn as [g [rs' [Hloop ->]]].
    destruct (fed_frame c e) as (_ & _ & _ & _ & _ & _ & F7 & _).
    rewrite F7 in Hloop. destruct HS as [Hunit _].
    now apply (sampled_spawn _ _ _ _ _ Hunit Hloop).
  - intros H. apply Done_inj in H. subst e'.
    revert HS. now apply sampled_frame.
Qed.

Lemma handleKeyDown_sampled (code : string) (e e' : Engine) :
  sampled e -> handleKeyDown code e = Done e' -> sampled e'.
Proof.
  intros HS. destruct (String.eqb code "Space") eqn:Hcode.
  - unfold handleKeyDown. rewrite Hcode.
    assert (HS' : sampled (emit DefaultPrevented e)) by exact HS.
    change (gameState (emit DefaultPrevented e)) with (gameState e).
    destruct (decide (gameState e = IDLE \/ gameState e = GAME_OVER)).
    + now apply start_sampled.
    + intros H. apply Done_inj in H. subst e'.
      destruct (togglePause_board (emit DefaultPrevented e))
        as (_ & T2 & _ & _ & _ & _ & T7 & _).
      revert HS'. now apply sampled_frame.
  - apply String.eqb_neq in Hcode.
    destruct (movement_key code e Hcode)
      as (e1 & -> & _ & _ & _ & _ & _ & _ & K7 & _ & _ & K10 & _).
    intros H. apply Done_inj in H. subst e'.
    revert HS. now apply sampled_frame.
Qed.

Lemma step_sampled (a : Action) (e e' : Engine) :
  sampled e -> step a e = Done e' -> sampled e'.
Proof.
  intros HS. destruct a as [s o| | | | |code|h]; cbn [step].
  - unfold init. destruct (reset (with_callbacks s o (with_ctx true e))) as [e1| |] eqn:Hr;
      try discriminate.
    cbv [bind]. intros H. apply Done_inj in H. subst e'.
    apply (reset_sampled (with_callbacks s o (with_ctx true e))) in Hr;
      [|exact HS].
    exact Hr.
  - now apply reset_sampled.
  - now apply start_sampled.
  - intros H. apply Done_inj in H. subst e'.
    destruct (togglePause_board e) as (_ & T2 & _ & _ & _ & _ & T7 & _).
    revert HS. now apply sampled_frame.
  - intros H. apply Done_inj in H. subst e'. revert HS.
    apply sampled_frame; unfold destroy; open_engine e; now destruct gl.
  - destruct (listening e); [now apply handleKeyDown_sampled|].
    intros H. now inversion H; subst.
  - destruct (live h e); [now apply update_sampled|].
    intros H. now inversion H; subst.
Qed.

Lemma run_sampled (acts : list Action) :
  forall e e' : Engine, sampled e -> run acts e = Done e' -> sampled e'.
Proof.
  induction acts as [|a rest IH]; intros e e' HS Hrun; cbn [run] in Hrun.
  - now inversion Hrun; subst.
  - destruct (step a e) as [e1| |] eqn:Hstep; try discriminate.
    apply (IH e1); [|exact Hrun]. now apply (step_sampled a e).
Qed.

Lemma init_sampled (rs : list Q) (s o : bool) (e : Engine) :
  Forall unitSample rs -> init s o (loaded rs) = Done e -> sampled e.
Proof.
  intros Hunit H. apply init_Done in H as (f & rs' & Hloop & ->).
  now apply (sampled_spawn initialSnake rs rs' f).
Qed.

(** *** The snake and the food *)

(** In every reachable state the snake is a path on the grid: each
    segment is a cell of the grid, no two segments share a cell, each
    segment lies next to the following one, and there are at least three
    of them. *)
Theorem snake_is_a_path_on_the_grid (e : Engine) :
  reachable e ->
  Forall inBounds (snake e) /\ NoDup (snake e) /\ connected (snake e) /\
  (3 <= length (snake e))%nat.
Proof.
  intros Hreach. destruct (reachable_Shape e Hreach) as [B N C _ S L _ _].
  repeat split; try assumption. lia.
Qed.

Lemma snake_is_a_path_on_the_grid_first_board :
  Forall inBounds (snake playingBoard) /\ NoDup (snake playingBoard) /\
  connected (snake playingBoard) /\ (3 <= length (snake playingBoard))%nat.
Proof.
  apply (snake_is_a_path_on_the_grid playingBoard).
  apply (reachable_step CallStart idleBoard playingBoard);
    [|vm_compute; reflexivity].
  apply (reachable_init [1 # 4; 1 # 4; 1 # 2; 3 # 4] true true).
  vm_compute. reflexivity.
Defined.

(** After [init] on samples in [0, 1) and any run, there is a food, it is
    a cell of the grid, and it is on no segment of the snake: not only
    when it is drawn, but as the snake moves. *)
Theorem food_is_on_a_free_cell_throughout (rs : list Q)
    (cbScore cbOver : bool) (acts : list Action) (e0 e : Engine) :
  Forall unitSample rs ->
  init cbScore cbOver (loaded rs) = Done e0 ->
  run acts e0 = Done e ->
  exists f, food e = Some f /\ inBounds f /\ ~ In f (snake e).
Proof.
  intros Hunit Hinit Hrun.
  assert (Hreach : reachable e).
  { apply reachable_run. now exists rs, cbScore, cbOver, acts, e0. }
  destruct (reachable_Shape e Hreach) as [_ _ _ F _ _ _ _].
  destruct (run_sampled acts e0 e (init_sampled rs _ _ e0 Hunit Hinit) Hrun)
    as [_ Hb].
  destruct (food e) as [f|] eqn:Hf.
  - exists f. split; [reflexivity|]. split; [now apply Hb|now apply F].
  - destruct (reachable_Inv e Hreach) as [_ _ _ Hfood _ _ _]. contradiction.
Qed.

Lemma food_is_on_a_free_cell_throughout_first_board :
  exists f, food playingBoard = Some f /\ inBounds f /\
            ~ In f (snake playingBoard).
Proof.
  apply (food_is_on_a_free_cell_throughout [1 # 4; 1 # 4; 1 # 2; 3 # 4]
           true true [CallStart] idleBoard playingBoard).
  - repeat (apply List.Forall_cons;
            [vm_compute; repeat split; first [reflexivity|discriminate]|]).
    apply List.Forall_nil.
  - vm_compute. reflexivity.
  - vm_compute. reflexivity.
Defined.

(** In every reachable state the length of the snake is 3 plus the number
    of foods eaten, the score being 10 for each: the score is a multiple
    of 10 that is not negative, and the length is 3 + score / 10. *)
Theorem length_is_three_plus_foods (e : Engine) :
  reachable e ->
  0 <= score e /\ score e mod 10 = 0 /\
  Z.of_nat (length (snake e)) = 3 + score e / 10.
Proof.
  intros Hreach. destruct (reachable_Shape e Hreach) as [_ _ _ _ S L _ _].
  assert (Hmul : score e = (Z.of_nat (length (snake e)) - 3) * 10) by lia.
  split; [exact S|]. split.
  - rewrite Hmul. apply Z.mod_mul. lia.
  - rewrite Hmul. rewrite Z.div_mul by lia. lia.
Qed.

Lemma length_is_three_plus_foods_first_board :
  0 <= score playingBoard /\ score playingBoard mod 10 = 0 /\
  Z.of_nat (length (snake playingBoard)) = 3 + score playingBoard / 10.
Proof.
  apply (length_is_three_plus_foods playingBoard).
  apply (reachable_step CallStart idleBoard playingBoard);
    [|vm_compute; reflexivity].
  apply (reachable_init [1 # 4; 1 # 4; 1 # 2; 3 # 4] true true).
  vm_compute. reflexivity.
Defined.

(** In every reachable state the speed is a function of the score: 150 ms
    less 2 ms for each food eaten, and 50 ms from the fiftieth food on;
    and a live timer ticks at that very interval. *)
Theorem speed_is_set_by_the_score (e : Engine) :
  reachable e ->
  speed e = Z.max 50 (150 - 2 * (score e / 10)) /\
  forall h d, In (h, d) (timers e) ->
    d = Z.max 50 (150 - 2 * (score e / 10)).
Proof.
  intros Hreach. destruct (reachable_Shape e Hreach) as [_ _ _ _ S L V _].
  assert (Hmul : score e = (Z.of_nat (length (snake e)) - 3) * 10) by lia.
  assert (Hspeed : speed e = Z.max 50 (150 - 2 * (score e / 10))).
  { rewrite V. rewrite Hmul.
    replace ((Z.of_nat (length (snake e)) - 3) * 10)
      with ((Z.of_nat (length (snake e)) - 3) * 2 * 5) at 1 by lia.
    rewrite !Z.div_mul by lia. lia. }
  split; [exact Hspeed|]. intros h d Hin.
  destruct (reachable_Inv e Hreach) as [Ht _ _ _ _ _ _].
  rewrite Ht in Hin. unfold ownTimer in Hin.
  destruct (gameLoop e); [|destruct Hin].
  destruct Hin as [Heq|[]]. inversion Heq; subst. exact Hspeed.
Qed.

Lemma speed_is_set_by_the_score_first_board :
  speed playingBoard = Z.max 50 (150 - 2 * (score playingBoard / 10)) /\
  forall h d, In (h, d) (timers playingBoard) ->
    d = Z.max 50 (150 - 2 * (score playingBoard / 10)).
Proof.
  apply (speed_is_set_by_the_score playingBoard).
  apply (reachable_step CallStart idleBoard playingBoard);
    [|vm_compute; reflexivity].
  apply (reachable_init [1 # 4; 1 # 4; 1 # 2; 3 # 4] true true).
  vm_compute. reflexivity.
Defined.

(** In every reachable state of a game that is on, the cell the next tick
    tries is neither the head nor the segment behind it: the snake never
    turns back into its neck. With the three segments of a new game it is
    on no segment at all, so that only a wall can end the game. *)
Theorem snake_never_bites_its_neck (e : Engine) (c : Segment) :
  reachable e -> gameState e = PLAYING -> candidate e = Some c ->
  exists head neck rest,
    snake e = head :: neck :: rest /\ c <> head /\ c <> neck /\
    (length (snake e) = 3%nat -> ~ In c (snake e)).
Proof.
  intros Hreach Hplay Hc.
  destruct (reachable_Shape e Hreach) as [_ N C _ _ _ _ K].
  destruct (reachable_Inv e Hreach) as [_ _ _ _ Hd _ _].
  destruct K as (head & neck & rest & Ks & Kx & Ky); [congruence|].
  destruct (candidate_step e c head (neck :: rest) Ks Hc) as (Cx & Cy & _).
  assert (Hhead : c <> head).
  { intros ->. destruct (nextDirection e); cbn [dx dy] in *; lia. }
  assert (Hneck : c <> neck).
  { intros ->. destruct (direction e), (nextDirection e);
      cbn [dx dy opposite] in *; try lia; congruence. }
  exists head, neck, rest. split; [exact Ks|]. split; [exact Hhead|].
  split; [exact Hneck|].
  rewrite Ks in *. intros Hlen.
  destruct rest as [|third [|? ?]]; try discriminate Hlen.
  destruct C as [_ [Hadj _]]. unfold adjacent in Hadj.
  intros [Hin|[Hin|[Hin|[]]]]; try congruence. subst third.
  destruct (direction e), (nextDirection e); cbn [dx dy opposite] in *;
    try lia; congruence.
Qed.

Lemma snake_never_bites_its_neck_first_board :
  exists head neck rest,
    snake playingBoard = head :: neck :: rest /\
    {| x := 11; y := 10 |} <> head /\ {| x := 11; y := 10 |} <> neck /\
    (length (snake playingBoard) = 3%nat ->
     ~ In {| x := 11; y := 10 |} (snake playingBoard)).
Proof.
  apply (snake_never_bites_its_neck playingBoard {| x := 11; y := 10 |}).
  - apply (reachable_step CallStart idleBoard playingBoard);
      [|vm_compute; reflexivity].
    apply (reachable_init [1 # 4; 1 # 4; 1 # 2; 3 # 4] true true).
    vm_compute. reflexivity.
  - reflexivity.
  - reflexivity.
Defined.

(** *** Keys *)

(** What one key other than the space bar does. *)
Lemma key_taken (code : string) (e : Engine) :
  code <> "Space" ->
  handleKeyDown code e =
    Done (if decide (gameState e = PLAYING)
          then match accepted (direction e) code with
               | Some d => with_nextDirection d (emit DefaultPrevented e)
               | None => e
               end
          else e).
Proof.
  intros Hne. apply String.eqb_neq in Hne.
  unfold handleKeyDown, accepted, keyDirection. rewrite Hne.
  destruct (decide (gameState e <> PLAYING)) as [Hn|Hn];
    destruct (decide (gameState e = PLAYING)) as [Hp|Hp];
    try contradiction; try reflexivity.
  repeat match goal with
         | |- context [orb ?a ?b] => destruct (orb a b)
         end;
    destruct (direction e); cbv [opposite];
    repeat match goal with
           | |- context [decide ?P] => destruct (decide P)
           end;
    first [ reflexivity | congruence | contradiction
          | match goal with
            | H : ~ (_ <> _) |- _ => exfalso; apply H; discriminate
            end ].
Qed.

Lemma with_nextDirection_same (e : Engine) :
  with_nextDirection (nextDirection e) e = e.
Proof. now destruct e. Qed.

Lemma with_nextDirection_twice (d d' : Direction) (e : Engine) :
  with_nextDirection d' (with_nextDirection d e) = with_nextDirection d' e.
Proof. reflexivity. Qed.

Lemma emits_with_nextDirection (k : nat) (d : Direction) (e : Engine) :
  Nat.iter k (emit DefaultPrevented) (with_nextDirection d e)
  = with_nextDirection d (Nat.iter k (emit DefaultPrevented) e).
Proof.
  induction k as [|k IH]; [reflexivity|].
  change (Nat.iter (S k) (emit DefaultPrevented) (with_nextDirection d e))
    with (emit DefaultPrevented
            (Nat.iter k (emit DefaultPrevented) (with_nextDirection d e))).
  now rewrite IH.
Qed.

Lemma pressKeys_taken (codes : list string) :
  forall e : Engine,
    Forall (fun code => code <> "Space") codes ->
    gameState e = PLAYING ->
    pressKeys codes e =
      Done (with_nextDirection
              (pendingAfter (direction e) (nextDirection e) codes)
              (Nat.iter (takenKeys (direction e) codes)
                        (emit DefaultPrevented) e)).
Proof.
  induction codes as [|code rest IH]; intros e Hcodes Hplay.
  - cbn. now rewrite with_nextDirection_same.
  - inversion Hcodes as [|? ? Hcode Hrest]; subst.
    cbn [pressKeys pendingAfter takenKeys].
    rewrite (key_taken code e Hcode).
    destruct (decide (gameState e = PLAYING)); [|contradiction].
    cbv [bind].
    destruct (accepted (direction e) code) as [d|].
    + rewrite IH; [|exact Hrest|exact Hplay].
      change (direction (with_nextDirection d (emit DefaultPrevented e)))
        with (direction e).
      change (nextDirection (with_nextDirection d (emit DefaultPrevented e)))
        with d.
      rewrite emits_with_nextDirection, with_nextDirection_twice.
      cbn [Nat.add]. rewrite Nat.iter_succ_r. reflexivity.
    + rewrite IH; [|exact Hrest|exact Hplay]. reflexivity.
Qed.

(** While the game is on, a row of keys other than the space bar leaves
    everything but the pending direction and the log as it was: the
    pending direction is that of the last key that stands for a direction
    other than the reverse of the committed one (the keys before it are
    overwritten, the reverse and foreign keys are skipped), and the
    default action is prevented once for each key taken. In any other
    state the keys do nothing at all. *)
Theorem last_taken_key_is_pending (e : Engine) (codes : list string) :
  Forall (fun code => code <> "Space") codes ->
  (gameState e = PLAYING ->
   pressKeys codes e =
     Done (with_nextDirection
             (pendingAfter (direction e) (nextDirection e) codes)
             (Nat.iter (takenKeys (direction e) codes)
                       (emit DefaultPrevented) e))) /\
  (gameState e <> PLAYING -> pressKeys codes e = Done e).
Proof.
  intros Hcodes. split; [now apply pressKeys_taken|].
  intros Hidle. induction codes as [|code rest IH]; [reflexivity|].
  inversion Hcodes as [|? ? Hcode Hrest]; subst.
  cbn [pressKeys]. rewrite (key_taken code e Hcode).
  destruct (decide (gameState e = PLAYING)); [contradiction|].
  cbv [bind]. now apply IH.
Qed.

Lemma last_taken_key_is_pending_three_keys :
  pressKeys ["KeyW"; "ArrowLeft"; "KeyX"; "ArrowDown"] playingBoard
    = Done (with_nextDirection DOWN
              (emit DefaultPrevented (emit DefaultPrevented playingBoard))).
Proof.
  refine (proj1 (last_taken_key_is_pending playingBoard
                   ["KeyW"; "ArrowLeft"; "KeyX"; "ArrowDown"] _) _).
  - repeat (apply List.Forall_cons; [discriminate|]). apply List.Forall_nil.
  - reflexivity.
Defined.

(** *** Timers *)

Lemma fed_gameLoop (c : Segment) (e : Engine) :
  gameLoop (fed c e) = if speed e >? CONFIG.minSpeed
                       then Some (nextTimer e) else gameLoop e.
Proof.
  unfold fed. open_engine e.
  destruct cs; reduce_setters; destruct (sp >? CONFIG.minSpeed);
    reduce_setters; destruct gl; reflexivity.
Qed.

Lemma togglePause_ticking (e : Engine) : ticking e -> ticking (togglePause e).
Proof.
  unfold ticking, togglePause. open_engine e.
  destruct (decide (gs = PLAYING)); [|destruct (decide (gs = PAUSED))];
    reduce_setters; destruct gl; intros; congruence.
Qed.

Lemma start_ticking (e e' : Engine) :
  ticking e -> start e = Done e' -> ticking e'.
Proof.
  intros HT.
  destruct (decide (gameState e = IDLE \/ gameState e = GAME_OVER)) as [Hf|Hf].
  - rewrite (start_fresh e Hf).
    destruct (spawnLoop initialSnake (entropy e)) as [[f rs']| |];
      try discriminate.
    cbv [bind]. destruct (ctx e); [|discriminate]. intros H. apply Done_inj in H. subst e'.
    intros _ _. discriminate.
  - unfold start. destruct (decide (gameState e = PLAYING)) as [Hp|Hp].
    { intros H. now inversion H; subst. }
    destruct (decide (gameState e = GAME_OVER \/ gameState e = IDLE))
      as [[Hg|Hg]|_]; [exfalso; apply Hf; now right|
                        exfalso; apply Hf; now left|].
    cbv [bind]. intros H. apply Done_inj in H. subst e'.
    intros _ _. discriminate.
Qed.

Lemma update_ticking (e e' : Engine) :
  ticking e -> update e = Done e' -> ticking e'.
Proof.
  intros HT. intros Hu. apply update_shape in Hu. revert Hu.
  destruct (bool_decide_reflect (gameState e = PLAYING)) as [Hp|Hp];
    [|intros H; now inversion H; subst].
  destruct (candidate e) as [c|]; [|discriminate].
  destruct (checkCollision c e).
  { intros H. apply Done_inj in H. subst e'.
    destruct (ended_board (commit e)) as (_ & _ & _ & _ & E5 & _).
    intros _ Hplay. congruence. }
  destruct (food e) as [f|]; [|discriminate].
  destruct (bool_decide (c = f)).
  - destruct (spawnFood (fed c e)) as [e1| |] eqn:Hspawn; try discriminate.
    cbv [bind]. intros H. apply Done_inj in H. subst e'.
    apply spawnFood_Done in Hspawn as [g [rs' [_ ->]]].
    unfold ticking. reduce_fields. rewrite fed_gameLoop.
    destruct (fed_frame c e)
      as (_ & _ & _ & _ & _ & _ & _ & _ & _ & _ & _ & F12).
    rewrite F12. intros Hl _.
    destruct (speed e >? CONFIG.minSpeed); [discriminate|now apply HT].
  - intros H. apply Done_inj in H. subst e'. exact HT.
Qed.

Lemma step_ticking (a : Action) (e e' : Engine) :
  ticking e -> step a e = Done e' -> ticking e'.
Proof.
  intros HT. destruct a as [s o| | | | |code|h]; cbn [step].
  - unfold init. destruct (reset (with_callbacks s o (with_ctx true e))) as [e1| |] eqn:Hr;
      try discriminate.
    cbv [bind]. intros H. apply Done_inj in H. subst e'.
    apply reset_Done in Hr as [_ [f [rs' [_ ->]]]]. intros _ H. discriminate H.
  - intros Hr. apply reset_Done in Hr as [_ [f [rs' [_ ->]]]].
    intros _ H. discriminate H.
  - now apply start_ticking.
  - intros H. apply Done_inj in H. subst e'. now apply togglePause_ticking.
  - intros H. apply Done_inj in H. subst e'.
    unfold ticking, destroy. open_engine e. destruct gl; discriminate.
  - destruct (listening e); [|intros H; now inversion H; subst].
    destruct (String.eqb code "Space") eqn:Hcode.
    + unfold handleKeyDown. rewrite Hcode.
      change (gameState (emit DefaultPrevented e)) with (gameState e).
      destruct (decide (gameState e = IDLE \/ gameState e = GAME_OVER)).
      * now apply start_ticking.
      * intros H. apply Done_inj in H. subst e'.
        now apply togglePause_ticking.
    + apply String.eqb_neq in Hcode. rewrite (key_taken code e Hcode).
      intros H. apply Done_inj in H. subst e'.
      destruct (decide (gameState e = PLAYING)); [|exact HT].
      destruct (accepted (direction e) code); exact HT.
  - destruct (live h e); [now apply update_ticking|].
    intros H. now inversion H; subst.
Qed.

Lemma reachable_ticking (e : Engine) : reachable e -> ticking e.
Proof.
  induction 1 as [rs s o e Hinit|a e e' Hreach IH Hstep].
  - apply init_Done in Hinit as (f & rs' & _ & ->).
    intros _ H. discriminate H.
  - now apply (step_ticking a e e').
Qed.

(** In every reachable state at most one interval timer is live. A live
    timer is the one in [gameLoop], ticks at the current speed, and is
    there only while the game is on; and while the listener is attached a
    game that is on does have its timer. *)
Theorem at_most_one_timer_is_live (e : Engine) :
  reachable e ->
  (length (timers e) <= 1)%nat /\
  (forall h d, In (h, d) (timers e) ->
     gameLoop e = Some h /\ d = speed e /\ gameState e = PLAYING) /\
  (gameState e <> PLAYING -> timers e = [] /\ gameLoop e = None) /\
  (listening e = true -> gameState e = PLAYING ->
   exists h, gameLoop e = Some h /\ timers e = [(h, speed e)]).
Proof.
  intros Hreach. destruct (reachable_Inv e Hreach) as [Ht Hl _ _ _ _ _].
  pose proof (reachable_ticking e Hreach) as HT.
  unfold ownTimer in Ht. rewrite Ht.
  destruct (gameLoop e) as [h|] eqn:Hg.
  - assert (Hplay : gameState e = PLAYING) by (apply Hl; discriminate).
    repeat split.
    + cbn. lia.
    + destruct H as [H|[]]. now inversion H.
    + destruct H as [H|[]]. now inversion H.
    + exact Hplay.
    + contradiction.
    + contradiction.
    + intros _ _. now exists h.
  - repeat split; try (cbn; lia); try (destruct H; fail).
    intros Hlisten Hplay. now destruct (HT Hlisten Hplay).
Qed.

Lemma at_most_one_timer_is_live_first_board :
  (length (timers playingBoard) <= 1)%nat /\
  (forall h d, In (h, d) (timers playingBoard) ->
     gameLoop playingBoard = Some h /\ d = speed playingBoard /\
     gameState playingBoard = PLAYING) /\
  (gameState playingBoard <> PLAYING ->
   timers playingBoard = [] /\ gameLoop playingBoard = None) /\
  (listening playingBoard = true -> gameState playingBoard = PLAYING ->
   exists h, gameLoop playingBoard = Some h /\
             timers playingBoard = [(h, speed playingBoard)]).
Proof.
  apply (at_most_one_timer_is_live playingBoard).
  apply (reachable_step CallStart idleBoard playingBoard);
    [|vm_compute; reflexivity].
  apply (reachable_init [1 # 4; 1 # 4; 1 # 2; 3 # 4] true true).
  vm_compute. reflexivity.
Defined.

Lemma togglePause_playing (e : Engine) :
  gameState e = PLAYING ->
  togglePause e
  = with_gameLoop None (clearInterval (gameLoop e) (with_gameState PAUSED e)).
Proof.
  intros Hp. unfold togglePause.
  now destruct (decide (gameState e = PLAYING)).
Qed.

Lemma togglePause_paused (e : Engine) :
  gameState e = PAUSED ->
  togglePause e = setInterval (speed e) (with_gameState PLAYING e).
Proof.
  intros Hp. unfold togglePause.
  destruct (decide (gameState e = PLAYING)); [congruence|].
  now destruct (decide (gameState e = PAUSED)).
Qed.

(** In a reachable state [togglePause] does nothing when the engine is
    idle or the game is over. When the game is on it pauses it and leaves
    no timer live; toggling once more gives back the very same state but
    for the handle of the timer, a new one ticking at the same speed. A
    paused engine toggled twice is paused again, with nothing changed but
    the handle counter. *)
Theorem pause_and_resume_change_only_the_timer (e : Engine) :
  reachable e ->
  (gameState e = IDLE \/ gameState e = GAME_OVER -> togglePause e = e) /\
  (gameState e = PLAYING ->
     gameState (togglePause e) = PAUSED /\ timers (togglePause e) = [] /\
     togglePause (togglePause e)
       = with_gameLoop (Some (nextTimer e))
           (with_timers [(nextTimer e, speed e)] (S (nextTimer e)) e)) /\
  (gameState e = PAUSED ->
     gameState (togglePause e) = PLAYING /\
     timers (togglePause e) = [(nextTimer e, speed e)] /\
     togglePause (togglePause e) = with_timers [] (S (nextTimer e)) e).
Proof.
  intros Hreach. destruct (reachable_Inv e Hreach) as [Ht Hl _ _ _ _ _].
  split; [|split].
  - intros Hidle. unfold togglePause.
    destruct (decide (gameState e = PLAYING)); [destruct Hidle; congruence|].
    destruct (decide (gameState e = PAUSED)); [destruct Hidle; congruence|].
    reflexivity.
  - intros Hplay. rewrite (togglePause_playing e Hplay).
    rewrite togglePause_paused
      by (unfold clearInterval; destruct (gameLoop e); reflexivity).
    clear Hreach. open_engine e. subst gs.
    destruct gl as [h|]; subst ti; rewrite ?clear_own; repeat split;
      reflexivity.
  - intros Hpause. rewrite (togglePause_paused e Hpause).
    rewrite togglePause_playing by reflexivity.
    clear Hreach. open_engine e. destruct gl as [h|].
    + assert (gs = PLAYING) by (apply Hl; discriminate). congruence.
    + subst ti gs. rewrite clear_own. repeat split; reflexivity.
Qed.

Lemma pause_and_resume_change_only_the_timer_first_board :
  (gameState playingBoard = IDLE \/ gameState playingBoard = GAME_OVER ->
   togglePause playingBoard = playingBoard) /\
  (gameState playingBoard = PLAYING ->
     gameState (togglePause playingBoard) = PAUSED /\
     timers (togglePause playingBoard) = [] /\
     togglePause (togglePause playingBoard)
       = with_gameLoop (Some (nextTimer playingBoard))
           (with_timers [(nextTimer playingBoard, speed playingBoard)]
              (S (nextTimer playingBoard)) playingBoard)) /\
  (gameState playingBoard = PAUSED ->
     gameState (togglePause playingBoard) = PLAYING /\
     timers (togglePause playingBoard)
       = [(nextTimer playingBoard, speed playingBoard)] /\
     togglePause (togglePause playingBoard)
       = with_timers [] (S (nextTimer playingBoard)) playingBoard).
Proof.
  apply (pause_and_resume_change_only_the_timer playingBoard).
  apply (reachable_step CallStart idleBoard playingBoard);
    [|vm_compute; reflexivity].
  apply (reachable_init [1 # 4; 1 # 4; 1 # 2; 3 # 4] true true).
  vm_compute. reflexivity.
Defined.

(** [destroy] in a reachable state detaches the listener and leaves no
    timer live, and keeps the game state: keys and timers then do
    nothing, and if the game was on, [start] does nothing either, since
    the state still says playing; the engine stays without a timer until
    [init], [reset] or a pause and resume. *)
Theorem destroyed_engine_is_inert (e : Engine) :
  reachable e ->
  listening (destroy e) = false /\ timers (destroy e) = [] /\
  gameLoop (destroy e) = None /\ gameState (destroy e) = gameState e /\
  snake (destroy e) = snake e /\ score (destroy e) = score e /\
  (forall code, step (KeyDown code) (destroy e) = Done (destroy e)) /\
  (forall h, step (TimerFires h) (destroy e) = Done (destroy e)) /\
  (gameState e = PLAYING -> start (destroy e) = Done (destroy e)).
Proof.
  intros Hreach. destruct (reachable_Inv e Hreach) as [Ht _ _ _ _ _ _].
  assert (Hfacts :
    listening (destroy e) = false /\ timers (destroy e) = [] /\
    gameLoop (destroy e) = None /\ gameState (destroy e) = gameState e /\
    snake (destroy e) = snake e /\ score (destroy e) = score e).
  { unfold destroy. open_engine e.
    destruct gl; subst ti; rewrite ?clear_own; repeat split; reflexivity. }
  destruct Hfacts as (D1 & D2 & D3 & D4 & D5 & D6).
  repeat split; try assumption.
  - intros code. cbn [step]. now rewrite D1.
  - intros h. cbn [step]. unfold live. now rewrite D2.
  - intros Hplay. unfold start. rewrite D4.
    now destruct (decide (gameState e = PLAYING)).
Qed.

Lemma destroyed_engine_is_inert_first_board :
  listening (destroy playingBoard) = false /\
  timers (destroy playingBoard) = [] /\
  gameLoop (destroy playingBoard) = None /\
  gameState (destroy playingBoard) = gameState playingBoard /\
  snake (destroy playingBoard) = snake playingBoard /\
  score (destroy playingBoard) = score playingBoard /\
  (forall code,
     step (KeyDown code) (destroy playingBoard) = Done (destroy playingBoard)) /\
  (forall h,
     step (TimerFires h) (destroy playingBoard) = Done (destroy playingBoard)) /\
  (gameState playingBoard = PLAYING ->
   start (destroy playingBoard) = Done (destroy playingBoard)).
Proof.
  apply (destroyed_engine_is_inert playingBoard).
  apply (reachable_step CallStart idleBoard playingBoard);
    [|vm_compute; reflexivity].
  apply (reachable_init [1 # 4; 1 # 4; 1 # 2; 3 # 4] true true).
  vm_compute. reflexivity.
Defined.

(** *** The size of the game *)

Lemma cells_complete (c : Segment) : inBounds c -> In c cells.
Proof.
  unfold inBounds, cells, CONFIG.gridSize. intros [Hx Hy].
  apply in_flat_map. exists (Z.to_nat (x c)). split.
  - apply in_seq. lia.
  - apply in_map_iff. exists (Z.to_nat (y c)). split.
    + destruct c as [cx cy]. cbn [x y] in *. f_equal; lia.
    + apply in_seq. lia.
Qed.

(** In every reachable state the snake has at most 400 segments, one for
    each cell of the grid, and so the score is at most 3970. *)
Theorem score_is_at_most_3970 (e : Engine) :
  reachable e ->
  (length (snake e) <= 400)%nat /\ score e <= 3970.
Proof.
  intros Hreach. destruct (reachable_Shape e Hreach) as [B N _ _ _ L _ _].
  assert (Hlen : (length (snake e) <= 400)%nat).
  { change 400%nat with (length cells).
    apply List.NoDup_incl_length; [now apply NoDup_ListNoDup|].
    intros c Hc. apply cells_complete.
    rewrite List.Forall_forall in B. now apply B. }
  split; [exact Hlen|lia].
Qed.

Lemma score_is_at_most_3970_first_board :
  (length (snake playingBoard) <= 400)%nat /\ score playingBoard <= 3970.
Proof.
  apply (score_is_at_most_3970 playingBoard).
  apply (reachable_step CallStart idleBoard playingBoard);
    [|vm_compute; reflexivity].
  apply (reachable_init [1 # 4; 1 # 4; 1 # 2; 3 # 4] true true).
  vm_compute. reflexivity.
Defined.

End BoardFacts.


(** ** Properties of the store and the session *)

Module StoreFacts.
Import Storage Auth AuthFacts.

(** *** The hash *)

Lemma ToInt32_range (z : Z) : - 2 ^ 31 <= ToInt32 z < 2 ^ 31.
Proof.
  unfold ToInt32.
  pose proof (Z.mod_pos_bound (z + 2 ^ 31) (2 ^ 32) ltac:(lia)). lia.
Qed.

Lemma ToInt32_small (z : Z) : - 2 ^ 31 <= z < 2 ^ 31 -> ToInt32 z = z.
Proof.
  intros Hz. unfold ToInt32. rewrite Z.mod_small by lia. lia.
Qed.

Lemma ToInt32_shift (z k : Z) : ToInt32 (z + k * 2 ^ 32) = ToInt32 z.
Proof.
  unfold ToInt32.
  replace (z + k * 2 ^ 32 + 2 ^ 31) with (z + 2 ^ 31 + k * 2 ^ 32) by lia.
  now rewrite Z.mod_add by lia.
Qed.

Lemma ToInt32_wraps (z : Z) : exists k, ToInt32 z = z + k * 2 ^ 32.
Proof.
  exists (- ((z + 2 ^ 31) / 2 ^ 32)). unfold ToInt32.
  rewrite Z.mod_eq by lia. lia.
Qed.

Lemma ToInt32_eq (a b : Z) :
  ToInt32 a = ToInt32 b <-> (a - b) mod 2 ^ 32 = 0.
Proof.
  split.
  - intros H. destruct (ToInt32_wraps a) as [ka Ha].
    destruct (ToInt32_wraps b) as [kb Hb].
    replace (a - b) with ((kb - ka) * 2 ^ 32) by lia.
    apply Z.mod_mul. lia.
  - intros H. apply Z.mod_divide in H; [|lia]. destruct H as [k Hk].
    replace a with (b + k * 2 ^ 32) by lia. apply ToInt32_shift.
Qed.

Lemma horner_shift (str : string) :
  forall h k, exists k', horner str (h + k * 2 ^ 32)
                         = horner str h + k' * 2 ^ 32.
Proof.
  induction str as [|c rest IH]; intros h k; cbn [horner].
  - now exists k.
  - replace (31 * (h + k * 2 ^ 32) + charCode c)
      with (31 * h + charCode c + (31 * k) * 2 ^ 32) by lia.
    apply IH.
Qed.

(** One round of the loop of [simpleHash]. *)
Lemma hash_round (h : Z) (c : ascii) :
  exists k,
    Z.land (ToInt32 (ToInt32 (Z.shiftl (ToInt32 h) 5) - h + charCode c))
           (ToInt32 (ToInt32 (Z.shiftl (ToInt32 h) 5) - h + charCode c))
    = 31 * h + charCode c + k * 2 ^ 32.
Proof.
  rewrite Z.land_diag, Z.shiftl_mul_pow2 by lia.
  destruct (ToInt32_wraps h) as [k1 H1].
  destruct (ToInt32_wraps (ToInt32 h * 2 ^ 5)) as [k2 H2].
  destruct (ToInt32_wraps (ToInt32 (ToInt32 h * 2 ^ 5) - h + charCode c))
    as [k3 H3].
  exists (32 * k1 + k2 + k3). rewrite H3, H2, H1. lia.
Qed.

Lemma hashLoop_horner (str : string) :
  forall h, ToInt32 (hashLoop str h) = ToInt32 (horner str h).
Proof.
  induction str as [|c rest IH]; intros h; [reflexivity|].
  cbn [hashLoop horner]. rewrite IH.
  destruct (hash_round h c) as [k ->].
  destruct (horner_shift rest (31 * h + charCode c) k) as [k' ->].
  apply ToInt32_shift.
Qed.

Lemma hashLoop_range (str : string) :
  forall h, - 2 ^ 31 <= h < 2 ^ 31 -> - 2 ^ 31 <= hashLoop str h < 2 ^ 31.
Proof.
  induction str as [|c rest IH]; intros h Hh; [exact Hh|].
  cbn [hashLoop]. apply IH. rewrite Z.land_diag. apply ToInt32_range.
Qed.

Lemma hashLoop_app (s t : string) :
  forall h, hashLoop (String.append s t) h = hashLoop t (hashLoop s h).
Proof.
  induction s as [|c rest IH]; intros h; [reflexivity|].
  cbn [String.append hashLoop]. apply IH.
Qed.

(** *** The hexadecimal text of the hash *)

Fixpoint of_pos_head (p : positive) (rest : string) {struct p} :
  exists c s, HexString.Raw.of_pos p rest = String c s /\ c <> "-"%char.
Proof.
  do 4 try destruct p as [p|p|];
    try (cbn [HexString.Raw.of_pos]; apply of_pos_head);
    cbn [HexString.Raw.of_pos]; eexists _, _;
    (split; [reflexivity|discriminate]).
Qed.

Lemma of_pos_inj (p q : positive) :
  HexString.Raw.of_pos p "" = HexString.Raw.of_pos q "" -> p = q.
Proof.
  intros H. apply (f_equal (fun s => HexString.Raw.to_N s 0%N)) in H.
  rewrite !HexString.Raw.to_N_of_pos in H. cbn in H. now inversion H.
Qed.

Lemma toString16_inj (a b : Z) : toString16 a = toString16 b -> a = b.
Proof.
  destruct a as [|p|p], b as [|q|q]; cbn [toString16]; intros H;
    try reflexivity.
  - apply (f_equal (fun s => HexString.Raw.to_N s 0%N)) in H.
    rewrite HexString.Raw.to_N_of_pos in H. discriminate H.
  - discriminate H.
  - apply (f_equal (fun s => HexString.Raw.to_N s 0%N)) in H.
    rewrite HexString.Raw.to_N_of_pos in H. discriminate H.
  - f_equal. now apply of_pos_inj.
  - destruct (of_pos_head p "") as (c & s & Hp & Hc).
    rewrite Hp in H. inversion H. congruence.
  - discriminate H.
  - destruct (of_pos_head q "") as (c & s & Hq & Hc).
    rewrite Hq in H. inversion H. congruence.
  - inversion H as [H']. f_equal. now apply of_pos_inj.
Qed.

Lemma simpleHash_eq (a b : string) :
  simpleHash a = simpleHash b <-> (horner a 0 - horner b 0) mod 2 ^ 32 = 0.
Proof.
  unfold simpleHash. rewrite <- ToInt32_eq, <- !hashLoop_horner.
  rewrite !ToInt32_small by (apply hashLoop_range; lia).
  split; [apply toString16_inj|now intros ->].
Qed.

(** [simpleHash] is the text, in base 16, of the polynomial of base 31 in
    the character codes taken as a signed 32-bit number: the wrap-around
    at each round of the loop comes to one wrap-around at the end. *)
Theorem simpleHash_is_the_polynomial_wrapped (str : string) :
  simpleHash str = toString16 (ToInt32 (horner str 0)) /\
  - 2 ^ 31 <= hashLoop str 0 < 2 ^ 31.
Proof.
  split; [|apply hashLoop_range; lia].
  unfold simpleHash. f_equal. rewrite <- hashLoop_horner.
  symmetry. apply ToInt32_small, hashLoop_range. lia.
Qed.

(** Two secrets have the same hash exactly when their polynomials differ
    by a multiple of 2^32; and then they keep having the same hash with
    any text appended: with ["Aa"] and ["BB"], any two secrets that
    differ only in starting with the one or the other. *)
Theorem secrets_with_the_same_hash (a b : string) :
  (simpleHash a = simpleHash b <->
   (horner a 0 - horner b 0) mod 2 ^ 32 = 0) /\
  (simpleHash a = simpleHash b ->
   forall t, simpleHash (String.append a t) = simpleHash (String.append b t)) /\
  (forall t, simpleHash (String.append "Aa" t)
             = simpleHash (String.append "BB" t)).
Proof.
  split; [apply simpleHash_eq|]. split.
  - intros H t. unfold simpleHash in *. apply toString16_inj in H.
    now rewrite !hashLoop_app, H.
  - intros t. unfold simpleHash. now rewrite !hashLoop_app.
Qed.

Lemma secrets_with_the_same_hash_Aa_BB :
  simpleHash "Aa" = simpleHash "BB" /\
  simpleHash "Aa-secret" = simpleHash "BB-secret".
Proof.
  assert (H : simpleHash "Aa" = simpleHash "BB") by (vm_compute; reflexivity).
  split; [exact H|].
  exact (proj1 (proj2 (secrets_with_the_same_hash "Aa" "BB")) H "-secret").
Defined.

(** [verifyPassword] returns when the item is missing, is not JSON or is
    what the module wrote. It then refuses a name that has no record of
    its own; for a record made with the secret [p] it accepts the secret
    [q] exactly when the polynomials of [p] and [q] differ by a multiple
    of 2^32. On a JSON text of another shape it raises. *)
Theorem secret_is_accepted_iff_hashes_agree (name q : string) (h : Host) :
  (readable h ->
   exists ok,
     verifyPassword name q h = Done ok /\
     (users (stored h) !! name = None -> ok = false) /\
     (forall u p,
        users (stored h) !! name = Some u -> password u = simpleHash p ->
        (ok = true <-> (horner q 0 - horner p 0) mod 2 ^ 32 = 0))) /\
  (forall f, item h = Strange f -> verifyPassword name q h = Throws).
Proof.
  split.
  - intros Hr. rewrite verifyPassword_stored by exact Hr.
    eexists. split; [reflexivity|].
    unfold getProperty. destruct (users (stored h) !! name) as [u|].
    + split; [discriminate|]. intros u' p Hu Hp. inversion Hu; subst u'.
      rewrite Hp, String.eqb_eq. split.
      * intros H. symmetry in H. now apply simpleHash_eq.
      * intros H. symmetry. now apply simpleHash_eq.
    + split; [|discriminate]. intros _.
      now destruct (bool_decide (name ∈ Object_prototype)).
  - intros f Hf. unfold verifyPassword.
    now rewrite (getUser_strange name h f Hf).
Qed.

Lemma secret_is_accepted_iff_hashes_agree_for_alice :
  exists ok,
    verifyPassword "alice" "BBa" (aliceHost "Aaa") = Done ok /\
    (users (stored (aliceHost "Aaa")) !! "alice" = None -> ok = false) /\
    (forall u p,
       users (stored (aliceHost "Aaa")) !! "alice" = Some u ->
       password u = simpleHash p ->
       (ok = true <-> (horner "BBa" 0 - horner p 0) mod 2 ^ 32 = 0)).
Proof.
  exact (proj1 (secret_is_accepted_iff_hashes_agree "alice" "BBa"
                  (aliceHost "Aaa")) I).
Defined.

(** *** Game statistics *)

Lemma member_Null (c : option string) :
  bool_decide (member c <> Null) = bool_decide (c <> None).
Proof. destruct c; reflexivity. Qed.

Lemma member_Text (c : option string) (name : string) :
  bool_decide (member c = Text name) = bool_decide (c = Some name).
Proof.
  apply bool_decide_ext. destruct c as [n|]; cbn [member]; split;
    intros H; inversion H; reflexivity.
Qed.

Lemma getCurrentUser_stored (h : Host) :
  readable h -> getCurrentUser h = Done (member (currentUser (stored h))).
Proof. intros Hr. unfold getCurrentUser. now rewrite getData_stored. Qed.

Lemma updateGameStats_own (name : string) (sc : Z) (h : Host) (u : User) :
  users (stored h) !! name = Some u ->
  updateGameStats name sc h =
    Done (saved
            {| users :=
                 <[name := {| password := password u;
                              createdAt := createdAt u;
                              lastLogin := lastLogin u;
                              highScore := Z.max (highScore u) sc;
                              gamesPlayed := Double.add (gamesPlayed u) 1;
                              totalScore := Double.add (totalScore u) sc |}]>
                   (users (stored h));
               currentUser := currentUser (stored h) |} h).
Proof.
  intros Hu. unfold updateGameStats.
  rewrite getData_stored by solve_readable. cbv [bind usersAt usersOf].
  rewrite (getProperty_own _ _ u Hu). unfold saveData, saved.
  replace (if sc >? highScore u then sc else highScore u)
    with (Z.max (highScore u) sc); [reflexivity|].
  destruct (sc >? highScore u) eqn:Hgt.
  - apply Z.gtb_lt in Hgt. lia.
  - rewrite Z.gtb_ltb in Hgt. apply Z.ltb_ge in Hgt. lia.
Qed.

(** The counters are doubles: from 2^53 on, one more game is no longer
    counted. *)
Lemma count_stops_at_two_to_the_53 :
  Double.add (2 ^ 53 - 1) 1 = 2 ^ 53 /\ Double.add (2 ^ 53) 1 = 2 ^ 53 /\
  Double.add (2 ^ 53 + 2) 1 = 2 ^ 53 + 4.
Proof. repeat split; vm_compute; reflexivity. Qed.

(** For a name with a record, [updateGameStats] counts one more game,
    adds the score to the total and keeps the larger of the score and
    the high score, as long as the new count and the new total are below
    2^53 in size, where the sums of doubles are exact; the secret and the
    dates of the record, the records of all other names and the current
    user are as before, and [getUserStats] then reads the new numbers.
    For a name without a record, that [Object.prototype] does not define,
    nothing is written. *)
Theorem game_stats_are_counted (name : string) (sc : Z) (h : Host) :
  (forall u, users (stored h) !! name = Some u ->
     - 2 ^ 53 < gamesPlayed u + 1 < 2 ^ 53 ->
     - 2 ^ 53 < totalScore u + sc < 2 ^ 53 ->
     exists h',
       updateGameStats name sc h = Done h' /\
       users (stored h') !! name
         = Some {| password := password u; createdAt := createdAt u;
                   lastLogin := lastLogin u;
                   highScore := Z.max (highScore u) sc;
                   gamesPlayed := gamesPlayed u + 1;
                   totalScore := totalScore u + sc |} /\
       (forall other, other <> name ->
          users (stored h') !! other = users (stored h) !! other) /\
       currentUser (stored h') = currentUser (stored h) /\
       getUserStats name h'
         = Done {| Stats.highScore := Some (Z.max (highScore u) sc);
                   Stats.gamesPlayed := Some (gamesPlayed u + 1);
                   Stats.totalScore := Some (totalScore u + sc);
                   Stats.lastLogin := Some (lastLogin u) |}) /\
  (readable h ->
   users (stored h) !! name = None -> name ∉ Object_prototype ->
   updateGameStats name sc h = Done h /\
   getUserStats name h
     = Done {| Stats.highScore := Some 0; Stats.gamesPlayed := Some 0;
               Stats.totalScore := Some 0; Stats.lastLogin := None |}).
Proof.
  split.
  - intros u Hu Hgames Htotal. eexists.
    split; [exact (updateGameStats_own name sc h u Hu)|].
    rewrite (DoubleFacts.add_exact _ _ Hgames).
    rewrite (DoubleFacts.add_exact _ _ Htotal).
    rewrite stored_saved. cbn [users currentUser].
    split; [apply lookup_insert_eq|].
    split; [intros other Hother; now apply lookup_insert_ne|].
    split; [reflexivity|].
    unfold getUserStats. rewrite getUser_stored by solve_readable.
    rewrite stored_saved.
    cbn [users]. cbv [bind]. unfold getProperty.
    now rewrite lookup_insert_eq.
  - intros Hr Hnone Hout. unfold updateGameStats, getUserStats.
    rewrite getUser_stored, getData_stored by exact Hr.
    cbv [bind usersAt usersOf].
    now rewrite (getProperty_absent _ _ Hnone Hout).
Qed.

Lemma game_stats_are_counted_for_alice :
  exists h',
    updateGameStats "alice" 40 (aliceHost "abc") = Done h' /\
    users (stored h') !! "alice"
      = Some {| password := password (newUser "abc" emptyHost);
                createdAt := createdAt (newUser "abc" emptyHost);
                lastLogin := lastLogin (newUser "abc" emptyHost);
                highScore := Z.max (highScore (newUser "abc" emptyHost)) 40;
                gamesPlayed := gamesPlayed (newUser "abc" emptyHost) + 1;
                totalScore := totalScore (newUser "abc" emptyHost) + 40 |} /\
    (forall other, other <> "alice" ->
       users (stored h') !! other
       = users (stored (aliceHost "abc")) !! other) /\
    currentUser (stored h') = currentUser (stored (aliceHost "abc")) /\
    getUserStats "alice" h'
      = Done {| Stats.highScore
                  := Some (Z.max (highScore (newUser "abc" emptyHost)) 40);
                Stats.gamesPlayed
                  := Some (gamesPlayed (newUser "abc" emptyHost) + 1);
                Stats.totalScore
                  := Some (totalScore (newUser "abc" emptyHost) + 40);
                Stats.lastLogin
                  := Some (lastLogin (newUser "abc" emptyHost)) |}.
Proof.
  apply (proj1 (game_stats_are_counted "alice" 40 (aliceHost "abc"))).
  - vm_compute. reflexivity.
  - cbn [gamesPlayed newUser]. lia.
  - cbn [totalScore newUser]. lia.
Defined.

Lemma fold_add_grows (scores : list Z) :
  forall m, Forall (fun sc => 0 <= sc) scores ->
            m <= fold_left Z.add scores m.
Proof.
  induction scores as [|sc rest IH]; intros m Hpos; cbn [fold_left]; [lia|].
  inversion Hpos as [|? ? Hsc Hrest]; subst.
  specialize (IH (m + sc) Hrest). lia.
Qed.

Lemma playGames_own (name : string) (scores : list Z) :
  forall (h : Host) (u : User),
    users (stored h) !! name = Some u ->
    0 <= gamesPlayed u -> 0 <= totalScore u ->
    Forall (fun sc => 0 <= sc) scores ->
    gamesPlayed u + Z.of_nat (length scores) < 2 ^ 53 ->
    fold_left Z.add scores (totalScore u) < 2 ^ 53 ->
    exists h',
      playGames name scores h = Done h' /\
      users (stored h') !! name
        = Some {| password := password u; createdAt := createdAt u;
                  lastLogin := lastLogin u;
                  highScore := fold_left Z.max scores (highScore u);
                  gamesPlayed := gamesPlayed u + Z.of_nat (length scores);
                  totalScore := fold_left Z.add scores (totalScore u) |}.
Proof.
  induction scores as [|sc rest IH]; intros h u Hu Hg Ht Hpos Hgames Htotal.
  - exists h. split; [reflexivity|]. rewrite Hu. destruct u. cbn.
    now rewrite Z.add_0_r.
  - inversion Hpos as [|? ? Hsc Hrest]; subst.
    cbn [fold_left length] in Hgames, Htotal.
    pose proof (fold_add_grows rest (totalScore u + sc) Hrest) as Hgrow.
    cbn [playGames]. rewrite (updateGameStats_own name sc h u Hu).
    rewrite (DoubleFacts.add_exact (gamesPlayed u) 1) by lia.
    rewrite (DoubleFacts.add_exact (totalScore u) sc) by lia.
    cbv [bind].
    match goal with
    | |- context [playGames name rest ?h1] => set (hnext := h1)
    end.
    destruct (IH hnext
                {| password := password u; createdAt := createdAt u;
                   lastLogin := lastLogin u;
                   highScore := Z.max (highScore u) sc;
                   gamesPlayed := gamesPlayed u + 1;
                   totalScore := totalScore u + sc |})
      as (h' & Hplay & Hlook);
      cbn [gamesPlayed totalScore]; try lia; try assumption.
    { unfold hnext. rewrite stored_saved. cbn [users].
      apply lookup_insert_eq. }
    exists h'. split; [exact Hplay|]. rewrite Hlook.
    cbn [password createdAt lastLogin highScore gamesPlayed totalScore
         fold_left length].
    do 2 f_equal. lia.
Qed.

(** After any number of games of a name with a record, with scores that
    are not negative and a count and a total that stay below 2^53: the
    high score is the best of the old high score and the scores played,
    the number of games has grown by the number of scores and the total
    by their sum; so the high score never falls. *)
Theorem high_score_is_the_best_game (name : string) (scores : list Z)
    (h : Host) (u : User) :
  users (stored h) !! name = Some u ->
  0 <= gamesPlayed u -> 0 <= totalScore u ->
  Forall (fun sc => 0 <= sc) scores ->
  gamesPlayed u + Z.of_nat (length scores) < 2 ^ 53 ->
  fold_left Z.add scores (totalScore u) < 2 ^ 53 ->
  exists h' u',
    playGames name scores h = Done h' /\
    users (stored h') !! name = Some u' /\
    highScore u' = fold_left Z.max scores (highScore u) /\
    highScore u <= highScore u' /\
    Forall (fun sc => sc <= highScore u') scores /\
    gamesPlayed u' = gamesPlayed u + Z.of_nat (length scores) /\
    totalScore u' = fold_left Z.add scores (totalScore u) /\
    password u' = password u.
Proof.
  intros Hu Hg Ht Hpos Hgames Htotal.
  destruct (playGames_own name scores h u Hu Hg Ht Hpos Hgames Htotal)
    as (h' & Hplay & Hl).
  eexists h', _. split; [exact Hplay|]. split; [exact Hl|].
  cbn [password highScore gamesPlayed totalScore].
  assert (Hmax : forall l m, m <= fold_left Z.max l m /\
                             Forall (fun sc => sc <= fold_left Z.max l m) l).
  { induction l as [|a l IHl]; intros m; cbn [fold_left].
    - split; [lia|constructor].
    - destruct (IHl (Z.max m a)) as [H1 H2]. split; [lia|].
      apply List.Forall_cons; [lia|exact H2]. }
  destruct (Hmax scores (highScore u)) as [H1 H2].
  repeat split; assumption.
Qed.

Lemma high_score_is_the_best_game_for_alice :
  exists h' u',
    playGames "alice" [30; 70; 20] (aliceHost "abc") = Done h' /\
    users (stored h') !! "alice" = Some u' /\
    highScore u'
      = fold_left Z.max [30; 70; 20] (highScore (newUser "abc" emptyHost)) /\
    highScore (newUser "abc" emptyHost) <= highScore u' /\
    Forall (fun sc => sc <= highScore u') [30; 70; 20] /\
    gamesPlayed u'
      = gamesPlayed (newUser "abc" emptyHost)
        + Z.of_nat (length [30; 70; 20]) /\
    totalScore u'
      = fold_left Z.add [30; 70; 20] (totalScore (newUser "abc" emptyHost)) /\
    password u' = password (newUser "abc" emptyHost).
Proof.
  apply (high_score_is_the_best_game "alice" [30; 70; 20] (aliceHost "abc")).
  - vm_compute. reflexivity.
  - cbn [gamesPlayed newUser]. lia.
  - cbn [totalScore newUser]. lia.
  - repeat (apply List.Forall_cons; [lia|]). apply List.Forall_nil.
  - cbn. lia.
  - cbn. lia.
Defined.

(** *** The session *)

Lemma isLoggedIn_stored (h : Host) :
  readable h ->
  isLoggedIn h = Done (bool_decide (currentUser (stored h) <> None)).
Proof.
  intros Hr. unfold isLoggedIn. rewrite getCurrentUser_stored by exact Hr.
  cbv [bind]. now rewrite member_Null.
Qed.

Lemma isGuest_stored (h : Host) :
  readable h ->
  isGuest h = Done (bool_decide (currentUser (stored h) = Some "__guest__")).
Proof.
  intros Hr. unfold isGuest. rewrite getCurrentUser_stored by exact Hr.
  cbv [bind]. now rewrite member_Text.
Qed.




(** *** What [login] changes *)

Lemma getProperty_undefined (o : gmap string User) (k : string) :
  getProperty o k = Undefined -> o !! k = None /\ k ∉ Object_prototype.
Proof.
  unfold getProperty. destruct (o !! k); [discriminate|].
  destruct (bool_decide_reflect (k ∈ Object_prototype)); [discriminate|].
  now split.
Qed.

Lemma item_cases (h : Host) :
  readable h \/ exists f, item h = Strange f.
Proof.
  unfold readable. destruct (item h) as [| | d|f]; try (left; exact I).
  right. now exists f.
Qed.

(** [login] past or at its guards, in one statement. *)
Lemma login_cases (username pass : string) (h : Host) :
  readable h ->
  login username pass h =
    if String.eqb (trim username) "" then Done (failure msgNoUsername, h)
    else if (String.length pass <? 3)%nat
         then Done (failure msgShortPassword, h)
         else
           match getProperty (users (stored h)) (trim username) with
           | Own u =>
               if String.eqb (password u) (simpleHash pass)
               then Done (loggedIn,
                          saved {| users := <[trim username := touched u h]>
                                              (users (stored h));
                                   currentUser := Some (trim username) |} h)
               else Done (failure msgWrongPassword, h)
           | Inherited => Done (failure msgWrongPassword, h)
           | Undefined =>
               Done (registered,
                     saved {| users := setProperty (users (stored h))
                                         (trim username) (newUser pass h);
                              currentUser := Some (trim username) |} h)
           end.
Proof.
  intros Hr.
  destruct (String.eqb_spec (trim username) "") as [Hblank|Hname].
  - unfold login. apply username_guard in Hblank. now rewrite Hblank.
  - destruct (Nat.ltb_spec (String.length pass) 3) as [Hshort|Hlong].
    + unfold login.
      destruct (String.eqb username ""
                || (String.length (trim username) =? 0)%nat) eqn:Hg1;
        [now apply username_guard in Hg1|].
      apply password_guard in Hshort. now rewrite Hshort.
    + now apply login_known.
Qed.

(** A [login] that succeeds has read data of the shape the module writes. *)
Lemma login_success_readable (username pass : string) (h h' : Host)
    (r : Result) :
  login username pass h = Done (r, h') -> success r = true -> readable h.
Proof.
  intros Hl Hs. destruct (item_cases h) as [Hr|[f Hf]]; [exact Hr|].
  rewrite (login_strange _ _ _ f Hf) in Hl.
  destruct (String.eqb (trim username) "");
    [inversion Hl; subst; discriminate Hs|].
  destruct (String.length pass <? 3)%nat;
    [inversion Hl; subst; discriminate Hs|discriminate Hl].
Qed.

Lemma login_failure_keeps (username pass : string) (h h' : Host)
    (r : Result) (f : Foreign) :
  item h = Strange f -> login username pass h = Done (r, h') ->
  success r = false /\ h' = h.
Proof.
  intros Hf Hl. rewrite (login_strange _ _ _ f Hf) in Hl.
  destruct (String.eqb (trim username) "");
    [inversion Hl; subst; now split|].
  destruct (String.length pass <? 3)%nat;
    [inversion Hl; subst; now split|discriminate Hl].
Qed.

(** Whatever [login] returns, the records of all names other than the
    trimmed user name are as before. When it succeeds, the trimmed name
    is the current user, and its record carries the hash of the secret
    given: the record it had, with only the login time changed, or a new
    one with no games. When it fails, the store is as before. *)
Theorem login_touches_one_record (username pass : string) (h h' : Host)
    (r : Result) :
  login username pass h = Done (r, h') ->
  (forall other, other <> trim username ->
     users (stored h') !! other = users (stored h) !! other) /\
  (success r = false -> h' = h) /\
  (success r = true ->
     getCurrentUsername h' = Done (Text (trim username)) /\
     isLoggedIn h' = Done true /\
     exists rec,
       users (stored h') !! trim username = Some rec /\
       password rec = simpleHash pass /\
       (forall old, users (stored h) !! trim username = Some old ->
          rec = touched old h) /\
       (users (stored h) !! trim username = None -> rec = newUser pass h)).
Proof.
  destruct (item_cases h) as [Hr|[f Hf]].
  2:{ intros Hl. destruct (login_failure_keeps _ _ _ _ _ f Hf Hl) as [Hs ->].
      repeat split; congruence. }
  rewrite login_cases by exact Hr.
  destruct (String.eqb (trim username) "");
    [intros H; inversion H; subst; repeat split; discriminate|].
  destruct (String.length pass <? 3)%nat;
    [intros H; inversion H; subst; repeat split; discriminate|].
  destruct (getProperty (users (stored h)) (trim username)) as [u| |] eqn:Hp.
  - assert (Hu : users (stored h) !! trim username = Some u).
    { unfold getProperty in Hp.
      destruct (users (stored h) !! trim username); [now inversion Hp|].
      destruct (bool_decide _); discriminate. }
    destruct (String.eqb (password u) (simpleHash pass)) eqn:Hpw;
      [|intros H; inversion H; subst; repeat split; discriminate].
    intros H. inversion H; subst. clear H.
    unfold getCurrentUsername.
    rewrite isLoggedIn_stored, getCurrentUser_stored by solve_readable.
    rewrite stored_saved.
    cbn [users currentUser member].
    split; [intros other Hother; now apply lookup_insert_ne|].
    split; [discriminate|]. intros _. repeat split.
    exists (touched u h). split; [apply lookup_insert_eq|].
    split; [now apply String.eqb_eq in Hpw|].
    split; [intros old Hold; congruence|congruence].
  - intros H. inversion H; subst. repeat split; discriminate.
  - apply getProperty_undefined in Hp as [Hnone Hout].
    rewrite (setProperty_absent _ _ _ Hnone Hout).
    intros H. inversion H; subst. clear H.
    unfold getCurrentUsername.
    rewrite isLoggedIn_stored, getCurrentUser_stored by solve_readable.
    rewrite stored_saved.
    cbn [users currentUser member].
    split; [intros other Hother; now apply lookup_insert_ne|].
    split; [discriminate|]. intros _. repeat split.
    exists (newUser pass h). split; [apply lookup_insert_eq|].
    split; [reflexivity|]. split; [intros old Hold; congruence|reflexivity].
Qed.

Lemma login_touches_one_record_for_alice :
  (forall other, other <> trim "alice" ->
     users (stored (aliceHost "abc")) !! other
     = users (stored emptyHost) !! other) /\
  (success registered = false -> aliceHost "abc" = emptyHost) /\
  (success registered = true ->
     getCurrentUsername (aliceHost "abc") = Done (Text (trim "alice")) /\
     isLoggedIn (aliceHost "abc") = Done true /\
     exists rec,
       users (stored (aliceHost "abc")) !! trim "alice" = Some rec /\
       password rec = simpleHash "abc" /\
       (forall old, users (stored emptyHost) !! trim "alice" = Some old ->
          rec = touched old emptyHost) /\
       (users (stored emptyHost) !! trim "alice" = None ->
        rec = newUser "abc" emptyHost)).
Proof.
  apply (login_touches_one_record "alice" "abc" emptyHost (aliceHost "abc")
           registered).
  vm_compute. reflexivity.
Defined.

(** Once a name has been registered with a secret, a login with the same
    name and secret succeeds as a login, whatever the name and the
    secret; and a secret of 3 characters or more with another hash is
    refused, the store untouched. *)
Theorem registered_name_logs_in (username pass : string) (h h1 : Host) :
  login username pass h = Done (registered, h1) ->
  (exists h2, login username pass h1 = Done (loggedIn, h2)) /\
  (forall q, (3 <= String.length q)%nat ->
     simpleHash q <> simpleHash pass ->
     login username q h1 = Done (failure msgWrongPassword, h1)).
Proof.
  intros Hreg.
  pose proof (login_success_readable _ _ _ _ _ Hreg eq_refl) as Hr.
  revert Hreg. rewrite login_cases by exact Hr.
  destruct (String.eqb (trim username) "") eqn:Hname; [discriminate|].
  destruct (String.length pass <? 3)%nat eqn:Hlen; [discriminate|].
  destruct (getProperty (users (stored h)) (trim username)) as [u| |] eqn:Hp.
  - destruct (String.eqb (password u) (simpleHash pass)); discriminate.
  - discriminate.
  - apply getProperty_undefined in Hp as [Hnone Hout].
    rewrite (setProperty_absent _ _ _ Hnone Hout).
    intros H. inversion H; subst h1. clear H.
    rewrite login_cases by solve_readable. rewrite Hname, Hlen.
    rewrite stored_saved. cbn [users].
    rewrite (getProperty_own _ _ (newUser pass h)) by apply lookup_insert_eq.
    cbn [password newUser]. rewrite String.eqb_refl.
    split; [eexists; reflexivity|].
    intros q Hq Hne. rewrite login_cases by solve_readable. rewrite Hname.
    apply Nat.ltb_ge in Hq. rewrite Hq.
    rewrite stored_saved. cbn [users].
    rewrite (getProperty_own _ _ (newUser pass h)) by apply lookup_insert_eq.
    cbn [password newUser].
    destruct (String.eqb_spec (simpleHash pass) (simpleHash q));
      [congruence|reflexivity].
Qed.

Lemma registered_name_logs_in_for_alice :
  (exists h2, login "alice" "abc" (aliceHost "abc") = Done (loggedIn, h2)) /\
  (forall q, (3 <= String.length q)%nat ->
     simpleHash q <> simpleHash "abc" ->
     login "alice" q (aliceHost "abc")
     = Done (failure msgWrongPassword, aliceHost "abc")).
Proof.
  apply (registered_name_logs_in "alice" "abc" emptyHost (aliceHost "abc")).
  vm_compute. reflexivity.
Defined.

(** *** Blanks around the user name *)

Lemma trimEnd_cons (c : ascii) (rest : string) :
  trimEnd (String c rest) =
    match trimEnd rest with
    | EmptyString => if isWhiteSpace c then EmptyString
                     else String c EmptyString
    | kept => String c kept
    end.
Proof. reflexivity. Qed.

Lemma trimEnd_fixed (s : string) : trimEnd (trimEnd s) = trimEnd s.
Proof.
  induction s as [|c rest IH]; [reflexivity|].
  rewrite (trimEnd_cons c rest).
  destruct (trimEnd rest) as [|k kept] eqn:Hrest.
  - destruct (isWhiteSpace c) eqn:Hc; [reflexivity|].
    rewrite trimEnd_cons. cbn [trimEnd]. now rewrite Hc.
  - rewrite trimEnd_cons, IH. reflexivity.
Qed.

Lemma trimEnd_head (c : ascii) (rest : string) :
  isWhiteSpace c = false ->
  exists kept, trimEnd (String c rest) = String c kept.
Proof.
  intros Hc. rewrite trimEnd_cons. destruct (trimEnd rest) as [|k kept].
  - rewrite Hc. now eexists.
  - now eexists.
Qed.

Lemma trimStart_head (s : string) :
  trimStart s = "" \/
  exists c rest, trimStart s = String c rest /\ isWhiteSpace c = false.
Proof.
  induction s as [|c rest IH]; [now left|].
  cbn [trimStart]. destruct (isWhiteSpace c) eqn:Hc; [exact IH|].
  right. now exists c, rest.
Qed.

Lemma trim_fixed (s : string) :
  trimStart (trim s) = trim s /\ trimEnd (trim s) = trim s.
Proof.
  unfold trim. split; [|apply trimEnd_fixed].
  destruct (trimStart_head s) as [->|(c & rest & -> & Hc)]; [reflexivity|].
  destruct (trimEnd_head c rest Hc) as [kept ->].
  cbn [trimStart]. now rewrite Hc.
Qed.

(** [login] looks at the user name only through its trimmed form: two
    names that differ in the blanks around them are the same name to it,
    with the same result and the same store afterwards. Trimming a
    trimmed name changes nothing, so that the name under which a user is
    stored has no blank at either end. *)
Theorem login_ignores_blanks_around_the_name (u v pass : string) (h : Host) :
  trim (trim u) = trim u /\
  trimStart (trim u) = trim u /\ trimEnd (trim u) = trim u /\
  login (trim u) pass h = login u pass h /\
  (trim u = trim v -> login u pass h = login v pass h).
Proof.
  destruct (trim_fixed u) as [Hs He].
  assert (Hidem : trim (trim u) = trim u).
  { unfold trim at 1. now rewrite Hs, He. }
  split; [exact Hidem|]. split; [exact Hs|]. split; [exact He|].
  destruct (item_cases h) as [Hr|[f Hf]].
  - split.
    + rewrite !login_cases by exact Hr. now rewrite Hidem.
    + intros Heq. rewrite !login_cases by exact Hr. now rewrite Heq.
  - split.
    + rewrite !(login_strange _ _ _ f Hf). now rewrite Hidem.
    + intros Heq. rewrite !(login_strange _ _ _ f Hf). now rewrite Heq.
Qed.

Lemma login_ignores_blanks_around_the_name_alice :
  login "  alice " "abc" emptyHost = login "alice  " "abc" emptyHost.
Proof.
  refine (proj2 (proj2 (proj2 (proj2
            (login_ignores_blanks_around_the_name "  alice " "alice  "
               "abc" emptyHost)))) _).
  vm_compute. reflexivity.
Defined.

(** *** A store that cannot be read *)

(** When the item is missing or is not JSON, nobody is logged in and no
    secret is accepted; a login that fails leaves the item as it is, and
    a login that succeeds is a registration that writes a new item with
    that one user and nothing else. *)
Theorem unreadable_store_is_replaced (username pass : string) (h h' : Host)
    (r : Result) :
  item h = Absent \/ item h = Unparseable ->
  login username pass h = Done (r, h') ->
  isLoggedIn h = Done false /\
  (forall name q, verifyPassword name q h = Done false) /\
  (success r = false -> h' = h) /\
  (success r = true ->
     r = registered /\
     item h' = Stored {| users := {[ trim username := newUser pass h ]};
                         currentUser := Some (trim username) |}).
Proof.
  intros Hitem.
  assert (Hs : stored h = {| users := ∅; currentUser := None |})
    by (unfold stored; now destruct Hitem as [-> | ->]).
  assert (Hr : readable h)
    by (unfold readable; now destruct Hitem as [-> | ->]).
  rewrite login_cases, isLoggedIn_stored by exact Hr.
  rewrite Hs. cbn [users currentUser].
  intros Hlogin. split; [reflexivity|]. split.
  { intros name q. rewrite verifyPassword_stored by exact Hr.
    rewrite Hs. cbn [users].
    unfold getProperty. rewrite lookup_empty.
    now destruct (bool_decide (name ∈ Object_prototype)). }
  destruct (String.eqb (trim username) "");
    [inversion Hlogin; subst;
     split; [reflexivity|discriminate]|].
  destruct (String.length pass <? 3)%nat;
    [inversion Hlogin; subst;
     split; [reflexivity|discriminate]|].
  destruct (getProperty ∅ (trim username)) eqn:Hp.
  - unfold getProperty in Hp. rewrite lookup_empty in Hp.
    now destruct (bool_decide (trim username ∈ Object_prototype)).
  - inversion Hlogin; subst.
    split; [reflexivity|discriminate].
  - apply getProperty_undefined in Hp as [Hnone Hout].
    rewrite (setProperty_absent _ _ _ Hnone Hout) in Hlogin.
    inversion Hlogin; subst.
    split; [discriminate|]. intros _. split; [reflexivity|].
    unfold saved. cbn [item]. now rewrite insert_empty.
Qed.

Lemma unreadable_store_is_replaced_by_alice :
  isLoggedIn brokenHost = Done false /\
  (forall name q, verifyPassword name q brokenHost = Done false) /\
  (success registered = false ->
   saved {| users := {[ "alice" := newUser "abc" brokenHost ]};
            currentUser := Some "alice" |} brokenHost = brokenHost) /\
  (success registered = true ->
     registered = registered /\
     item (saved {| users := {[ "alice" := newUser "abc" brokenHost ]};
                    currentUser := Some "alice" |} brokenHost)
     = Stored {| users := {[ trim " alice" := newUser "abc" brokenHost ]};
                 currentUser := Some (trim " alice") |}).
Proof.
  apply (unreadable_store_is_replaced " alice" "abc" brokenHost
           (saved {| users := {[ "alice" := newUser "abc" brokenHost ]};
                     currentUser := Some "alice" |} brokenHost) registered).
  - right. reflexivity.
  - vm_compute. reflexivity.
Defined.

End StoreFacts.

(** ** Properties of the page handlers *)

Module AppFacts.
Import Storage Auth App AuthFacts StoreFacts.

Lemma getCurrentUserStats_guest (h : Host) :
  currentUser (stored h) = Some "__guest__" ->
  getCurrentUserStats h = Done (Some guestStats).
Proof.
  intros Hg. unfold getCurrentUserStats.
  rewrite getCurrentUser_stored by solve_readable. now rewrite Hg.
Qed.

Lemma getCurrentUserStats_own (h : Host) (name : string) (u : User) :
  currentUser (stored h) = Some name -> name <> "" -> name <> "__guest__" ->
  users (stored h) !! name = Some u ->
  getCurrentUserStats h
    = Done (Some {| Stats.highScore := Some (highScore u);
                    Stats.gamesPlayed := Some (gamesPlayed u);
                    Stats.totalScore := Some (totalScore u);
                    Stats.lastLogin := Some (lastLogin u) |}).
Proof.
  intros Hc Hne Hng Hu. unfold getCurrentUserStats, getUserStats.
  rewrite getCurrentUser_stored by solve_readable. rewrite Hc.
  cbv [bind]. cbn [member].
  apply String.eqb_neq in Hne, Hng. rewrite Hne, Hng.
  rewrite getUser_stored by solve_readable. cbv [bind].
  now rewrite (getProperty_own _ _ u Hu).
Qed.

(** At the end of a guest's game nothing is written to the store, whatever
    it holds, and the overlay says game over with the score, never new
    record. *)
Theorem guest_game_is_not_stored (finalScore : Z) (h : Host) (p : Page) :
  currentUser (stored h) = Some "__guest__" ->
  handleGameOver finalScore h p
    = Done (h, showOverlay titleOver (scoreLine finalScore) p).
Proof.
  intros Hg. unfold handleGameOver.
  rewrite isGuest_stored by solve_readable. rewrite Hg.
  cbv [bind]. cbn [negb fst snd].
  rewrite bool_decide_eq_true_2 by reflexivity. cbn [negb fst snd].
  rewrite (getCurrentUserStats_guest h Hg). cbn [guestStats Stats.highScore].
  destruct (finalScore =? 0) eqn:Hz; [|reflexivity].
  apply Z.eqb_eq in Hz. now subst.
Qed.

Lemma guest_game_is_not_stored_after_alice :
  handleGameOver 50
    (saved {| users := users (stored (aliceHost "abc"));
              currentUser := Some "__guest__" |} emptyHost) firstPage
  = Done (saved {| users := users (stored (aliceHost "abc"));
                   currentUser := Some "__guest__" |} emptyHost,
          showOverlay titleOver (scoreLine 50) firstPage).
Proof.
  apply (guest_game_is_not_stored 50
           (saved {| users := users (stored (aliceHost "abc"));
                     currentUser := Some "__guest__" |} emptyHost)).
  reflexivity.
Defined.

(** At the end of a game of the user logged in, with a score, a high
    score, a count of games and a total that are below 2^53 in size (where
    the sums of doubles are exact and [String] prints all the digits), the
    game is counted in the user's record (one more game, the score added to the total, the
    high score raised to the score when it is higher), the page shows the
    new high score and number of games, and the overlay comes up with the
    score. Its title is new record exactly when the score is above zero
    and at least the old high score: equalling the old high score counts
    as a new record. *)
Theorem game_over_is_counted_for_the_user (finalScore : Z) (h : Host)
    (p : Page) (name : string) (u : User) :
  currentUser (stored h) = Some name -> name <> "" ->
  name <> "__guest__" -> users (stored h) !! name = Some u ->
  - 2 ^ 53 < finalScore < 2 ^ 53 ->
  - 2 ^ 53 < highScore u < 2 ^ 53 ->
  - 2 ^ 53 < gamesPlayed u + 1 < 2 ^ 53 ->
  - 2 ^ 53 < totalScore u + finalScore < 2 ^ 53 ->
  exists h' p',
    handleGameOver finalScore h p = Done (h', p') /\
    users (stored h') !! name
      = Some {| password := password u; createdAt := createdAt u;
                lastLogin := lastLogin u;
                highScore := Z.max (highScore u) finalScore;
                gamesPlayed := gamesPlayed u + 1;
                totalScore := totalScore u + finalScore |} /\
    overlayTitle p' = (if (0 <? finalScore) && (highScore u <=? finalScore)
                       then titleRecord else titleOver) /\
    overlayMessage p' = scoreLine finalScore /\
    overlayHidden p' = false /\
    highScoreText p'
      = padStart3 (toDecimal (Z.max (highScore u) finalScore)) /\
    gamesPlayedText p' = toDecimal (gamesPlayed u + 1) /\
    currentScoreText p' = currentScoreText p.
Proof.
  intros Hc Hne Hng Hu _ _ Hgames Htotal.
  unfold handleGameOver, getCurrentUsername.
  rewrite isGuest_stored, getCurrentUser_stored by solve_readable.
  rewrite Hc. cbv [bind].
  rewrite bool_decide_eq_false_2 by congruence.
  cbn [negb propertyKey member].
  rewrite (updateGameStats_own name finalScore h u Hu).
  rewrite (DoubleFacts.add_exact _ _ Hgames).
  rewrite (DoubleFacts.add_exact _ _ Htotal).
  match goal with
  | |- context [updateStats ?h1 p] => set (hnext := h1)
  end.
  assert (Hstats : getCurrentUserStats hnext
            = Done (Some {| Stats.highScore
                              := Some (Z.max (highScore u) finalScore);
                            Stats.gamesPlayed := Some (gamesPlayed u + 1);
                            Stats.totalScore
                              := Some (totalScore u + finalScore);
                            Stats.lastLogin := Some (lastLogin u) |})).
  { unfold hnext.
    rewrite (getCurrentUserStats_own _ name
               {| password := password u; createdAt := createdAt u;
                  lastLogin := lastLogin u;
                  highScore := Z.max (highScore u) finalScore;
                  gamesPlayed := gamesPlayed u + 1;
                  totalScore := totalScore u + finalScore |});
      try assumption; try reflexivity.
    rewrite stored_saved. cbn [users]. apply lookup_insert_eq. }
  unfold updateStats. rewrite Hstats. cbv [bind]. cbn [fst snd].
  rewrite Hstats.
  cbn [Stats.highScore Stats.gamesPlayed String_ textOf].
  assert (Hflag : (finalScore =? Z.max (highScore u) finalScore)
                  && (finalScore >? 0)
                  = (0 <? finalScore) && (highScore u <=? finalScore)).
  { rewrite Z.gtb_ltb, andb_comm. f_equal.
    destruct (Z.eqb_spec finalScore (Z.max (highScore u) finalScore));
      destruct (Z.leb_spec (highScore u) finalScore); try reflexivity; lia. }
  rewrite Hflag.
  destruct ((0 <? finalScore) && (highScore u <=? finalScore));
    eexists _, _; (split; [reflexivity|]);
    (split; [unfold hnext; rewrite stored_saved; cbn [users];
             apply lookup_insert_eq|]);
    repeat split.
Qed.

Lemma game_over_is_counted_for_the_user_alice :
  exists h' p',
    handleGameOver 30 (aliceHost "abc") firstPage = Done (h', p') /\
    users (stored h') !! "alice"
      = Some {| password := password (newUser "abc" emptyHost);
                createdAt := createdAt (newUser "abc" emptyHost);
                lastLogin := lastLogin (newUser "abc" emptyHost);
                highScore := Z.max (highScore (newUser "abc" emptyHost)) 30;
                gamesPlayed := gamesPlayed (newUser "abc" emptyHost) + 1;
                totalScore := totalScore (newUser "abc" emptyHost) + 30 |} /\
    overlayTitle p'
      = (if (0 <? 30) && (highScore (newUser "abc" emptyHost) <=? 30)
         then titleRecord else titleOver) /\
    overlayMessage p' = scoreLine 30 /\
    overlayHidden p' = false /\
    highScoreText p'
      = padStart3 (toDecimal (Z.max (highScore (newUser "abc" emptyHost)) 30)) /\
    gamesPlayedText p'
      = toDecimal (gamesPlayed (newUser "abc" emptyHost) + 1) /\
    currentScoreText p' = currentScoreText firstPage.
Proof.
  apply (game_over_is_counted_for_the_user 30 (aliceHost "abc") firstPage
           "alice" (newUser "abc" emptyHost)).
  - reflexivity.
  - discriminate.
  - discriminate.
  - vm_compute. reflexivity.
  - lia.
  - cbn [highScore newUser]. lia.
  - cbn [gamesPlayed newUser]. lia.
  - cbn [totalScore newUser]. lia.
Defined.

(** With nobody logged in, in data of the shape the module writes, the
    end of a game raises: [handleGameOver] reads the high score of
    statistics that are [null]. It raises as well on a JSON text of
    another shape, unless that is an object without users whose current
    user is the guest. *)
Theorem game_over_without_a_user_raises (finalScore : Z) (h : Host)
    (p : Page) :
  (readable h -> currentUser (stored h) = None ->
   handleGameOver finalScore h p = Throws) /\
  (forall f, item h = Strange f -> f <> JsonObject (Text "__guest__") ->
   handleGameOver finalScore h p = Throws).
Proof.
  split.
  2:{ intros f Hf Hng. destruct h as [it nw]. cbn [item] in Hf. subst it.
      unfold handleGameOver, isGuest, getCurrentUsername, getCurrentUser,
        getData.
      destruct f as [| |cu]; cbn [item JSON_parse]; cbv [bind];
        try reflexivity.
      rewrite bool_decide_eq_false_2 by congruence.
      reflexivity. }
  intros Hr Hc. unfold handleGameOver, getCurrentUsername.
  rewrite isGuest_stored, getCurrentUser_stored by exact Hr.
  rewrite Hc. cbv [bind].
  rewrite bool_decide_eq_false_2 by discriminate.
  cbn [negb propertyKey member].
  assert (Hkept : forall h1, updateGameStats "null" finalScore h = Done h1 ->
                             readable h1 /\ currentUser (stored h1) = None).
  { intros h1. unfold updateGameStats. rewrite getData_stored by exact Hr.
    cbv [bind usersAt usersOf].
    destruct (getProperty (users (stored h)) "null");
      intros H; inversion H; subst; try rewrite stored_saved;
      (split; [solve_readable|exact Hc]). }
  destruct (updateGameStats "null" finalScore h) as [h1| |] eqn:Hup.
  - destruct (Hkept h1 eq_refl) as [Hr1 Hc1].
    unfold updateStats, getCurrentUserStats.
    rewrite getCurrentUser_stored by exact Hr1. rewrite Hc1.
    cbv [bind]. cbn [fst snd member].
    rewrite getCurrentUser_stored by exact Hr1. rewrite Hc1. reflexivity.
  - reflexivity.
  - exfalso. unfold updateGameStats in Hup.
    rewrite getData_stored in Hup by exact Hr.
    cbv [bind usersAt usersOf] in Hup.
    destruct (getProperty (users (stored h)) "null"); discriminate.
Qed.

Lemma game_over_without_a_user_raises_on_empty_store :
  handleGameOver 20 emptyHost firstPage = Throws.
Proof.
  apply (proj1 (game_over_without_a_user_raises 20 emptyHost firstPage)).
  - exact I.
  - reflexivity.
Defined.

End AppFacts.

Module RestartFacts.
Import SnakeGame Runs EngineFacts App.

(** The restart button, in any reachable state of the engine (playing,
    paused, over or idle), never raises and returns exactly when two food
    loops in a row do: the board is reset twice, once by [reset] and once
    more by [start], so the food is drawn twice and the second draw is
    the one kept. It then leaves a new game running: the snake of a fresh
    board, score 0, one live timer at the initial speed, the overlay
    hidden. *)
Theorem restart_always_gives_a_new_game (e : Engine) (p : Page) :
  reachable e ->
  handleRestart e p <> Throws /\
  (returns (handleRestart e p) <->
   exists f1 rs1 f2 rs2,
     spawnLoop initialSnake (entropy e) = Done (f1, rs1) /\
     spawnLoop initialSnake rs1 = Done (f2, rs2)) /\
  (forall e' p', handleRestart e p = Done (e', p') ->
     gameState e' = PLAYING /\ snake e' = initialSnake /\ score e' = 0 /\
     speed e' = 150 /\ direction e' = RIGHT /\ nextDirection e' = RIGHT /\
     gameLoop e' = Some (nextTimer e) /\ timers e' = [(nextTimer e, 150)] /\
     log e' = Rendered :: Rendered :: log e /\
     p' = hideOverlay p /\
     exists f1 rs1 f2 rs2,
       spawnLoop initialSnake (entropy e) = Done (f1, rs1) /\
       spawnLoop initialSnake rs1 = Done (f2, rs2) /\
       food e' = Some f2 /\ entropy e' = rs2).
Proof.
  intros Hreach. destruct (reachable_Inv e Hreach) as [Ht _ _ _ _ _ _].
  pose proof (reachable_ctx e Hreach) as Hctx.
  destruct (reset_returns e Hctx) as [Hthrow Hret].
  unfold handleRestart.
  destruct (reset e) as [e1| |] eqn:Hreset; [|contradiction|].
  - cbv [bind].
    apply reset_Done in Hreset as [_ [f1 [rs1 [Hloop1 ->]]]].
    rewrite start_fresh by (now left).
    cbn [entropy ctx].
    destruct (spawnLoop initialSnake rs1) as [[f2 rs2]| |] eqn:Hloop2.
    + cbv [bind fst snd]. split; [discriminate|]. split.
      * split; [intros _; now exists f1, rs1, f2, rs2|intros _; now eexists].
      * intros e' p' H. inversion H; subst e' p'. clear H.
        unfold started.
        cbn [gameState snake score speed direction nextDirection
             gameLoop timers nextTimer log food entropy].
        match goal with
        | |- context [(nextTimer e, 150) :: ?rest] =>
            assert (Hclear : rest = [])
        end.
        { rewrite Ht. unfold ownTimer.
          destruct (gameLoop e); [apply clear_own|reflexivity]. }
        rewrite Hclear. repeat split.
        now exists f1, rs1, f2, rs2.
    + now apply spawnLoop_never_throws in Hloop2.
    + cbv [bind]. split; [discriminate|]. split; [|discriminate].
      split; [intros [x Hx]; discriminate Hx|].
      intros (g1 & ts1 & g2 & ts2 & H1 & H2).
      rewrite Hloop1 in H1. inversion H1; subst. congruence.
  - cbv [bind]. split; [discriminate|]. split; [|discriminate].
    split; [intros [x Hx]; discriminate Hx|].
    intros (g1 & ts1 & g2 & ts2 & H1 & _).
    destruct (proj2 Hret) as [x Hx];
      [exists (g1, ts1); exact H1|discriminate Hx].
Qed.

Lemma restart_always_gives_a_new_game_from_play :
  returns (handleRestart (with_entropy [1 # 8; 1 # 8; 3 # 4; 1 # 2]
                            playingBoard) firstPage) /\
  exists e',
    (handleRestart (with_entropy [1 # 8; 1 # 8; 3 # 4; 1 # 2] playingBoard)
       firstPage = Done (e', hideOverlay firstPage)) /\
    gameState e' = PLAYING /\ snake e' = initialSnake /\ score e' = 0.
Proof.
  assert (Hreach :
    reachable (with_entropy [1 # 8; 1 # 8; 3 # 4; 1 # 2] playingBoard)).
  { apply (reachable_step CallStart
             (with_entropy [1 # 2; 3 # 4; 1 # 8; 1 # 8; 3 # 4; 1 # 2]
                idleBoard));
      [|vm_compute; reflexivity].
    apply (reachable_init
             [1 # 4; 1 # 4; 1 # 2; 3 # 4; 1 # 8; 1 # 8; 3 # 4; 1 # 2]
             true true).
    vm_compute. reflexivity. }
  destruct (restart_always_gives_a_new_game _ firstPage Hreach)
    as (_ & Hret & Hnew).
  split.
  { apply Hret.
    exists {| x := 2; y := 2 |}, [3 # 4; 1 # 2]%Q, {| x := 15; y := 10 |}, [].
    split; vm_compute; reflexivity. }
  eassert (Hrun :
    handleRestart (with_entropy [1 # 8; 1 # 8; 3 # 4; 1 # 2] playingBoard)
      firstPage = Done (_, hideOverlay firstPage))
    by (vm_compute; reflexivity).
  eexists. split; [exact Hrun|].
  destruct (Hnew _ _ Hrun) as (R1 & R2 & R3 & _).
  repeat split; assumption.
Defined.

End RestartFacts.
